(** * The control core of the disassembly job-shop simulation (LUMS COR)

    A shallow embedding of [preShopPool.py], [workstation.py] and
    [orderReleaseControl.py], with the order generator of [appConfig.py], and
    the properties of the release controller, the workstation queue, the load
    accounting and the generated orders proved on it.

    Conventions of the embedding.
    - Numbers: Python's [float] and the [int]s mixed with them are exact
      rationals [Q] (no rounding); [int]s that stay integers ([priority],
      [depth], task counts) are [Z].  Python's [/] raises
      [ZeroDivisionError] on a zero divisor; [Qdiv] is only applied where the
      divisor was tested, every other division goes through [truediv].
    - Objects: a [Workstation] is referred to by its position in
      [station_list], an [Order] by its position in the order store, a simpy
      event by a number.  A [Task] object is a node of the order's plan; what
      the code never reassigns once the order is built (name, times, station
      type, [next_steps]) is in the node, together with the object's identity
      [tid]; the attributes the code assigns later ([depth],
      [assigned_station], [planned_start_time]) are in the task store of the
      world, so that [flat_plan], [next_steps], [ready_tasks] and the queues
      all see one and the same task.
    - Effects: a computation takes a [World] and ends in [Ok] with a value or
      in [Raise] with a Python exception, in both cases with the world as it
      is at that moment.
    - Logging: the records of [log_manager.log_event] and the
      [main_logger.error] messages are kept; [info] and [debug] messages and
      [print] are left out (nothing reads them back).  The free-text
      [Details] column of an event is left out as well. *)

From Stdlib Require Import QArith Qabs Qround Lqa.
From stdpp Require Import base option list gmap strings pretty fin_maps sorting.

Set Warnings "-register-all".

(** ** Python values *)

Inductive Exn : Type :=
| ValueError (msg : string)
| KeyError (key : string)
| ZeroDivisionError
| AttributeError (msg : string)
| TypeError (msg : string)
| RuntimeError (msg : string)
| IndexError (msg : string)
| DanglingReference.

(** [a < b] on floats. *)
Definition Qltb (a b : Q) : bool := negb (Qle_bool b a).

(** [a == b] on strings. *)
Definition str_eqb (a b : string) : bool := bool_decide (a = b).

(** [s.startswith(p)] *)
Definition startswith (s p : string) : bool := String.prefix p s.

(** The tolerance of the load bookkeeping, [1e-10]. *)
Definition tolerance : Q := 1 # 10000000000.

(** [sum(xs)]: starts from [0] and adds from the left. *)
Definition py_sum (xs : list Q) : Q := foldl Qplus 0%Q xs.

(** [min(l, key=...)] on a non-empty list [x :: l]: the first element whose
    key is minimal. *)
Fixpoint py_min_by {A} (key : A → Q) (best : A) (l : list A) : A :=
  match l with
  | [] => best
  | x :: l' => py_min_by key (if Qltb (key x) (key best) then x else best) l'
  end.

(** [max(l, key=...)] on a non-empty list [x :: l]: the first element whose
    key is maximal. *)
Fixpoint py_max_by {A} (key : A → Q) (best : A) (l : list A) : A :=
  match l with
  | [] => best
  | x :: l' => py_max_by key (if Qltb (key best) (key x) then x else best) l'
  end.

(** [list.sort(key=...)]: a stable ascending sort; the keys are compared with
    [<] only.  Stability fixes the result, so insertion from the right gives
    the list Python's sort gives. *)
Section PySort.
Context {A K : Type} (lt : K → K → bool) (key : A → K).

Fixpoint py_insert (x : A) (l : list A) : list A :=
  match l with
  | [] => [x]
  | y :: l' => if lt (key y) (key x) then y :: py_insert x l' else x :: y :: l'
  end.

Definition py_sort (l : list A) : list A := foldr py_insert [] l.
End PySort.

(** [<] on the tuples [(priority, x)]. *)
Definition key_lt (a b : Z * Q) : bool :=
  (a.1 <? b.1)%Z || ((a.1 =? b.1)%Z && Qltb a.2 b.2).

(** ** Entities *)

(** [class Task]: the node of a plan. [depth0] is the [depth] argument of the
    constructor; [parent_task] is only ever tested against [None]. *)
Inductive Task : Type := mkTask {
  tid : nat;
  task_name : string;
  process_time : Q;
  produced_component : option string;
  revenue : Q;
  station : string;
  next_steps : list Task;
  parent_task : option string;
  depth0 : Z
}.

(** The attributes of a task that are assigned after its construction. *)
Record TaskState : Type := mkTaskState {
  depth : Z;
  assigned_station : option nat;
  planned_start_time : option Q
}.

Definition init_task_state (t : Task) : TaskState :=
  {| depth := depth0 t; assigned_station := None; planned_start_time := None |}.

(** An entry [{'load': ..., 'depth': ...}] of [load_contributions]. *)
Record Contribution : Type := mkContribution {
  load : Q;
  c_depth : Z
}.

(** [class Order]. [flat_plan] is computed once from [process_plan] by the
    constructor and never reassigned: it is [create_flat_plan] below. *)
Record Order : Type := mkOrder {
  order_id : string;
  order_depth : Z;
  arrival_time : Q;
  due_date : Q;
  priority : Z;
  plan_name : string;
  process_plan : list Task;
  finish_time : Q;
  completed_tasks : list Task;
  ready_tasks : list Task;
  load_contributions : gmap string (gmap string Contribution)
}.

(** [class Workstation]; [orControlSystem] tells whether the controller has
    been attached; [idle_event] is the number of the current event object.
    The idle-time and cost counters, which only [start_processing] and the KPI
    code use, are left out. *)
Record Workstation : Type := mkWorkstation {
  type_id : string;
  instance_id : string;
  id : string;
  output_warehouse : string;
  orControlSystem : bool;
  dispatching_rule : string;
  ws_tasks_queue : list (nat * Task);
  indirect_load : Q;
  idle : bool;
  idle_event : nat;
  total_work_time : Q;
  last_work_start : Q
}.

(** [class Warehouse] *)
Record Warehouse : Type := mkWarehouse {
  wh_id : string;
  stock : list string
}.

(** A record of [log_manager.events]. *)
Record LogEvent : Type := mkLogEvent {
  ev_timestamp : Q;
  ev_station : string;
  ev_order : string;
  ev_task : string;
  ev_type : string
}.

(** [app_config] *)
Record AppConfig : Type := mkAppConfig {
  PLANNED_START_TIME_ALLOWANCE : Q
}.

Definition app_config_default : AppConfig :=
  {| PLANNED_START_TIME_ALLOWANCE := 2 # 10 |}.

(** The controller ([ORControlSystem]), the pool, the clock, the loggers and
    the object stores. *)
Record World : Type := mkWorld {
  now : Q;
  app_config : AppConfig;
  station_list : list Workstation;
  warehouse_list : list Warehouse;
  workload_norm : Q;
  pool_sequencing_rule : string;
  order_list : list nat;
  orders : list Order;
  tasks : gmap nat TaskState;
  triggered : gset nat;
  next_event : nat;
  events : list LogEvent;
  error_log : list string
}.

(** ** Computations *)

Inductive Result (A : Type) : Type :=
| Ok (a : A) (w : World)
| Raise (e : Exn) (w : World).
Arguments Ok {A} a w.
Arguments Raise {A} e w.

Definition M (A : Type) : Type := World → Result A.

Definition ret {A} (a : A) : M A := λ w, Ok a w.
Definition raise {A} (e : Exn) : M A := λ w, Raise e w.
Definition bind {A B} (c : M A) (k : A → M B) : M B :=
  λ w, match c w with
       | Ok a w' => k a w'
       | Raise e w' => Raise e w'
       end.
Definition gets {A} (f : World → A) : M A := λ w, Ok (f w) w.
Definition modify (f : World → World) : M unit := λ w, Ok tt (f w).

Notation "x <- c ;; k" := (bind c (λ x, k))
  (at level 100, c at next level, right associativity).
Notation "c ;;; k" := (bind c (λ _, k))
  (at level 100, right associativity).

(** [for x in l: body(x)] *)
Definition for_each {A} (l : list A) (body : A → M unit) : M unit :=
  (fix loop (l : list A) : M unit :=
     match l with
     | [] => ret tt
     | x :: l' => body x ;;; loop l'
     end) l.

(** The world after a computation, however it ended. *)
Definition final {A} (r : Result A) : World :=
  match r with Ok _ w => w | Raise _ w => w end.

(** [a / b] *)
Definition truediv (a b : Q) : M Q :=
  if Qeq_bool b 0 then raise ZeroDivisionError else ret (a / b)%Q.

(** [foldM]: a loop that carries a local variable. *)
Definition foldM {A S} (body : S → A → M S) (s : S) (l : list A) : M S :=
  (fix loop (s : S) (l : list A) : M S :=
     match l with
     | [] => ret s
     | x :: l' => s' <- body s x ;; loop s' l'
     end) s l.

(** ** Assignments to attributes *)

Definition set_depth (d : Z) (s : TaskState) : TaskState :=
  {| depth := d; assigned_station := assigned_station s;
     planned_start_time := planned_start_time s |}.
Definition set_assigned_station (a : option nat) (s : TaskState) : TaskState :=
  {| depth := depth s; assigned_station := a;
     planned_start_time := planned_start_time s |}.
Definition set_planned_start_time (p : option Q) (s : TaskState) : TaskState :=
  {| depth := depth s; assigned_station := assigned_station s;
     planned_start_time := p |}.

Definition set_finish_time (x : Q) (o : Order) : Order :=
  {| order_id := order_id o; order_depth := order_depth o;
     arrival_time := arrival_time o; due_date := due_date o;
     priority := priority o; plan_name := plan_name o;
     process_plan := process_plan o; finish_time := x;
     completed_tasks := completed_tasks o; ready_tasks := ready_tasks o;
     load_contributions := load_contributions o |}.
Definition set_completed_tasks (x : list Task) (o : Order) : Order :=
  {| order_id := order_id o; order_depth := order_depth o;
     arrival_time := arrival_time o; due_date := due_date o;
     priority := priority o; plan_name := plan_name o;
     process_plan := process_plan o; finish_time := finish_time o;
     completed_tasks := x; ready_tasks := ready_tasks o;
     load_contributions := load_contributions o |}.
Definition set_ready_tasks (x : list Task) (o : Order) : Order :=
  {| order_id := order_id o; order_depth := order_depth o;
     arrival_time := arrival_time o; due_date := due_date o;
     priority := priority o; plan_name := plan_name o;
     process_plan := process_plan o; finish_time := finish_time o;
     completed_tasks := completed_tasks o; ready_tasks := x;
     load_contributions := load_contributions o |}.
Definition set_load_contributions
    (x : gmap string (gmap string Contribution)) (o : Order) : Order :=
  {| order_id := order_id o; order_depth := order_depth o;
     arrival_time := arrival_time o; due_date := due_date o;
     priority := priority o; plan_name := plan_name o;
     process_plan := process_plan o; finish_time := finish_time o;
     completed_tasks := completed_tasks o; ready_tasks := ready_tasks o;
     load_contributions := x |}.

Definition set_ws_tasks_queue (x : list (nat * Task)) (s : Workstation) : Workstation :=
  {| type_id := type_id s; instance_id := instance_id s; id := id s;
     output_warehouse := output_warehouse s; orControlSystem := orControlSystem s;
     dispatching_rule := dispatching_rule s; ws_tasks_queue := x;
     indirect_load := indirect_load s; idle := idle s; idle_event := idle_event s;
     total_work_time := total_work_time s; last_work_start := last_work_start s |}.
Definition set_indirect_load (x : Q) (s : Workstation) : Workstation :=
  {| type_id := type_id s; instance_id := instance_id s; id := id s;
     output_warehouse := output_warehouse s; orControlSystem := orControlSystem s;
     dispatching_rule := dispatching_rule s; ws_tasks_queue := ws_tasks_queue s;
     indirect_load := x; idle := idle s; idle_event := idle_event s;
     total_work_time := total_work_time s; last_work_start := last_work_start s |}.
Definition set_idle_event (x : nat) (s : Workstation) : Workstation :=
  {| type_id := type_id s; instance_id := instance_id s; id := id s;
     output_warehouse := output_warehouse s; orControlSystem := orControlSystem s;
     dispatching_rule := dispatching_rule s; ws_tasks_queue := ws_tasks_queue s;
     indirect_load := indirect_load s; idle := idle s; idle_event := x;
     total_work_time := total_work_time s; last_work_start := last_work_start s |}.
Definition set_idle (x : bool) (s : Workstation) : Workstation :=
  {| type_id := type_id s; instance_id := instance_id s; id := id s;
     output_warehouse := output_warehouse s; orControlSystem := orControlSystem s;
     dispatching_rule := dispatching_rule s; ws_tasks_queue := ws_tasks_queue s;
     indirect_load := indirect_load s; idle := x; idle_event := idle_event s;
     total_work_time := total_work_time s; last_work_start := last_work_start s |}.
Definition set_total_work_time (x : Q) (s : Workstation) : Workstation :=
  {| type_id := type_id s; instance_id := instance_id s; id := id s;
     output_warehouse := output_warehouse s; orControlSystem := orControlSystem s;
     dispatching_rule := dispatching_rule s; ws_tasks_queue := ws_tasks_queue s;
     indirect_load := indirect_load s; idle := idle s; idle_event := idle_event s;
     total_work_time := x; last_work_start := last_work_start s |}.
Definition set_last_work_start (x : Q) (s : Workstation) : Workstation :=
  {| type_id := type_id s; instance_id := instance_id s; id := id s;
     output_warehouse := output_warehouse s; orControlSystem := orControlSystem s;
     dispatching_rule := dispatching_rule s; ws_tasks_queue := ws_tasks_queue s;
     indirect_load := indirect_load s; idle := idle s; idle_event := idle_event s;
     total_work_time := total_work_time s; last_work_start := x |}.

Definition set_stock (x : list string) (h : Warehouse) : Warehouse :=
  {| wh_id := wh_id h; stock := x |}.

Definition set_station_list (x : list Workstation) (w : World) : World :=
  {| now := now w; app_config := app_config w; station_list := x;
     warehouse_list := warehouse_list w; workload_norm := workload_norm w;
     pool_sequencing_rule := pool_sequencing_rule w; order_list := order_list w;
     orders := orders w; tasks := tasks w; triggered := triggered w;
     next_event := next_event w; events := events w; error_log := error_log w |}.
Definition set_warehouse_list (x : list Warehouse) (w : World) : World :=
  {| now := now w; app_config := app_config w; station_list := station_list w;
     warehouse_list := x; workload_norm := workload_norm w;
     pool_sequencing_rule := pool_sequencing_rule w; order_list := order_list w;
     orders := orders w; tasks := tasks w; triggered := triggered w;
     next_event := next_event w; events := events w; error_log := error_log w |}.
Definition set_order_list (x : list nat) (w : World) : World :=
  {| now := now w; app_config := app_config w; station_list := station_list w;
     warehouse_list := warehouse_list w; workload_norm := workload_norm w;
     pool_sequencing_rule := pool_sequencing_rule w; order_list := x;
     orders := orders w; tasks := tasks w; triggered := triggered w;
     next_event := next_event w; events := events w; error_log := error_log w |}.
Definition set_orders (x : list Order) (w : World) : World :=
  {| now := now w; app_config := app_config w; station_list := station_list w;
     warehouse_list := warehouse_list w; workload_norm := workload_norm w;
     pool_sequencing_rule := pool_sequencing_rule w; order_list := order_list w;
     orders := x; tasks := tasks w; triggered := triggered w;
     next_event := next_event w; events := events w; error_log := error_log w |}.
Definition set_tasks (x : gmap nat TaskState) (w : World) : World :=
  {| now := now w; app_config := app_config w; station_list := station_list w;
     warehouse_list := warehouse_list w; workload_norm := workload_norm w;
     pool_sequencing_rule := pool_sequencing_rule w; order_list := order_list w;
     orders := orders w; tasks := x; triggered := triggered w;
     next_event := next_event w; events := events w; error_log := error_log w |}.
Definition set_triggered (x : gset nat) (w : World) : World :=
  {| now := now w; app_config := app_config w; station_list := station_list w;
     warehouse_list := warehouse_list w; workload_norm := workload_norm w;
     pool_sequencing_rule := pool_sequencing_rule w; order_list := order_list w;
     orders := orders w; tasks := tasks w; triggered := x;
     next_event := next_event w; events := events w; error_log := error_log w |}.
Definition set_next_event (x : nat) (w : World) : World :=
  {| now := now w; app_config := app_config w; station_list := station_list w;
     warehouse_list := warehouse_list w; workload_norm := workload_norm w;
     pool_sequencing_rule := pool_sequencing_rule w; order_list := order_list w;
     orders := orders w; tasks := tasks w; triggered := triggered w;
     next_event := x; events := events w; error_log := error_log w |}.
Definition set_events (x : list LogEvent) (w : World) : World :=
  {| now := now w; app_config := app_config w; station_list := station_list w;
     warehouse_list := warehouse_list w; workload_norm := workload_norm w;
     pool_sequencing_rule := pool_sequencing_rule w; order_list := order_list w;
     orders := orders w; tasks := tasks w; triggered := triggered w;
     next_event := next_event w; events := x; error_log := error_log w |}.
Definition set_error_log (x : list string) (w : World) : World :=
  {| now := now w; app_config := app_config w; station_list := station_list w;
     warehouse_list := warehouse_list w; workload_norm := workload_norm w;
     pool_sequencing_rule := pool_sequencing_rule w; order_list := order_list w;
     orders := orders w; tasks := tasks w; triggered := triggered w;
     next_event := next_event w; events := events w; error_log := x |}.

(** ** The object stores *)

(** The attributes of a task: those assigned so far, else those of the
    constructor. *)
Definition task_state (w : World) (t : Task) : TaskState :=
  default (init_task_state t) (tasks w !! tid t).

Definition get_task (t : Task) : M TaskState := gets (λ w, task_state w t).

Definition set_task (t : Task) (f : TaskState → TaskState) : M unit :=
  modify (λ w, set_tasks (<[tid t := f (task_state w t)]> (tasks w)) w).

Definition get_station (i : nat) : M Workstation :=
  λ w, match station_list w !! i with
       | Some s => Ok s w
       | None => Raise DanglingReference w
       end.

Definition set_station (i : nat) (f : Workstation → Workstation) : M unit :=
  get_station i ;;; modify (λ w, set_station_list (alter f i (station_list w)) w).

Definition get_order (o : nat) : M Order :=
  λ w, match orders w !! o with
       | Some x => Ok x w
       | None => Raise DanglingReference w
       end.

Definition set_order (o : nat) (f : Order → Order) : M unit :=
  get_order o ;;; modify (λ w, set_orders (alter f o (orders w)) w).

(** [x.attr] where [x] is a station or [None]. *)
Definition deref (r : option nat) : M nat :=
  match r with
  | Some i => ret i
  | None => raise (AttributeError "'NoneType' object has no attribute")
  end.

(** [log_manager.log_event(timestamp, station_id, order_id, task_name, event_type)] *)
Definition log_event (ts : Q) (st ord tk ty : string) : M unit :=
  modify (λ w, set_events (events w ++ [mkLogEvent ts st ord tk ty]) w).

(** [log_manager.main_logger.error(msg)] *)
Definition log_error (msg : string) : M unit :=
  modify (λ w, set_error_log (error_log w ++ [msg]) w).

(** [env.event()] *)
Definition new_event : M nat :=
  λ w, Ok (next_event w) (set_next_event (S (next_event w)) w).

(** [event.succeed()] *)
Definition succeed (e : nat) : M unit :=
  λ w, if bool_decide (e ∈ triggered w)
       then Raise (RuntimeError "event has already been triggered") w
       else Ok tt (set_triggered ({[e]} ∪ triggered w) w).

(** [station.indirect_load -= load] with the two tests that follow it, as
    [Workstation.add_task] and [update_childs_indrect_load] both write them:
    [[
      station.indirect_load -= load
      if station.indirect_load < 0 and abs(station.indirect_load) < 1e-10:
          station.indirect_load = 0
      if station.indirect_load < 0:
          raise ValueError(...)
    ]] *)
Definition decrease_indirect_load (a : nat) (ld : Q) (err : Exn) : M unit :=
  set_station a (λ s, set_indirect_load (indirect_load s - ld)%Q s) ;;;
  st <- get_station a ;;
  (if Qltb (indirect_load st) 0 && Qltb (Qabs (indirect_load st)) tolerance
   then set_station a (set_indirect_load 0) else ret tt) ;;;
  st <- get_station a ;;
  if Qltb (indirect_load st) 0 then raise err else ret tt.

(** ** preShopPool.py *)

(** [PreShopPool.add_order] *)
Definition pool_add_order (o : nat) : M unit :=
  modify (λ w, set_order_list (order_list w ++ [o]) w) ;;;
  ord <- get_order o ;;
  t <- gets now ;;
  log_event t "N/A" (order_id ord) "N/A" "Order Arrival".

(** [list.remove(x)] *)
Fixpoint list_remove {A} (eqb : A → A → bool) (x : A) (l : list A) : option (list A) :=
  match l with
  | [] => None
  | y :: l' => if eqb y x then Some l' else cons y <$> list_remove eqb x l'
  end.

(** [PreShopPool.remove_order] *)
Definition pool_remove_order (o : nat) : M unit :=
  l <- gets order_list ;;
  match list_remove Nat.eqb o l with
  | Some l' => modify (set_order_list l')
  | None => raise (ValueError "list.remove(x): x not in list")
  end.

(** Two references to tasks are equal when they are the same object. *)
Definition same_task (a b : Task) : bool := Nat.eqb (tid a) (tid b).

(** [Task.calculate_load] *)
Definition calculate_load (t : Task) : M Q :=
  s <- get_task t ;;
  truediv (process_time t) (inject_Z (depth s)).

(** [flatten] of [Order.create_flat_plan]: the tasks in pre-order. *)
Fixpoint flatten_task (t : Task) : list Task :=
  t :: flat_map flatten_task (next_steps t).

Definition flatten (ts : list Task) : list Task := flat_map flatten_task ts.

Definition create_flat_plan (plan : list Task) : list Task := flatten plan.

Definition flat_plan (o : Order) : list Task := create_flat_plan (process_plan o).

(** [Order.initialize_tasks] *)
Definition initialize_tasks (flat : list Task) : list Task :=
  filter (λ t, parent_task t = None) flat.

(** [Order.__init__] *)
Definition new_order (order_id : string) (depth : Z) (arrival_time due_date : Q)
    (priority : Z) (plan_name : string) (process_plan : list Task) : Order :=
  {| order_id := order_id; order_depth := depth; arrival_time := arrival_time;
     due_date := due_date; priority := priority; plan_name := plan_name;
     process_plan := process_plan; finish_time := 0;
     completed_tasks := [];
     ready_tasks := initialize_tasks (create_flat_plan process_plan);
     load_contributions := ∅ |}.

(** [d[k1][k2] = c], after [if k1 not in d: d[k1] = {}]. *)
Definition lc_insert (k1 k2 : string) (c : Contribution)
    (d : gmap string (gmap string Contribution)) : gmap string (gmap string Contribution) :=
  <[k1 := <[k2 := c]> (default ∅ (d !! k1))]> d.

(** [Order.compute_load_contributions] *)
Definition compute_load_contributions (o : nat) : M unit :=
  ord <- get_order o ;;
  for_each (flat_plan ord) (λ task,
    s <- get_task task ;;
    if (0 <? depth s)%Z then
      ld <- calculate_load task ;;
      a <- deref (assigned_station s) ;;
      st <- get_station a ;;
      set_order o (λ ord,
        set_load_contributions
          (lc_insert (id st) (task_name task) (mkContribution ld (depth s))
             (load_contributions ord)) ord)
    else ret tt).

(** [Order.estimate_load_contribution] *)
Definition estimate_load_contribution (o : nat)
    (station_current_loads : gmap string Q) : M (gmap string Q) :=
  ord <- get_order o ;;
  foldM (λ estimated_loads '(station_id, tks),
           foldM (λ (estimated_loads : gmap string Q) '(_, data),
                    match estimated_loads !! station_id with
                    | Some x => ret (<[station_id := (x + load data)%Q]> estimated_loads)
                    | None => raise (KeyError station_id)
                    end)
                 estimated_loads (map_to_list tks))
        station_current_loads (map_to_list (load_contributions ord)).

(** [next((i for i, ws in enumerate(station_list) if ws.id == station_id), None)] *)
Definition find_station (station_id : string) (l : list Workstation) : option nat :=
  fst <$> list_find (λ ws, id ws = station_id) l.

(** [Order.add_load_contribution] *)
Definition add_load_contribution (o : nat) : M unit :=
  ord <- get_order o ;;
  for_each (map_to_list (load_contributions ord)) (λ '(station_id, tks),
    sl <- gets station_list ;;
    match find_station station_id sl with
    | Some i =>
        for_each (map_to_list tks) (λ '(_, data),
          set_station i (λ s, set_indirect_load (indirect_load s + load data)%Q s))
    | None => ret tt
    end).

(** [update_childs_indrect_load] inside [Order.update_load_contribution] *)
Fixpoint update_childs_indrect_load (task : Task) : M unit :=
  for_each (next_steps task) (λ child_task,
    s <- get_task child_task ;;
    old_indirect_load <- calculate_load child_task ;;
    a <- deref (assigned_station s) ;;
    st <- get_station a ;;
    decrease_indirect_load a old_indirect_load
      (ValueError ("Negative load contribution for task "
                   +:+ task_name child_task +:+ " in station " +:+ id st)) ;;;
    set_task child_task (λ s, set_depth (depth s - 1) s) ;;;
    new_indirect_load <- calculate_load child_task ;;
    set_station a (λ st, set_indirect_load (indirect_load st + new_indirect_load)%Q st) ;;;
    match next_steps child_task with
    | [] => ret tt
    | _ :: _ => update_childs_indrect_load child_task
    end).

(** [Order.update_load_contribution]; the text of the first [ValueError]
    names the task instead of printing it in full. *)
Definition update_load_contribution (o : nat) (completed_task : Task) : M unit :=
  ord <- get_order o ;;
  match List.find (λ t, str_eqb (task_name t) (task_name completed_task)) (flat_plan ord) with
  | None => raise (ValueError ("Task " +:+ task_name completed_task
                               +:+ " not found in order " +:+ order_id ord))
  | Some task =>
      s <- get_task task ;;
      match assigned_station s with
      | None => raise (ValueError ("Task " +:+ task_name task +:+ " has no assigned station"))
      | Some a =>
          set_task task (set_depth (-1)) ;;;
          st <- get_station a ;;
          set_order o (λ ord,
            match load_contributions ord !! id st with
            | Some tks =>
                if bool_decide (is_Some (tks !! task_name completed_task))
                then set_load_contributions
                       (<[id st := <[task_name completed_task := mkContribution 0 (-1)]> tks]>
                          (load_contributions ord)) ord
                else ord
            | None => ord
            end) ;;;
          update_childs_indrect_load task ;;;
          compute_load_contributions o
      end
  end.

(** [Order.total_process_time] *)
Definition total_process_time (o : Order) : Q :=
  py_sum (process_time <$> flat_plan o).

(** [Order.is_finished] *)
Definition is_finished (o : Order) : bool :=
  let all_task_names : gset string := list_to_set (task_name <$> flat_plan o) in
  let completed_task_names : gset string := list_to_set (task_name <$> completed_tasks o) in
  bool_decide (completed_task_names = all_task_names).

(** ** orderReleaseControl.py: planned start times *)

(** [ORControlSystem.calculate_most_time_consuming_branch]: the first case is
    [if not task.next_steps]. *)
Fixpoint calculate_most_time_consuming_branch (task : Task) : Q * Z :=
  match calculate_most_time_consuming_branch <$> next_steps task with
  | [] => (process_time task, 1%Z)
  | r :: child_results =>
      let '(max_child_time, max_child_count) := py_max_by fst r child_results in
      let total_time := (process_time task + max_child_time)%Q in
      let total_tasks := (1 + max_child_count)%Z in
      (total_time, total_tasks)
  end.

(** [ORControlSystem.calculate_planned_start_time] *)
Definition calculate_planned_start_time (o : nat) (task : Task) : M unit :=
  ord <- get_order o ;;
  let '(max_process_time, num_remaining_tasks) :=
    calculate_most_time_consuming_branch task in
  k <- gets (λ w, PLANNED_START_TIME_ALLOWANCE (app_config w)) ;;
  let pst := (due_date ord - max_process_time - k * inject_Z num_remaining_tasks)%Q in
  set_task task (set_planned_start_time (Some pst)).

(** ** workstation.py *)

(** [Workstation.direct_load] *)
Definition direct_load (s : Workstation) : Q :=
  py_sum ((λ e, process_time e.2) <$> ws_tasks_queue s).

(** [Workstation.current_load] *)
Definition current_load (s : Workstation) : Q :=
  (direct_load s + indirect_load s)%Q.

(** [(order, task) == (order', task')] *)
Definition same_entry (a b : nat * Task) : bool :=
  Nat.eqb a.1 b.1 && same_task a.2 b.2.

(** [Workstation.add_task] *)
Definition add_task (self : nat) (o : nat) (task : Task) : M unit :=
  st <- get_station self ;;
  (if orControlSystem st then calculate_planned_start_time o task else ret tt) ;;;
  ld <- calculate_load task ;;
  decrease_indirect_load self ld (ValueError "Station indirect load <0") ;;;
  ord <- get_order o ;;
  match list_remove same_task task (ready_tasks ord) with
  | None => raise (ValueError "list.remove(x): x not in list")
  | Some l => set_order o (set_ready_tasks l)
  end ;;;
  set_station self (λ s, set_ws_tasks_queue (ws_tasks_queue s ++ [(o, task)]) s) ;;;
  t <- gets now ;;
  log_event t (id st) (order_id ord) (task_name task) "Task Added" ;;;
  st <- get_station self ;;
  if idle st then
    succeed (idle_event st) ;;;
    e <- new_event ;;
    set_station self (set_idle_event e)
  else ret tt.

(** [set.add(x)] on a set of task objects. *)
Definition set_add_task (t : Task) (s : list Task) : list Task :=
  if existsb (same_task t) s then s else s ++ [t].

(** [Workstation.mark_task_as_completed] *)
Definition mark_task_as_completed (self : nat) (o : nat) (task : Task) : M unit :=
  set_order o (λ ord, set_completed_tasks (set_add_task task (completed_tasks ord)) ord) ;;;
  for_each (next_steps task) (λ child_task,
    set_order o (λ ord, set_ready_tasks (ready_tasks ord ++ [child_task]) ord)) ;;;
  ord <- get_order o ;;
  if is_finished ord then
    t <- gets now ;;
    set_order o (set_finish_time t) ;;;
    log_event t "N/A" (order_id ord) "N/A" "Order Finished"
  else ret tt.

(** [ORControlSystem.update_stations_loads] *)
Definition update_stations_loads (o : nat) (completed_task : Task) : M unit :=
  update_load_contribution o completed_task.

(** [Workstation.remove_task] *)
Definition remove_task (self : nat) (o : nat) (task : Task) : M unit :=
  st <- get_station self ;;
  if existsb (same_entry (o, task)) (ws_tasks_queue st) then
    mark_task_as_completed self o task ;;;
    st <- get_station self ;;
    match list_remove same_entry (o, task) (ws_tasks_queue st) with
    | Some q => set_station self (set_ws_tasks_queue q)
    | None => raise (ValueError "list.remove(x): x not in list")
    end ;;;
    (if orControlSystem st then update_stations_loads o task
     else raise (AttributeError "'NoneType' object has no attribute 'update_stations_loads'"))
  else
    ord <- get_order o ;;
    log_error ("Task " +:+ task_name task +:+ " of Order " +:+ order_id ord
               +:+ " is not in the task queue of workstation " +:+ id st +:+ "!").

(** [mapM]: a list comprehension whose elements are computed in turn. *)
Definition mapM {A B} (f : A → M B) (l : list A) : M (list B) :=
  (fix loop (l : list A) : M (list B) :=
     match l with
     | [] => ret []
     | x :: l' => y <- f x ;; ys <- loop l' ;; ret (y :: ys)
     end) l.

(** [Workstation.sort_tasks].  The keys are computed first, then the queue is
    sorted.  Under PST an entry whose [planned_start_time] is still [None]
    cannot be compared with one whose time is set ([TypeError]); the model
    raises as soon as both kinds are in the queue, and sorts by priority alone
    when no entry has a time. *)
Definition sort_tasks (self : nat) : M unit :=
  st <- get_station self ;;
  let rule := dispatching_rule st in
  if str_eqb rule "FCFS" then
    keyed <- mapM (λ e, ord <- get_order e.1 ;; ret (priority ord, e)) (ws_tasks_queue st) ;;
    set_station self (set_ws_tasks_queue (snd <$> py_sort Z.ltb fst keyed))
  else if str_eqb rule "SPT" then
    keyed <- mapM (λ e, ord <- get_order e.1 ;;
                        ret ((priority ord, process_time e.2), e)) (ws_tasks_queue st) ;;
    set_station self (set_ws_tasks_queue (snd <$> py_sort key_lt fst keyed))
  else if str_eqb rule "PST" then
    keyed <- mapM (λ e, ord <- get_order e.1 ;; s <- get_task e.2 ;;
                        ret ((priority ord, planned_start_time s), e)) (ws_tasks_queue st) ;;
    if forallb (λ k, bool_decide (k.1.2 = None)) keyed then
      set_station self (set_ws_tasks_queue (snd <$> py_sort Z.ltb (λ k, k.1.1) keyed))
    else if forallb (λ k, bool_decide (is_Some k.1.2)) keyed then
      set_station self
        (set_ws_tasks_queue
           (snd <$> py_sort key_lt (λ k, (k.1.1, default 0%Q k.1.2)) keyed))
    else raise (TypeError "'<' not supported between instances of 'NoneType' and 'float'")
  else
    log_error "Invalid dispatching rule, please choose from FCFS, SPT, PST".

(** ** orderReleaseControl.py: the release controller *)

(** [ORControlSystem.select_station] *)
Definition select_station (workstations : list (nat * Workstation)) : M nat :=
  match workstations with
  | [] => raise (ValueError "min() arg is an empty sequence")
  | ws :: rest => ret (py_min_by (λ c, current_load c.2) ws rest).1
  end.

(** [ORControlSystem.sort_orders] *)
Definition sort_orders : M unit :=
  ol <- gets order_list ;;
  rule <- gets pool_sequencing_rule ;;
  match ol with
  | [] => ret tt
  | _ :: _ =>
      if str_eqb rule "FCFS" then
        keyed <- mapM (λ o, ord <- get_order o ;;
                            ret ((priority ord, arrival_time ord), o)) ol ;;
        modify (set_order_list (snd <$> py_sort key_lt fst keyed))
      else if str_eqb rule "EDD" then
        keyed <- mapM (λ o, ord <- get_order o ;;
                            ret ((priority ord, due_date ord), o)) ol ;;
        modify (set_order_list (snd <$> py_sort key_lt fst keyed))
      else if str_eqb rule "CR" then
        keyed <- mapM (λ o, ord <- get_order o ;;
                            t <- gets now ;;
                            cr <- truediv (due_date ord - t)%Q (total_process_time ord) ;;
                            ret ((priority ord, cr), o)) ol ;;
        modify (set_order_list (snd <$> py_sort key_lt fst keyed))
      else
        log_error "Invalid pool sequencing rule, please choose from FCFS, EDD, CR"
  end.

(** [ORControlSystem.get_next_ready_tasks] *)
Definition get_next_ready_tasks (ord : Order) : list Task :=
  match ready_tasks ord with
  | [] => []
  | _ :: _ => ready_tasks ord
  end.

(** The body of the loop of [ORControlSystem.set_detailed_routing]: the
    assignment of a workstation to one task. *)
Definition route_task (triggered_station : option nat) (task : Task) : M unit :=
  let st_type_id := station task in
  forced <- match triggered_station with
            | Some i => ts <- get_station i ;; ret (str_eqb (station task) (type_id ts))
            | None => ret false
            end ;;
  if forced then set_task task (set_assigned_station triggered_station)
  else
    sl <- gets station_list ;;
    let suitable_stations :=
      filter (λ c, startswith (id c.2) st_type_id = true) (imap pair sl) in
    ws <- select_station suitable_stations ;;
    set_task task (set_assigned_station (Some ws)).

(** [ORControlSystem.set_detailed_routing] *)
Definition set_detailed_routing (o : nat) (triggered_station : option nat) : M unit :=
  ord <- get_order o ;;
  for_each (flat_plan ord) (route_task triggered_station) ;;;
  compute_load_contributions o.

(** [ORControlSystem.can_release_order] *)
Definition can_release_order (o : nat) : M (bool * list (string * Q)) :=
  norm_load <- gets workload_norm ;;
  sl <- gets station_list ;;
  let station_loads : gmap string Q :=
    foldl (λ m ws, <[id ws := current_load ws]> m) ∅ sl in
  estimated_loads <- estimate_load_contribution o station_loads ;;
  overloaded_stations <-
    foldM (λ acc ws,
             match estimated_loads !! id ws, station_loads !! id ws with
             | Some e, Some l =>
                 ret (if Qltb norm_load e then acc ++ [(id ws, l)] else acc)
             | _, _ => raise (KeyError (id ws))
             end) [] sl ;;
  match overloaded_stations with
  | [] => ret (true, [])
  | _ :: _ => ret (false, overloaded_stations)
  end.

(** [ORControlSystem.release_order] *)
Definition release_order (o : nat) : M unit :=
  add_load_contribution o ;;;
  ord <- get_order o ;;
  let ready_tasks := get_next_ready_tasks ord in
  for_each ready_tasks (λ task,
    s <- get_task task ;;
    match assigned_station s with
    | Some assigned_station => add_task assigned_station o task
    | None => raise (AttributeError "'NoneType' object has no attribute 'id'")
    end).

(** The scan of the pool in [continuous_release]: the release of the first
    order with a ready task of the station's type, and [return]. *)
Fixpoint release_first_match (stn : nat) (l : list nat) : M unit :=
  match l with
  | [] => ret tt
  | o :: l' =>
      ord <- get_order o ;;
      st <- get_station stn ;;
      match List.find (λ next_task, str_eqb (station next_task) (type_id st))
                      (get_next_ready_tasks ord) with
      | Some next_task =>
          t <- gets now ;;
          log_event t (id st) (order_id ord) (task_name next_task) "Order Released" ;;;
          set_detailed_routing o (Some stn) ;;;
          release_order o ;;;
          pool_remove_order o ;;;
          st <- get_station stn ;;
          succeed (idle_event st)
      | None => release_first_match stn l'
      end
  end.

(** [ORControlSystem.continuous_release] *)
Definition continuous_release (stn : nat) : M unit :=
  ol <- gets order_list ;;
  match ol with
  | [] => ret tt
  | _ :: _ =>
      sort_orders ;;;
      ol <- gets order_list ;;
      release_first_match stn ol
  end.

(** [ORControlSystem.check_and_release_idle_stations] *)
Definition check_and_release_idle_stations : M unit :=
  sl <- gets station_list ;;
  for_each (seq 0 (length sl)) (λ i,
    st <- get_station i ;;
    tr <- gets triggered ;;
    if idle st && negb (bool_decide (idle_event st ∈ tr))
    then continuous_release i else ret tt).

(** [ORControlSystem.add_order] *)
Definition add_order (o : nat) : M unit :=
  pool_add_order o ;;;
  check_and_release_idle_stations.

(** One round of [ORControlSystem.periodic_release]: the body of the loop
    after [yield self.env.timeout(roud_time)]. *)
Definition periodic_release_round : M unit :=
  ol <- gets order_list ;;
  match ol with
  | [] => ret tt
  | _ :: _ =>
      sort_orders ;;;
      snapshot <- gets order_list ;;
      for_each snapshot (λ o,
        set_detailed_routing o None ;;;
        r <- can_release_order o ;;
        ord <- get_order o ;;
        t <- gets now ;;
        if r.1 then
          log_event t "N/A" (order_id ord) "N/A" "Order Released" ;;;
          release_order o ;;;
          pool_remove_order o
        else
          log_event t "N/A" (order_id ord) "N/A" "Order Release Rejected")
  end.

(** What a coroutine does when it stops running: it has finished, or it waits
    for a timeout, for an event, or for the end of the processing of a task. *)
Inductive Suspended : Type :=
| Finished
| Timeout (delay : Q)
| WaitEvent (e : nat)
| WaitProcess (o : nat) (task : Task).

(** [Workstation.process_task], up to [yield self.env.timeout(process_time)].
    A station runs one [process_task] at a time, so the request for its
    resource is granted at once. *)
Definition process_task_start (self : nat) (o : nat) (task : Task) : M Suspended :=
  st <- get_station self ;;
  ord <- get_order o ;;
  s <- get_task task ;;
  a <- deref (assigned_station s) ;;
  required_ws <- get_station a ;;
  let required_ws_id := id required_ws in
  if negb (str_eqb required_ws_id (id st)) then
    log_error ("Task " +:+ task_name task +:+ " of Order " +:+ order_id ord
               +:+ " not assigned to the correct workstation.") ;;;
    ret Finished
  else
    t <- gets now ;;
    set_station self (set_last_work_start t) ;;;
    log_event t (id st) (order_id ord) (task_name task) "Task Start" ;;;
    ret (Timeout (process_time task)).

(** [Workstation.process_task], from the return of the timeout to the end. *)
Definition process_task_resume (self : nat) (o : nat) (task : Task) : M unit :=
  st <- get_station self ;;
  ord <- get_order o ;;
  set_station self (λ s, set_total_work_time (total_work_time s + process_time task)%Q s) ;;;
  t <- gets now ;;
  log_event t (id st) (order_id ord) (task_name task) "Task Complete" ;;;
  match produced_component task with
  | Some c =>
      if str_eqb c "" then ret tt
      else
        whs <- gets warehouse_list ;;
        match list_find (λ wh, wh_id wh = output_warehouse st) whs with
        | Some (i, _) =>
            modify (λ w, set_warehouse_list
                           (alter (λ h, set_stock (stock h ++ [c]) h) i (warehouse_list w)) w)
        | None => raise (AttributeError "'NoneType' object has no attribute 'add_item'")
        end
  | None => ret tt
  end ;;;
  remove_task self o task ;;;
  ord <- get_order o ;;
  let next_tasks := get_next_ready_tasks ord in
  for_each next_tasks (λ next_task,
    s <- get_task next_task ;;
    match assigned_station s with
    | Some child_station => add_task child_station o next_task
    | None => raise (AttributeError "'NoneType' object has no attribute 'id'")
    end).

(** One turn of the loop of [Workstation.start_processing], up to its
    [yield]: with an empty queue the station turns idle, reports to the
    controller and waits for its idle event; otherwise it sorts its queue and
    waits for the processing of the first task. *)
Definition start_processing_turn (self : nat) : M Suspended :=
  st <- get_station self ;;
  match ws_tasks_queue st with
  | [] =>
      t <- gets now ;;
      log_event t (id st) "N/A" "N/A" "Idle Start" ;;;
      set_station self (set_idle true) ;;;
      continuous_release self ;;;
      st <- get_station self ;;
      ret (WaitEvent (idle_event st))
  | _ :: _ =>
      set_station self (set_idle false) ;;;
      sort_tasks self ;;;
      st <- get_station self ;;
      match ws_tasks_queue st with
      | (o, task) :: _ => ret (WaitProcess o task)
      | [] => raise (IndexError "list index out of range")
      end
  end.

(** [Workstation.start_processing] after [yield self.idle_event]. *)
Definition start_processing_wake (self : nat) : M unit :=
  e <- new_event ;;
  set_station self (set_idle_event e) ;;;
  st <- get_station self ;;
  t <- gets now ;;
  log_event t (id st) "N/A" "N/A" "Idle End".

(** ** Construction of a shop *)

(** [Workstation.__init__]; [idle_event] is the event made by [env.event()]. *)
Definition new_workstation (type_id instance_id : string) (idle_event : nat) : Workstation :=
  {| type_id := type_id; instance_id := instance_id;
     id := type_id +:+ "-" +:+ instance_id;
     output_warehouse := "output-warehouse";
     orControlSystem := false;
     dispatching_rule := "FCFS";
     ws_tasks_queue := [];
     indirect_load := 0;
     idle := true;
     idle_event := idle_event;
     total_work_time := 0;
     last_work_start := 0 |}.

(** [ws.orControlSystem = ...; ws.dispatching_rule = ...] of the runner. *)
Definition attach (rule : string) (s : Workstation) : Workstation :=
  {| type_id := type_id s; instance_id := instance_id s; id := id s;
     output_warehouse := output_warehouse s; orControlSystem := true;
     dispatching_rule := rule; ws_tasks_queue := ws_tasks_queue s;
     indirect_load := indirect_load s; idle := idle s; idle_event := idle_event s;
     total_work_time := total_work_time s; last_work_start := last_work_start s |}.

(** The stations of [names], each with its own event, attached to the
    controller. *)
Definition new_stations (dispatch : string) (names : list (string * string)) : list Workstation :=
  imap (λ i n, attach dispatch (new_workstation n.1 n.2 i)) names.

(** A shop at time [0] with an empty pool. *)
Definition new_world (norm : Q) (pool_rule dispatch : string)
    (names : list (string * string)) (os : list Order) : World :=
  {| now := 0; app_config := app_config_default;
     station_list := new_stations dispatch names;
     warehouse_list := [mkWarehouse "output-warehouse" []];
     workload_norm := norm; pool_sequencing_rule := pool_rule;
     order_list := []; orders := os; tasks := ∅; triggered := ∅;
     next_event := length names; events := []; error_log := [] |}.

(** [env.now = t] *)
Definition set_now (t : Q) (w : World) : World :=
  {| now := t; app_config := app_config w; station_list := station_list w;
     warehouse_list := warehouse_list w; workload_norm := workload_norm w;
     pool_sequencing_rule := pool_sequencing_rule w; order_list := order_list w;
     orders := orders w; tasks := tasks w; triggered := triggered w;
     next_event := next_event w; events := events w; error_log := error_log w |}.

(** The plans and the shop of [test.py]. *)
Module Fixture.
Definition t5 : Task := mkTask 4 "T5" 4 None 25 "E" [] (Some "T4") 4.
Definition t4 : Task := mkTask 3 "T4" 3 None 20 "D" [t5] (Some "T2") 3.
Definition t3 : Task := mkTask 2 "T3" 2 None 15 "C" [] (Some "T1") 2.
Definition t2 : Task := mkTask 1 "T2" 2 None 10 "B" [t4] (Some "T1") 2.
Definition t1 : Task := mkTask 0 "T1" 3 None 30 "A" [t2; t3] None 1.
Definition plan1 : list Task := [t1].

Definition u5 : Task := mkTask 14 "T5" 4 None 25 "E" [] (Some "T2") 4.
Definition u3 : Task := mkTask 13 "T3" 3 None 15 "C" [] (Some "T1") 3.
Definition u2 : Task := mkTask 12 "T2" 3 None 10 "B" [u5] (Some "T1") 3.
Definition u1 : Task := mkTask 11 "T1" 2 None 30 "A" [u2; u3] (Some "T4") 2.
Definition u4 : Task := mkTask 10 "T4" 2 None 20 "D" [u1] None 1.
Definition plan2 : list Task := [u4].

Definition o1 : Order := new_order "O-1" 4 1 15 2 "Plan1" plan1.
Definition o2 : Order := new_order "O-2" 4 1 25 2 "Plan2" plan2.

Definition names : list (string * string) :=
  [("A", "1"); ("B", "1"); ("C", "1"); ("D", "1"); ("E", "1")].

Definition shop : World := new_world 6 "EDD" "SPT" names [o1; o2].
End Fixture.

(** ** warehouse.py *)

(** [Warehouse.add_item] *)
Definition add_item (produced_component : string) (h : Warehouse) : Warehouse :=
  set_stock (stock h ++ [produced_component]) h.

(** ** preShopPool.py: the figures of an order *)

(** [Order.total_revenue]: the revenue of the tasks of the plan that are
    among the completed tasks. *)
Definition total_revenue (o : Order) : Q :=
  py_sum (revenue <$> List.filter (λ task, existsb (same_task task) (completed_tasks o))
                                   (flat_plan o)).

(** [Order.is_overdue]: [None] as long as the order is not finished. *)
Definition is_overdue (o : Order) : option bool :=
  if is_finished o then Some (Qltb (due_date o) (finish_time o)) else None.

(** ** appConfig.py: the generation of orders *)

(** [round(x, ndigits)]: to the nearest multiple of [10 ** -ndigits], a tie
    going to the even one. *)
Definition py_round (x : Q) (ndigits : nat) : Q :=
  let scale := inject_Z (10 ^ Z.of_nat ndigits) in
  let y := (x * scale)%Q in
  let f := Qfloor y in
  let r := (y - inject_Z f)%Q in
  let n := if Qltb r (1 # 2) then f
           else if Qltb (1 # 2) r then (f + 1)%Z
           else if Z.even f then f else (f + 1)%Z in
  (inject_Z n / scale)%Q.

(** A task of a disassembly process plan, as read from JSON:
    [{"task": ..., "time_min": ..., "time_max": ..., "produced_component": ...,
      "revenue": ..., "next_steps": [...]}]; [next_steps] may be missing, which
    reads as the empty list. *)
Inductive TaskData : Type := mkTaskData {
  td_task : string;
  td_time_min : Q;
  td_time_max : Q;
  td_produced_component : option string;
  td_revenue : Q;
  td_next_steps : list TaskData
}.

(** A disassembly process plan:
    [{"process_plan": ..., "disassembly_flow": [...]}]. *)
Record Dpp : Type := mkDpp {
  dpp_process_plan : string;
  dpp_disassembly_flow : list TaskData
}.

(** [np.random]: each draw takes the state of the generator and returns the
    value drawn with the next state. *)
Class NumpyRandom (G : Type) : Type := {
  random_gamma : Q → Q → G → Q * G;
  random_randint : Z → Z → G → Z * G;
  random_uniform : Q → Q → G → Q * G;
  random_choice_bool : G → bool * G;
  random_choice : list Z → list Q → G → Z * G;
  random_exponential : Q → G → Q * G
}.

(** What the generation of tasks goes through: the random generator, and the
    identity that the next [Task] object will have. *)
Record GenState (G : Type) : Type := mkGenState {
  rng : G;
  fresh : nat
}.
Arguments mkGenState {G} rng fresh.
Arguments rng {G} g.
Arguments fresh {G} g.

(** [class OrderGenerator] *)
Record OrderGenerator : Type := mkOrderGenerator {
  dpp_plan1 : Dpp;
  dpp_plan2 : Dpp;
  total_orders : nat;
  inter_arrival_time_mean : Q;
  order_max_depth : Z;
  due_date_range : Q * Q;
  task_to_station : gmap string string
}.

(** [for x in l: y = f(x); if y: acc.append(y)], through the state. *)
Definition collect {A B S} (f : A → S → option B * S) (l : list A) (s : S) : list B * S :=
  (fix loop (l : list A) (s : S) : list B * S :=
     match l with
     | [] => ([], s)
     | x :: l' =>
         let '(y, s1) := f x s in
         let '(ys, s2) := loop l' s1 in
         (match y with Some b => b :: ys | None => ys end, s2)
     end) l s.

Section Generator.
Context {G : Type} `{!NumpyRandom G}.

(** [OrderGenerator.generate_erlang_process_time] *)
Definition generate_erlang_process_time (min_time max_time : Q) (shape scale : Q)
    (g : G) : Q * G :=
  let '(erlang_random, g') := random_gamma shape scale g in
  let scaled_time := (min_time + (max_time - min_time) * (erlang_random / (shape * scale)))%Q in
  (scaled_time, g').

(** [OrderGenerator.traverse_and_generate] *)
Fixpoint traverse_and_generate (self : OrderGenerator) (task_data : TaskData)
    (current_depth max_depth : Z) (parent_task : option string) (s : GenState G)
    : option Task * GenState G :=
  if (max_depth <? current_depth)%Z then (None, s)
  else
    let '(process_time, g') :=
      generate_erlang_process_time (td_time_min task_data) (td_time_max task_data) 2 1 (rng s) in
    let task_id := fresh s in
    let '(next_steps, s') :=
      collect (λ next_task_data,
                 traverse_and_generate self next_task_data (current_depth + 1) max_depth
                   (Some (td_task task_data)))
              (td_next_steps task_data) (mkGenState g' (S task_id)) in
    (Some (mkTask task_id (td_task task_data) (py_round process_time 2)
             (td_produced_component task_data) (td_revenue task_data)
             (default "Unknown" (task_to_station self !! td_task task_data))
             next_steps parent_task current_depth),
     s').

(** [for x in l: acc.append(f(x))], through the state. *)
Definition collect_all {A B S} (f : A → S → B * S) (l : list A) (s : S) : list B * S :=
  (fix loop (l : list A) (s : S) : list B * S :=
     match l with
     | [] => ([], s)
     | x :: l' =>
         let '(y, s1) := f x s in
         let '(ys, s2) := loop l' s1 in
         (y :: ys, s2)
     end) l s.

(** [Order(...)] for a plan whose entries may be [None]: [create_flat_plan]
    reads [task.next_steps] of each entry. *)
Fixpoint checked_plan (plan : list (option Task)) : Exn + list Task :=
  match plan with
  | [] => inr []
  | None :: _ => inl (AttributeError "'NoneType' object has no attribute 'next_steps'")
  | Some task :: plan' =>
      match checked_plan plan' with
      | inr tasks => inr (task :: tasks)
      | inl e => inl e
      end
  end.

(** [OrderGenerator.generate_dpp_order] *)
Definition generate_dpp_order (self : OrderGenerator) (order_index : nat) (dpp : Dpp)
    (arrival_time : Q) (s : GenState G) : (Exn + Order) * GenState G :=
  let '(order_depth, g1) := random_randint 1 (order_max_depth self + 1) (rng s) in
  let '(u, g2) := random_uniform (due_date_range self).1 (due_date_range self).2 g1 in
  let due_date := (arrival_time + u)%Q in
  let '(priority, g3) := random_choice [0; 1; 2]%Z [1 # 10; 2 # 10; 7 # 10]%Q g2 in
  let order_id := "O-" +:+ pretty (order_index + 1)%nat in
  let plan_name := dpp_process_plan dpp in
  let '(process_plan, s') :=
    collect_all (λ root_task_data,
                   traverse_and_generate self root_task_data 1 order_depth None)
                (dpp_disassembly_flow dpp) (mkGenState g3 (fresh s)) in
  (match checked_plan process_plan with
   | inr plan => inr (new_order order_id order_depth arrival_time due_date priority
                        plan_name plan)
   | inl e => inl e
   end, s').
(** The loop of [OrderGenerator.generate_orders] from the order of index
    [i] on, when [n] orders are still to come. *)
Fixpoint generate_orders_from (self : OrderGenerator) (n i : nat) (arrival_time : Q)
    (s : GenState G) : (Exn + list Order) * GenState G :=
  match n with
  | O => (inr [], s)
  | S n' =>
      let '(choice, g1) := random_choice_bool (rng s) in
      let dpp_plan := if choice then dpp_plan1 self else dpp_plan2 self in
      let '(r, s1) :=
        generate_dpp_order self i dpp_plan arrival_time (mkGenState g1 (fresh s)) in
      match r with
      | inl e => (inl e, s1)
      | inr order =>
          let '(x, g2) := random_exponential (inter_arrival_time_mean self) (rng s1) in
          let '(rest, s2) :=
            generate_orders_from self n' (S i) (arrival_time + x)%Q
              (mkGenState g2 (fresh s1)) in
          (match rest with
           | inr orders => inr (order :: orders)
           | inl e => inl e
           end, s2)
      end
  end.

(** [OrderGenerator.generate_orders] *)
Definition generate_orders (self : OrderGenerator) (s : GenState G)
    : (Exn + list Order) * GenState G :=
  generate_orders_from self (total_orders self) 0 0 s.
End Generator.

(** ** Vocabulary of the properties *)

(** The root-to-leaf branches of the subtree of a task, leftmost first. *)
Fixpoint branches (t : Task) : list (list Task) :=
  match next_steps t with
  | [] => [[t]]
  | _ :: _ => cons t <$> flat_map branches (next_steps t)
  end.

(** The sum of [process_time] along a branch. *)
Definition branch_time (b : list Task) : Q :=
  foldr (λ t acc, process_time t + acc)%Q 0%Q b.

(** The secondary key of an order under a pool sequencing rule, at time [t]. *)
Definition secondary_key (rule : string) (t : Q) (ord : Order) : Q :=
  if str_eqb rule "FCFS" then arrival_time ord
  else if str_eqb rule "EDD" then due_date ord
  else ((due_date ord - t) / total_process_time ord)%Q.

(** [a] may stand before [b]: its priority is smaller, or the priorities are
    equal and its secondary key is not larger. *)
Definition before_by (key : Order → Q) (a b : Order) : Prop :=
  (priority a < priority b)%Z ∨ (priority a = priority b ∧ (key a <= key b)%Q).

(** A list of orders of the store is sorted: each order may stand before all
    those that follow it. *)
Definition pool_sorted (w : World) (key : Order → Q) (l : list nat) : Prop :=
  StronglySorted
    (λ i j, ∃ a b, orders w !! i = Some a ∧ orders w !! j = Some b ∧ before_by key a b) l.

(** The pair [(order, task)] is in the queue of a station. *)
Definition queued (st : Workstation) (o : nat) (task : Task) : Prop :=
  ∃ t', (o, t') ∈ ws_tasks_queue st ∧ tid t' = tid task.

(** The world in which station [a] carries the indirect load [x]. *)
Definition with_indirect_load (a : nat) (x : Q) (w : World) : World :=
  set_station_list (alter (set_indirect_load x) a (station_list w)) w.

(** Every task of the plan of an order is among its completed tasks. *)
Definition all_completed (ord : Order) : Prop :=
  ∀ t, t ∈ flat_plan ord → t ∈ completed_tasks ord.

(** What completion is about in an order: its plan, its finish time and its
    completed tasks. *)
Definition completion_view (ord : Order) : string * list Task * Q * list Task :=
  (order_id ord, process_plan ord, finish_time ord, completed_tasks ord).

(** The clock and the completion of every order are as they were, and the
    event log has only grown. *)
Definition same_completion (w w' : World) : Prop :=
  now w' = now w ∧
  events w `prefix_of` events w' ∧
  completion_view <$> orders w' = completion_view <$> orders w.

(** The worlds in which order [o] can be observed: it starts with no task
    completed and no finish time; its tasks are marked completed at moments
    when the clock is past zero; whatever else happens leaves its completion
    alone. *)
Inductive observed (o : nat) : World → Prop :=
| observed_new w ord :
    orders w !! o = Some ord →
    finish_time ord = 0%Q → completed_tasks ord = [] →
    observed o w
| observed_completion w ord self task :
    observed o w →
    orders w !! o = Some ord → task ∈ flat_plan ord → (0 < now w)%Q →
    observed o (final (mark_task_as_completed self o task w))
| observed_other w w' :
    observed o w →
    completion_view <$> orders w' !! o = completion_view <$> orders w !! o →
    observed o w'.

(** The clock is as it was and the event log has only grown. *)
Definition log_grows (w w' : World) : Prop :=
  now w' = now w ∧ events w `prefix_of` events w'.

(** The sum of the loads recorded in one inner dictionary. *)
Definition contributions_sum (tks : gmap string Contribution) : Q :=
  foldr (λ kv acc, load kv.2 + acc)%Q 0%Q (map_to_list tks).

(** The sum of the load contributions that an order records for a station. *)
Definition order_load (ord : Order) (station_id : string) : Q :=
  contributions_sum (default ∅ (load_contributions ord !! station_id)).

(** The load of a station after the release of the order, as estimated. *)
Definition estimated_load (ord : Order) (s : Workstation) : Q :=
  (current_load s + order_load ord (id s))%Q.

(** What one task adds to a mapping of load contributions: for a task of
    depth above zero with a station, the entry
    [m[station.id][task_name] = {load: process_time / depth, depth: depth}]. *)
Definition contribution_of (w : World) (m : gmap string (gmap string Contribution))
    (t : Task) : gmap string (gmap string Contribution) :=
  let s := task_state w t in
  if (0 <? depth s)%Z then
    match assigned_station s ≫= λ a, station_list w !! a with
    | Some st =>
        lc_insert (id st) (task_name t)
          (mkContribution (process_time t / inject_Z (depth s)) (depth s)) m
    | None => m
    end
  else m.

(** The mapping rebuilt from scratch over the plan of an order. *)
Definition rebuilt_contributions (w : World) (ord : Order) :
    gmap string (gmap string Contribution) :=
  foldl (contribution_of w) ∅ (flat_plan ord).

(** The first order of a list that has a ready task of a station type,
    with the first such task. *)
Fixpoint first_match (w : World) (ty : string) (l : list nat) : option (nat * Task) :=
  match l with
  | [] => None
  | o :: l' =>
      match orders w !! o ≫= λ ord, List.find (λ t, str_eqb (station t) ty) (ready_tasks ord) with
      | Some next_task => Some (o, next_task)
      | None => first_match w ty l'
      end
  end.

(** The release of order [o] to the idle station [stn]: what
    [continuous_release] does once it has found the order and its ready task
    [next_task]. *)
Definition release_matched (stn o : nat) (next_task : Task) : M unit :=
  ord <- get_order o ;;
  st <- get_station stn ;;
  t <- gets now ;;
  log_event t (id st) (order_id ord) (task_name next_task) "Order Released" ;;;
  set_detailed_routing o (Some stn) ;;;
  release_order o ;;;
  pool_remove_order o ;;;
  st <- get_station stn ;;
  succeed (idle_event st).

(** The world with another workload norm. *)
Definition with_norm (n : Q) (w : World) : World :=
  {| now := now w; app_config := app_config w; station_list := station_list w;
     warehouse_list := warehouse_list w; workload_norm := n;
     pool_sequencing_rule := pool_sequencing_rule w; order_list := order_list w;
     orders := orders w; tasks := tasks w; triggered := triggered w;
     next_event := next_event w; events := events w; error_log := error_log w |}.

(** The result of a computation, in the world with another workload norm. *)
Definition result_with_norm {A} (n : Q) (r : Result A) : Result A :=
  match r with
  | Ok a w => Ok a (with_norm n w)
  | Raise e w => Raise e (with_norm n w)
  end.

(** The pool and the stations assigned to the tasks are as they were. *)
Definition routing_kept (w w' : World) : Prop :=
  order_list w' = order_list w ∧
  ∀ t, assigned_station (task_state w' t) = assigned_station (task_state w t).

(** Everything but the pool and the error log is as it was. *)
Definition shop_kept (w w' : World) : Prop :=
  now w' = now w ∧ station_list w' = station_list w ∧ orders w' = orders w ∧
  tasks w' = tasks w ∧ triggered w' = triggered w ∧ events w' = events w.

(** In a list sorted on [key] with [lt], [a] may stand before [b]: [b] is not
    smaller. *)
Definition not_after {A K} (lt : K → K → bool) (key : A → K) (a b : A) : Prop :=
  lt (key b) (key a) = false.

(** The order after [mark_task_as_completed], before the test of
    [is_finished]. *)
Definition marked (task : Task) (ord : Order) : Order :=
  set_ready_tasks (ready_tasks ord ++ next_steps task)
    (set_completed_tasks (set_add_task task (completed_tasks ord)) ord).

(** The contribution of a list of dictionaries to a station. *)
Definition list_contribution (L : list (string * gmap string Contribution)) (k : string) : Q :=
  foldr (λ e acc, if bool_decide (e.1 = k) then contributions_sum e.2 + acc else acc)%Q 0%Q L.

(** [preserves R c]: whatever the world, and however [c] ends, the world it
    leaves is related by [R] to the one it started in. *)
Definition preserves {A} (R : relation World) (c : M A) : Prop :=
  ∀ w, R w (final (c w)).

(** A change of an order that touches [ready_tasks] and [load_contributions]
    only. *)
Definition bookkeeping (f : Order → Order) : Prop :=
  ∀ ord, ∃ r lc, f ord = set_load_contributions lc (set_ready_tasks r ord).

(** A change of a task that keeps its station. *)
Definition keeps_station (f : TaskState → TaskState) : Prop :=
  ∀ s, assigned_station (f s) = assigned_station s.

Class Steady (R : relation World) : Prop := {
  steady_preorder :: PreOrder R;
  steady_station_list w l : R w (set_station_list l w);
  steady_warehouse_list w l : R w (set_warehouse_list l w);
  steady_events w l : R w (set_events (events w ++ l) w);
  steady_error_log w l : R w (set_error_log l w);
  steady_triggered w x : R w (set_triggered x w);
  steady_next_event w x : R w (set_next_event x w);
  steady_tasks w t f :
    keeps_station f → R w (set_tasks (<[tid t := f (task_state w t)]> (tasks w)) w);
  steady_orders w o f :
    bookkeeping f → R w (set_orders (alter f o (orders w)) w)
}.

(** [oblivious c]: run in a world with another workload norm, [c] ends the
    same way, with the same value or exception, in the same world but for the
    norm. *)
Definition oblivious {A} (c : M A) : Prop :=
  ∀ n w, c (with_norm n w) = result_with_norm n (c w).

(** The key on which the queue of a station is sorted under a dispatching
    rule: the priority of the order, then nothing (FCFS), the process time of
    the task (SPT) or its planned start time (PST). *)
Definition dispatch_key (rule : string) (w : World) (e : nat * Task) : Z * Q :=
  (default 0%Z (priority <$> orders w !! e.1),
   if str_eqb rule "SPT" then process_time e.2
   else if str_eqb rule "PST" then default 0%Q (planned_start_time (task_state w e.2))
   else 0%Q).

(** The key on which the pool is sorted under the pool sequencing rule. *)
Definition pool_key (w : World) (o : nat) : Z * Q :=
  (default 0%Z (priority <$> orders w !! o),
   default 0%Q (secondary_key (pool_sequencing_rule w) (now w) <$> orders w !! o)).

(** Two keys are tied: neither is smaller than the other. *)
Definition tied (a b : Z * Q) : bool := negb (key_lt a b) && negb (key_lt b a).

(** A key is not larger than another: its priority is smaller, or the
    priorities are equal and its second component is not larger. *)
Definition key_le (a b : Z * Q) : Prop :=
  (a.1 < b.1)%Z ∨ (a.1 = b.1 ∧ (a.2 <= b.2)%Q).

(** The planned start time of a task of an order:
    [due_date - max_process_time - k * num_remaining_tasks]. *)
Definition planned_start (w : World) (ord : Order) (task : Task) : Q :=
  (due_date ord - (calculate_most_time_consuming_branch task).1
   - PLANNED_START_TIME_ALLOWANCE (app_config w)
     * inject_Z (calculate_most_time_consuming_branch task).2)%Q.

(** An indirect load after the test that follows a decrement: a value within
    the tolerance below zero has become zero. *)
Definition clipped (x : Q) : Q :=
  if Qltb x 0 && Qltb (Qabs x) tolerance then 0%Q else x.

(** The world in which [add_task] has queued the task, before it looks at the
    idle flag of the station: the planned start time is set (if the
    controller is attached), the indirect load is decremented, the task has
    left the ready tasks ([l] is what is left of them) and stands at the end of
    the queue, and the event is logged. *)
Definition task_queued (self o : nat) (task : Task) (st : Workstation) (ord : Order)
    (l : list Task) (w : World) : World :=
  let w1 := if orControlSystem st
            then set_tasks (<[tid task := set_planned_start_time
                                            (Some (planned_start w ord task))
                                            (task_state w task)]> (tasks w)) w
            else w in
  let x := (indirect_load st - process_time task / inject_Z (depth (task_state w task)))%Q in
  set_events
    (events w ++ [mkLogEvent (now w) (id st) (order_id ord) (task_name task) "Task Added"])
    (set_station_list
       (<[self := set_ws_tasks_queue (ws_tasks_queue st ++ [(o, task)])
                    (set_indirect_load (clipped x) st)]> (station_list w))
       (set_orders (<[o := set_ready_tasks l ord]> (orders w)) w1)).

(** The world in which an idle station has been woken: its event is
    triggered and it has been given a new one. *)
Definition woken (self : nat) (st : Workstation) (w : World) : World :=
  set_station_list (alter (set_idle_event (next_event w)) self (station_list w))
    (set_next_event (S (next_event w))
       (set_triggered ({[idle_event st]} ∪ triggered w) w)).

(** The stations [sl'] are the stations [sl] with their indirect loads
    raised: by [f id] for the station of that id. *)
Definition charged (f : string → Q) (sl sl' : list Workstation) : Prop :=
  length sl' = length sl ∧
  ∀ i s, sl !! i = Some s →
         ∃ x, sl' !! i = Some (set_indirect_load x s) ∧
              (x == indirect_load s + f (id s))%Q.

(** The tasks [S] are one level nearer to their turn in [w'] than in [w]:
    their depth is smaller by one; the other tasks are as they were. *)
Definition depths_lowered (S : list Task) (w w' : World) : Prop :=
  (∀ t, t ∈ S →
        task_state w' t = set_depth (depth (task_state w t) - 1) (task_state w t)) ∧
  (∀ t, tid t ∉ tid <$> S → task_state w' t = task_state w t).

(** The pool has only lost orders: those that are left stand in the order in
    which they stood. *)
Definition pool_shrinks (w w' : World) : Prop :=
  order_list w' `sublist_of` order_list w.

(** A task as the generator builds it: its depth is its level in the plan,
    it names its parent, and so do the tasks below it. *)
Inductive well_formed_task : Z → option string → Task → Prop :=
| well_formed_node d parent t :
    depth0 t = d →
    parent_task t = parent →
    Forall (well_formed_task (d + 1) (Some (task_name t))) (next_steps t) →
    well_formed_task d parent t.

(** The names of the tasks of a disassembly process plan down to the level
    [max_depth], the first task standing at level [current_depth]. *)
Fixpoint kept_names (max_depth current_depth : Z) (d : TaskData) : list string :=
  if (max_depth <? current_depth)%Z then []
  else td_task d :: flat_map (kept_names max_depth (current_depth + 1)) (td_next_steps d).

(** What [traverse_and_generate] returns for a task of the plan: a task
    object [t] with an identity of its own, at its level, with the tasks below
    it down to the level [max_depth]; [s] and [s'] are the states before and
    after. *)
Definition generated {G} (max_depth current_depth : Z) (parent : option string)
    (d : TaskData) (s s' : GenState G) (t : Task) : Prop :=
  well_formed_task current_depth parent t ∧
  Forall (λ u, (current_depth ≤ depth0 u ≤ max_depth)%Z) (flatten_task t) ∧
  Forall (λ u, (fresh s ≤ tid u < fresh s')%nat) (flatten_task t) ∧
  Forall (λ u, is_Some (parent_task u)) (flatten (next_steps t)) ∧
  NoDup (tid <$> flatten_task t) ∧
  task_name <$> flatten_task t = kept_names max_depth current_depth d.

(** The warehouses are as they were. *)
Definition warehouses_kept (w w' : World) : Prop :=
  warehouse_list w' = warehouse_list w.

(** A change of a station that leaves its queue alone. *)
Definition keeps_queue (f : Workstation → Workstation) : Prop :=
  ∀ s, ws_tasks_queue (f s) = ws_tasks_queue s.

(** A change of an order that leaves its ready and its completed tasks
    alone. *)
Definition keeps_progress (f : Order → Order) : Prop :=
  ∀ ord, ready_tasks (f ord) = ready_tasks ord ∧
         completed_tasks (f ord) = completed_tasks ord.

(** Nothing of the dispatching has changed: the queues of the stations, the
    ready and the completed tasks of the orders and the stations of the tasks
    are as they were. *)
Definition dispatch_kept (w w' : World) : Prop :=
  ws_tasks_queue <$> station_list w' = ws_tasks_queue <$> station_list w ∧
  ready_tasks <$> orders w' = ready_tasks <$> orders w ∧
  completed_tasks <$> orders w' = completed_tasks <$> orders w ∧
  ∀ t, assigned_station (task_state w' t) = assigned_station (task_state w t).

(** The entries of a disassembly process plan down to the level [max_depth],
    in the order of [kept_names]. *)
Fixpoint kept_data (max_depth current_depth : Z) (d : TaskData) : list TaskData :=
  if (max_depth <? current_depth)%Z then []
  else d :: flat_map (kept_data max_depth (current_depth + 1)) (td_next_steps d).

(** The task [u] carries what the entry [e] of the plan says: its name, its
    component, its revenue, the station type of the name ([Unknown] for a
    name without one), and a process time that is not below the minimal time
    of the entry, rounded. *)
Definition made_from (self : OrderGenerator) (u : Task) (e : TaskData) : Prop :=
  task_name u = td_task e ∧
  produced_component u = td_produced_component e ∧
  revenue u = td_revenue e ∧
  station u = default "Unknown" (task_to_station self !! td_task e) ∧
  (py_round (td_time_min e) 2 <= process_time u)%Q.

(** ** Worlds of the examples *)

(** Two stations of type A, both at work at time 4: A-1 on a task of 3 time
    units of order O-1, A-2 on a task of 4 time units of order O-2.  Order O-3,
    a single task of type A of 3 time units, waits in the pool; the norm
    is 5. *)
Definition x1 : Task := mkTask 10 "T1" 3 None 30 "A" [] None 1.
Definition y1 : Task := mkTask 20 "T1" 4 None 30 "A" [] None 1.
Definition z1 : Task := mkTask 30 "T1" 3 None 30 "A" [] None 1.

Definition two_stations : World :=
  let w := new_world 5 "FCFS" "FCFS" [("A", "1"); ("A", "2")]
             [ new_order "O-3" 1 2 30 2 "Plan" [z1];
               set_ready_tasks [] (new_order "O-1" 1 0 20 2 "Plan" [x1]);
               set_ready_tasks [] (new_order "O-2" 1 0 20 2 "Plan" [y1]) ] in
  set_now 4
    (set_order_list [0%nat]
       (set_tasks {[ 10%nat := mkTaskState 1 (Some 0%nat) None;
                     20%nat := mkTaskState 1 (Some 1%nat) None ]}
          (set_station_list
             [ set_ws_tasks_queue [(1%nat, x1)]
                 (set_idle false (attach "FCFS" (new_workstation "A" "1" 0)));
               set_ws_tasks_queue [(2%nat, y1)]
                 (set_idle false (attach "FCFS" (new_workstation "A" "2" 1))) ] w))).

(** The periodic release at time 4. *)
Definition after_round : World :=
  Eval vm_compute in final (periodic_release_round two_stations).

(** A-2 completes its task at time 8. *)
Definition after_completion : World :=
  Eval vm_compute in final (process_task_resume 1 2 y1 (set_now 8 after_round)).

(** A-2 finds its queue empty and reports to the controller. *)
Definition after_idle : World :=
  Eval vm_compute in final (start_processing_turn 1 after_completion).

(** A-2 has turned idle ([Idle Start] is logged) and is about to call
    [continuous_release]. *)
Definition idle_reported : World :=
  Eval vm_compute in
    final ((log_event 8 "A-2" "N/A" "N/A" "Idle Start" ;;; set_station 1 (set_idle true))
             after_completion).

(** The pool of the test in the order O-2, O-1. *)
Definition pool_21 : World := set_order_list [1; 0]%nat Fixture.shop.

(** A shop whose pool sequencing rule and dispatching rule are not among the
    known ones, with the two orders of the test in the pool. *)
Definition misconfigured : World :=
  set_order_list [1; 0]%nat (new_world 6 "LIFO" "LIFO" Fixture.names [Fixture.o1; Fixture.o2]).

(** The first task of order O-1 routed to station B-1, in the shop of the
    test. *)
Definition misrouted : World :=
  set_tasks {[ tid Fixture.t1 := mkTaskState 1 (Some 1%nat) None ]} Fixture.shop.

(** A station that carries no indirect load is given a task whose load is
    exactly the tolerance. *)
Definition at_tolerance : Task := mkTask 0 "T1" tolerance None 30 "A" [] None 1.

Definition at_tolerance_shop : World :=
  new_world 6 "EDD" "SPT" Fixture.names [new_order "O-1" 1 1 15 2 "Plan" [at_tolerance]].

(** Station B-1 of the test carrying an indirect load of 5, and the task T2
    of O-1, which is not ready as long as T1 is not complete. *)
Definition loaded_shop : World := with_indirect_load 1 5 Fixture.shop.

(** The single task of an order, queued at station A-1 at time 5. *)
Definition last_task : Task := mkTask 0 "T1" 3 None 30 "A" [] None 1.

Definition last_task_shop : World :=
  let w := new_world 6 "EDD" "SPT" Fixture.names [new_order "O-1" 1 1 15 2 "Plan" [last_task]] in
  set_now 5
    (set_tasks {[ 0%nat := mkTaskState 1 (Some 0%nat) (Some 11%Q) ]}
       (set_orders (alter (set_ready_tasks []) 0 (orders w))
          (set_station_list
             (alter (set_ws_tasks_queue [(0%nat, last_task)]) 0 (station_list w)) w))).

(** The shop of the test once the first order has been routed: its loads of
    3, 1, 1, 1 and 1 at the five stations stay below the norm of 6. *)
Definition routed_shop : World :=
  Eval vm_compute in final (set_detailed_routing 0 None Fixture.shop).

(** With a norm of 2 the order is rejected, for station A-1, whose current
    load is 0 and whose estimated load is 3. *)
Definition tight_shop : World :=
  Eval vm_compute in
    final (set_detailed_routing 0 None
             (new_world 2 "EDD" "SPT" Fixture.names [Fixture.o1; Fixture.o2])).

(** Station A-1 of the test with two tasks in its queue: T1 of O-1 (3 time
    units), then T1 of O-2 (2 time units); the dispatching rule is SPT. *)
Definition two_queued : World :=
  set_station_list
    (alter (set_ws_tasks_queue [(0%nat, Fixture.t1); (1%nat, Fixture.u1)]) 0
       (station_list Fixture.shop)) Fixture.shop.

(** An order with a task whose station type, [Unknown], is the type of no
    station of the test shop. *)
Definition stray : Task := mkTask 0 "T9" 1 None 0 "Unknown" [] None 1.

Definition stray_shop : World :=
  new_world 6 "FCFS" "FCFS" Fixture.names [new_order "O-1" 1 0 10 2 "Plan" [stray]].

(** The shop of the test with the load of T1 of O-1 charged to station A-1 as
    indirect load, as after the release of the order. *)
Definition charged_shop : World := with_indirect_load 0 3 Fixture.shop.

(** The same shop when the idle event of A-1 has been triggered and the
    station has not woken up yet. *)
Definition signalled_shop : World := set_triggered {[0%nat]} charged_shop.

(** The shop of the test when the first order has been released: T1 stands
    in the queue of A-1, the other tasks weigh on their stations as indirect
    load. *)
Definition released_shop : World :=
  Eval vm_compute in final (release_order 0 routed_shop).

(** T1 is complete and the loads have been updated. *)
Definition t1_completed : World :=
  Eval vm_compute in final (update_load_contribution 0 Fixture.t1 released_shop).

(** A random generator that always draws the same values. *)
#[export] Instance constant_random : NumpyRandom nat := {|
  random_gamma := λ _ _ g, (1%Q, S g);
  random_randint := λ low _ g, (low + 1, S g)%Z;
  random_uniform := λ low _ g, (low, S g);
  random_choice_bool := λ g, (true, S g);
  random_choice := λ l _ g, (default 0%Z (head l), S g);
  random_exponential := λ mean g, (mean, S g)
|}.

(** A plan of the kind of the test: T1, then T2 and T3, T4 after T2. *)
Definition small_plan : Dpp :=
  mkDpp "Plan1"
    [mkTaskData "T1" 2 4 None 30
       [mkTaskData "T2" 1 3 None 10 [mkTaskData "T4" 2 4 (Some "housing") 20 []];
        mkTaskData "T3" 1 3 None 15 []]].

Definition small_generator : OrderGenerator :=
  mkOrderGenerator small_plan small_plan 70 (648 # 1000) 4 (40%Q, 50%Q)
    {[ "T1" := "A"; "T2" := "B"; "T3" := "C"; "T4" := "D"; "T5" := "E" ]}.

(** Station A-1 at work, at time 3, on the only task of order O-1, a task of
    3 time units that produces a housing. *)
Definition h1 : Task := mkTask 40 "T4" 3 (Some "housing") 20 "A" [] None 1.

Definition producing_shop : World :=
  let w := new_world 5 "FCFS" "FCFS" [("A", "1")]
             [set_ready_tasks [] (new_order "O-1" 1 0 20 2 "Plan" [h1])] in
  set_now 3
    (set_tasks {[ 40%nat := mkTaskState 1 (Some 0%nat) None ]}
       (set_station_list
          [ set_ws_tasks_queue [(0%nat, h1)]
              (set_idle false (attach "FCFS" (new_workstation "A" "1" 0))) ] w)).

(** The same shop without a warehouse. *)
Definition no_warehouse_shop : World := set_warehouse_list [] producing_shop.

(** A-1 has processed T1 of the first order of the test, at time 3. *)
Definition t1_processed : World :=
  Eval vm_compute in final (process_task_resume 0 0 Fixture.t1 (set_now 3 released_shop)).

(** ** Reasoning about computations *)

Lemma bind_Ok {A B} (c : M A) (k : A → M B) w a w' :
  c w = Ok a w' → (x <- c ;; k x) w = k a w'.
Proof. unfold bind. by intros ->. Qed.

Lemma bind_Raise {A B} (c : M A) (k : A → M B) w e w' :
  c w = Raise e w' → (x <- c ;; k x) w = Raise e w'.
Proof. unfold bind. by intros ->. Qed.

Lemma get_order_Ok w o ord : orders w !! o = Some ord → get_order o w = Ok ord w.
Proof. unfold get_order. by intros ->. Qed.

Lemma get_station_Ok w i s : station_list w !! i = Some s → get_station i w = Ok s w.
Proof. unfold get_station. by intros ->. Qed.

Lemma Qltb_lt a b : Qltb a b = true ↔ (a < b)%Q.
Proof.
  unfold Qltb. rewrite negb_true_iff, <- not_true_iff_false, Qle_bool_iff.
  split; [apply Qnot_le_lt | apply Qlt_not_le].
Qed.

Lemma Qltb_ge a b : Qltb a b = false ↔ (b <= a)%Q.
Proof. unfold Qltb. rewrite negb_false_iff. apply Qle_bool_iff. Qed.

(** Induction on a task with the hypothesis for all its children. *)
Section TaskInduction.
Variable P : Task → Prop.
Hypothesis step : ∀ t, Forall P (next_steps t) → P t.

Fixpoint Task_children_ind (t : Task) : P t :=
  step t ((fix children (l : list Task) : Forall P l :=
             match l with
             | [] => @List.Forall_nil Task P
             | c :: l' => @List.Forall_cons Task P c l' (Task_children_ind c) (children l')
             end) (next_steps t)).
End TaskInduction.

Lemma bind_gets {A B} (f : World → A) (k : A → M B) w :
  (x <- gets f ;; k x) w = k (f w) w.
Proof. reflexivity. Qed.

Lemma bind_modify {B} (f : World → World) (k : unit → M B) w :
  (x <- modify f ;; k x) w = k tt (f w).
Proof. reflexivity. Qed.

Lemma bind_ret {A B} (a : A) (k : A → M B) w : (x <- ret a ;; k x) w = k a w.
Proof. reflexivity. Qed.

Lemma set_order_list_id w : set_order_list (order_list w) w = w.
Proof. by destruct w. Qed.

Lemma set_station_list_id w : set_station_list (station_list w) w = w.
Proof. by destruct w. Qed.

Lemma set_orders_id w : set_orders (orders w) w = w.
Proof. by destruct w. Qed.

Lemma truediv_Ok a b w : ¬ (b == 0)%Q → truediv a b w = Ok (a / b)%Q w.
Proof.
  intros Hb. unfold truediv.
  destruct (Qeq_bool b 0) eqn:E; [|done]. by apply Qeq_bool_iff in E.
Qed.

Lemma truediv_zero a b w : (b == 0)%Q → truediv a b w = Raise ZeroDivisionError w.
Proof.
  intros Hb. unfold truediv. apply Qeq_bool_iff in Hb. by rewrite Hb.
Qed.

Lemma set_station_Ok w i s f :
  station_list w !! i = Some s →
  set_station i f w = Ok tt (set_station_list (alter f i (station_list w)) w).
Proof.
  intros H. unfold set_station. by rewrite (bind_Ok _ _ _ _ _ (get_station_Ok _ _ _ H)).
Qed.

Lemma set_order_Ok w o ord f :
  orders w !! o = Some ord →
  set_order o f w = Ok tt (set_orders (alter f o (orders w)) w).
Proof.
  intros H. unfold set_order. by rewrite (bind_Ok _ _ _ _ _ (get_order_Ok _ _ _ H)).
Qed.

Lemma set_station_list_twice l l' w :
  set_station_list l (set_station_list l' w) = set_station_list l w.
Proof. reflexivity. Qed.

Lemma alter_set_indirect_load a (f : Workstation → Q) st (sl : list Workstation) :
  sl !! a = Some st →
  alter (λ s, set_indirect_load (f s) s) a sl = alter (set_indirect_load (f st)) a sl.
Proof. intros H. apply list_alter_ext; [|done]. intros s Hs. congruence. Qed.

Lemma with_indirect_load_lookup a x w st :
  station_list w !! a = Some st →
  station_list (with_indirect_load a x w) !! a = Some (set_indirect_load x st).
Proof. intros H. simpl. by rewrite list_lookup_alter_eq, H. Qed.

Lemma with_indirect_load_twice a x y w :
  with_indirect_load a x (with_indirect_load a y w) = with_indirect_load a x w.
Proof.
  unfold with_indirect_load. simpl. rewrite set_station_list_twice.
  f_equal. rewrite list_alter_alter_eq. by apply list_alter_ext.
Qed.

(** The clip applies strictly between [-1e-10] and [0]. *)
Lemma clip_condition x :
  Qltb x 0 && Qltb (Qabs x) tolerance = true ↔ (- tolerance < x ∧ x < 0)%Q.
Proof.
  rewrite andb_true_iff, !Qltb_lt, Qabs_Qlt_condition. split.
  - tauto.
  - intros [? ?]. repeat split; try done.
    eapply Qlt_trans; [eassumption|]. reflexivity.
Qed.

Lemma for_each_nil {A} (body : A → M unit) : for_each [] body = ret tt.
Proof. reflexivity. Qed.

Lemma for_each_cons {A} (x : A) l (body : A → M unit) :
  for_each (x :: l) body = (body x ;;; for_each l body).
Proof. reflexivity. Qed.

Lemma foldM_nil {A S} (body : S → A → M S) s : foldM body s [] = ret s.
Proof. reflexivity. Qed.

Lemma foldM_cons {A S} (body : S → A → M S) s x l :
  foldM body s (x :: l) = (s' <- body s x ;; foldM body s' l).
Proof. reflexivity. Qed.

Lemma set_orders_twice l l' w : set_orders l (set_orders l' w) = set_orders l w.
Proof. reflexivity. Qed.

Lemma bind_assoc {A B C} (c : M A) (k : A → M B) (k' : B → M C) w :
  (x <- (y <- c ;; k y) ;; k' x) w = (y <- c ;; x <- k y ;; k' x) w.
Proof. unfold bind. by destruct (c w). Qed.

Lemma bind_if {A B} (b : bool) (c1 c2 : M A) (k : A → M B) w :
  (x <- (if b then c1 else c2) ;; k x) w
  = (if b then (x <- c1 ;; k x) w else (x <- c2 ;; k x) w).
Proof. by destruct b. Qed.

(** A computation that returns has returned at each step. *)
Lemma bind_Ok_inv {A B} (c : M A) (k : A → M B) w b w' :
  (x <- c ;; k x) w = Ok b w' → ∃ a w1, c w = Ok a w1 ∧ k a w1 = Ok b w'.
Proof. unfold bind. destruct (c w) as [a w1|]; [|done]. eauto. Qed.

Lemma get_station_Ok_inv i w s w' :
  get_station i w = Ok s w' → w' = w ∧ station_list w !! i = Some s.
Proof. unfold get_station. destruct (station_list w !! i); [|done]. by intros [= -> ->]. Qed.

Lemma get_order_Ok_inv o w ord w' :
  get_order o w = Ok ord w' → w' = w ∧ orders w !! o = Some ord.
Proof. unfold get_order. destruct (orders w !! o); [|done]. by intros [= -> ->]. Qed.

Lemma str_eqb_false_iff a b : str_eqb a b = false ↔ a ≠ b.
Proof. apply bool_decide_eq_false. Qed.

(** ** What an operation leaves alone

    [preserves R c]: whatever the world, and however [c] ends, the world it
    leaves is related by [R] to the one it started in.  The relations of
    interest say that some part of the world is as it was; [Steady R] lists
    the writes that the bookkeeping of loads, queues, logs and events performs
    and that such a relation has to put up with. *)

Section Preserves.
Context (R : relation World) `{!PreOrder R}.

Lemma preserves_ret {A} (a : A) : preserves R (ret a).
Proof. intros w. reflexivity. Qed.

Lemma preserves_raise {A} e : preserves R (@raise A e).
Proof. intros w. reflexivity. Qed.

Lemma preserves_gets {A} (f : World → A) : preserves R (gets f).
Proof. intros w. reflexivity. Qed.

Lemma preserves_modify f : (∀ w, R w (f w)) → preserves R (modify f).
Proof. intros H w. apply H. Qed.

Lemma preserves_bind {A B} (c : M A) (k : A → M B) :
  preserves R c → (∀ a, preserves R (k a)) → preserves R (x <- c ;; k x).
Proof.
  intros Hc Hk w. unfold bind. specialize (Hc w).
  destruct (c w) as [a w'|e w']; simpl in *; [|done].
  etrans; [exact Hc|]. apply Hk.
Qed.

Lemma preserves_for_each {A} (l : list A) (body : A → M unit) :
  (∀ x, x ∈ l → preserves R (body x)) → preserves R (for_each l body).
Proof.
  induction l as [|x l IH]; intros H.
  - apply preserves_ret.
  - apply (preserves_bind (body x) (λ _, for_each l body)).
    + apply H. left.
    + intros _. apply IH. intros y Hy. apply H. by right.
Qed.

Lemma preserves_foldM {A S} (body : S → A → M S) (s : S) (l : list A) :
  (∀ s x, x ∈ l → preserves R (body s x)) → preserves R (foldM body s l).
Proof.
  revert s. induction l as [|x l IH]; intros s H.
  - apply preserves_ret.
  - apply (preserves_bind (body s x) (λ s', foldM body s' l)).
    + apply H. left.
    + intros s'. apply IH. intros s'' y Hy. apply H. by right.
Qed.

Lemma preserves_mapM {A B} (f : A → M B) (l : list A) :
  (∀ x, x ∈ l → preserves R (f x)) → preserves R (mapM f l).
Proof.
  induction l as [|x l IH]; intros H.
  - apply preserves_ret.
  - apply (preserves_bind (f x) (λ y, ys <- mapM f l ;; ret (y :: ys))).
    + apply H. left.
    + intros y. apply preserves_bind; [|intros; apply preserves_ret].
      apply IH. intros z Hz. apply H. by right.
Qed.

Lemma preserves_get_station i : preserves R (get_station i).
Proof. intros w. unfold get_station. by destruct (station_list w !! i). Qed.

Lemma preserves_get_order o : preserves R (get_order o).
Proof. intros w. unfold get_order. by destruct (orders w !! o). Qed.

Lemma preserves_get_task t : preserves R (get_task t).
Proof. apply preserves_gets. Qed.

Lemma preserves_deref r : preserves R (deref r).
Proof. destruct r; [apply preserves_ret | apply preserves_raise]. Qed.

Lemma preserves_truediv a b : preserves R (truediv a b).
Proof. unfold truediv. destruct (Qeq_bool b 0); [apply preserves_raise | apply preserves_ret]. Qed.

Lemma preserves_calculate_load t : preserves R (calculate_load t).
Proof.
  apply preserves_bind; [apply preserves_get_task|]. intros. apply preserves_truediv.
Qed.

Lemma preserves_select_station l : preserves R (select_station l).
Proof. destruct l; [apply preserves_raise | apply preserves_ret]. Qed.
End Preserves.

Create HintDb frame discriminated.

#[export] Hint Resolve preserves_ret preserves_raise preserves_gets preserves_get_station
  preserves_get_order preserves_get_task preserves_deref preserves_truediv
  preserves_calculate_load preserves_select_station : frame.

#[export] Hint Extern 1 (PreOrder _) => typeclasses eauto : frame.
#[export] Hint Extern 1 (Steady _) => typeclasses eauto : frame.

Ltac frame_instance :=
  try match goal with
      | |- PreOrder _ => typeclasses eauto
      | |- Steady _ => typeclasses eauto
      end.

(** One step through the text of an operation. *)
Ltac frame_step :=
  first
    [ solve [eauto with frame]
    | (apply preserves_bind; frame_instance); [|intros ?]
    | (apply preserves_for_each; frame_instance); intros ? ?
    | (apply preserves_foldM; frame_instance); intros ? ? ?
    | (apply preserves_mapM; frame_instance); intros ? ?
    | match goal with
      | |- preserves _ (match ?x with _ => _ end) => destruct x
      end ].

Ltac frame := repeat frame_step.

Lemma bookkeeping_ready (g : Order → list Task) :
  bookkeeping (λ ord, set_ready_tasks (g ord) ord).
Proof. intros ord. exists (g ord), (load_contributions ord). by destruct ord. Qed.

Lemma bookkeeping_ready_const l : bookkeeping (set_ready_tasks l).
Proof. apply (bookkeeping_ready (λ _, l)). Qed.

Lemma bookkeeping_lc (g : Order → gmap string (gmap string Contribution)) :
  bookkeeping (λ ord, set_load_contributions (g ord) ord).
Proof. intros ord. exists (ready_tasks ord), (g ord). by destruct ord. Qed.

Lemma bookkeeping_id : bookkeeping (λ ord, ord).
Proof. intros ord. exists (ready_tasks ord), (load_contributions ord). by destruct ord. Qed.

Lemma keeps_station_depth (g : TaskState → Z) : keeps_station (λ s, set_depth (g s) s).
Proof. by intros s. Qed.

Lemma keeps_station_depth_const d : keeps_station (set_depth d).
Proof. by intros s. Qed.

Lemma keeps_station_planned p : keeps_station (set_planned_start_time p).
Proof. by intros s. Qed.

#[export] Hint Resolve bookkeeping_ready bookkeeping_ready_const bookkeeping_lc
  bookkeeping_id keeps_station_depth keeps_station_depth_const keeps_station_planned : frame.

Section SteadyOperations.
Context (R : relation World) `{!Steady R}.

Lemma preserves_set_station i f : preserves R (set_station i f).
Proof.
  frame_step; [frame|].
  apply preserves_modify. intros w. apply steady_station_list.
Qed.

Lemma preserves_set_order o f : bookkeeping f → preserves R (set_order o f).
Proof.
  intros Hf. frame_step; [frame|].
  apply preserves_modify. intros w. by apply steady_orders.
Qed.

Lemma preserves_set_task t f : keeps_station f → preserves R (set_task t f).
Proof. intros Hf. apply preserves_modify. intros w. by apply steady_tasks. Qed.

Lemma preserves_log_event ts a b c d : preserves R (log_event ts a b c d).
Proof. apply preserves_modify. intros w. apply steady_events. Qed.

Lemma preserves_log_error msg : preserves R (log_error msg).
Proof. apply preserves_modify. intros w. apply steady_error_log. Qed.

Lemma preserves_new_event : preserves R new_event.
Proof. intros w. apply steady_next_event. Qed.

Lemma preserves_succeed e : preserves R (succeed e).
Proof.
  intros w. unfold succeed. destruct (bool_decide _); simpl; [reflexivity|].
  apply steady_triggered.
Qed.

Hint Resolve preserves_set_station preserves_set_order preserves_set_task
  preserves_log_event preserves_log_error preserves_new_event preserves_succeed : frame.

Lemma preserves_decrease_indirect_load a ld err :
  preserves R (decrease_indirect_load a ld err).
Proof. unfold decrease_indirect_load. frame. Qed.

Lemma preserves_calculate_planned_start_time o task :
  preserves R (calculate_planned_start_time o task).
Proof. unfold calculate_planned_start_time. frame. Qed.

Hint Resolve preserves_decrease_indirect_load preserves_calculate_planned_start_time : frame.

Lemma preserves_add_task self o task : preserves R (add_task self o task).
Proof. unfold add_task. frame. Qed.

Lemma preserves_compute_load_contributions o :
  preserves R (compute_load_contributions o).
Proof. unfold compute_load_contributions. frame. Qed.

Lemma preserves_add_load_contribution o : preserves R (add_load_contribution o).
Proof. unfold add_load_contribution. frame. Qed.

Hint Resolve preserves_add_task preserves_compute_load_contributions
  preserves_add_load_contribution : frame.

Lemma preserves_release_order o : preserves R (release_order o).
Proof. unfold release_order. frame. Qed.

Lemma update_childs_indrect_load_eq task :
  update_childs_indrect_load task =
  for_each (next_steps task) (λ child_task,
    s <- get_task child_task ;;
    old_indirect_load <- calculate_load child_task ;;
    a <- deref (assigned_station s) ;;
    st <- get_station a ;;
    decrease_indirect_load a old_indirect_load
      (ValueError ("Negative load contribution for task "
                   +:+ task_name child_task +:+ " in station " +:+ id st)) ;;;
    set_task child_task (λ s, set_depth (depth s - 1) s) ;;;
    new_indirect_load <- calculate_load child_task ;;
    set_station a (λ st, set_indirect_load (indirect_load st + new_indirect_load)%Q st) ;;;
    match next_steps child_task with
    | [] => ret tt
    | _ :: _ => update_childs_indrect_load child_task
    end).
Proof. by destruct task. Qed.

Lemma preserves_update_childs_indrect_load task :
  preserves R (update_childs_indrect_load task).
Proof.
  induction task as [task IH] using Task_children_ind.
  rewrite update_childs_indrect_load_eq. rewrite Forall_forall in IH.
  (apply preserves_for_each; frame_instance); intros child Hchild.
  specialize (IH child Hchild). frame.
Qed.

Hint Resolve preserves_update_childs_indrect_load : frame.

Lemma bookkeeping_completed (k1 k2 : string) (c : Contribution) :
  bookkeeping (λ ord,
    match load_contributions ord !! k1 with
    | Some tks =>
        if bool_decide (is_Some (tks !! k2))
        then set_load_contributions
               (<[k1 := <[k2 := c]> tks]> (load_contributions ord)) ord
        else ord
    | None => ord
    end).
Proof.
  intros ord. destruct (load_contributions ord !! k1) as [tks|]; [|apply bookkeeping_id].
  destruct (bool_decide _); [|apply bookkeeping_id].
  apply (bookkeeping_lc (λ ord, <[k1 := <[k2 := c]> tks]> (load_contributions ord))).
Qed.

Hint Resolve bookkeeping_completed : frame.

Lemma preserves_update_load_contribution o task :
  preserves R (update_load_contribution o task).
Proof. unfold update_load_contribution. frame. Qed.

Lemma preserves_update_stations_loads o task :
  preserves R (update_stations_loads o task).
Proof. apply preserves_update_load_contribution. Qed.

Lemma preserves_sort_tasks self : preserves R (sort_tasks self).
Proof. unfold sort_tasks. frame. Qed.
End SteadyOperations.

#[export] Hint Resolve preserves_set_station preserves_set_order preserves_set_task
  preserves_log_event preserves_log_error preserves_new_event preserves_succeed
  preserves_decrease_indirect_load preserves_calculate_planned_start_time
  preserves_add_task preserves_compute_load_contributions preserves_add_load_contribution
  preserves_release_order preserves_update_childs_indrect_load
  preserves_update_load_contribution preserves_update_stations_loads
  preserves_sort_tasks bookkeeping_completed : frame.

(** Operations that also write the completion of orders. *)
Section CompletionOperations.
Context (R : relation World) `{!Steady R}.
Hypothesis any_order : ∀ w o f, R w (set_orders (alter f o (orders w)) w).

Lemma preserves_set_order_any o f : preserves R (set_order o f).
Proof.
  unfold set_order. frame_step; [frame|]. apply preserves_modify.
  intros w. apply any_order.
Qed.

Hint Resolve preserves_set_order_any : frame.

Lemma preserves_mark_task_as_completed self o task :
  preserves R (mark_task_as_completed self o task).
Proof. unfold mark_task_as_completed. frame. Qed.

Hint Resolve preserves_mark_task_as_completed : frame.

Lemma preserves_remove_task self o task : preserves R (remove_task self o task).
Proof. unfold remove_task. frame. Qed.

Hint Resolve preserves_remove_task : frame.

Lemma preserves_add_item c i :
  preserves R (modify (λ w, set_warehouse_list
                              (alter (λ h, set_stock (stock h ++ [c]) h) i (warehouse_list w)) w)).
Proof. apply preserves_modify. intros w. apply steady_warehouse_list. Qed.

Hint Resolve preserves_add_item : frame.

Lemma preserves_process_task_resume self o task :
  preserves R (process_task_resume self o task).
Proof. unfold process_task_resume. frame. Qed.
End CompletionOperations.

#[export] Hint Resolve preserves_add_item : frame.

(** ** Operations that do not look at the workload norm

    [oblivious c]: run in a world with another workload norm, [c] ends the
    same way, with the same value or exception, in the same world but for the
    norm. *)

Lemma oblivious_ret {A} (a : A) : oblivious (ret a).
Proof. by intros n w. Qed.

Lemma oblivious_raise {A} e : oblivious (@raise A e).
Proof. by intros n w. Qed.

Lemma oblivious_bind {A B} (c : M A) (k : A → M B) :
  oblivious c → (∀ a, oblivious (k a)) → oblivious (x <- c ;; k x).
Proof.
  intros Hc Hk n w. unfold bind. rewrite Hc.
  destruct (c w) as [a w'|e w']; simpl; [apply Hk|done].
Qed.

Lemma oblivious_for_each {A} (l : list A) (body : A → M unit) :
  (∀ x, oblivious (body x)) → oblivious (for_each l body).
Proof.
  intros H. induction l as [|x l IH]; [apply oblivious_ret|].
  apply (oblivious_bind (body x) (λ _, for_each l body)); [apply H|by intros _].
Qed.

Lemma oblivious_foldM {A S} (body : S → A → M S) (s : S) (l : list A) :
  (∀ s x, oblivious (body s x)) → oblivious (foldM body s l).
Proof.
  intros H. revert s. induction l as [|x l IH]; intros s; [apply oblivious_ret|].
  apply (oblivious_bind (body s x) (λ s', foldM body s' l)); [apply H|apply IH].
Qed.

Lemma oblivious_mapM {A B} (f : A → M B) (l : list A) :
  (∀ x, oblivious (f x)) → oblivious (mapM f l).
Proof.
  intros H. induction l as [|x l IH]; [apply oblivious_ret|].
  apply (oblivious_bind (f x) (λ y, ys <- mapM f l ;; ret (y :: ys))); [apply H|].
  intros y. apply oblivious_bind; [apply IH|intros; apply oblivious_ret].
Qed.

Lemma oblivious_gets {A} (f : World → A) :
  (∀ n w, f (with_norm n w) = f w) → oblivious (gets f).
Proof. intros H n w. unfold gets. by rewrite H. Qed.

Lemma oblivious_modify (f : World → World) :
  (∀ n w, f (with_norm n w) = with_norm n (f w)) → oblivious (modify f).
Proof. intros H n w. unfold modify. by rewrite H. Qed.

Lemma oblivious_get_station i : oblivious (get_station i).
Proof. intros n w. unfold get_station. simpl. by destruct (station_list w !! i). Qed.

Lemma oblivious_get_order o : oblivious (get_order o).
Proof. intros n w. unfold get_order. simpl. by destruct (orders w !! o). Qed.

Lemma oblivious_get_task t : oblivious (get_task t).
Proof. by apply oblivious_gets. Qed.

Lemma oblivious_set_task t f : oblivious (set_task t f).
Proof. by apply oblivious_modify. Qed.

Lemma oblivious_deref r : oblivious (deref r).
Proof. destruct r; [apply oblivious_ret|apply oblivious_raise]. Qed.

Lemma oblivious_truediv a b : oblivious (truediv a b).
Proof. unfold truediv. destruct (Qeq_bool b 0); [apply oblivious_raise|apply oblivious_ret]. Qed.

Lemma oblivious_log_event ts a b c d : oblivious (log_event ts a b c d).
Proof. by apply oblivious_modify. Qed.

Lemma oblivious_log_error msg : oblivious (log_error msg).
Proof. by apply oblivious_modify. Qed.

Lemma oblivious_new_event : oblivious new_event.
Proof. by intros n w. Qed.

Lemma oblivious_succeed e : oblivious (succeed e).
Proof. intros n w. unfold succeed. simpl. by destruct (bool_decide _). Qed.

Lemma oblivious_select_station l : oblivious (select_station l).
Proof. destruct l; [apply oblivious_raise|apply oblivious_ret]. Qed.

Lemma oblivious_set_order_list l : oblivious (modify (set_order_list l)).
Proof. by apply oblivious_modify. Qed.

Lemma oblivious_gets_now : oblivious (gets now).
Proof. by apply oblivious_gets. Qed.

Lemma oblivious_gets_station_list : oblivious (gets station_list).
Proof. by apply oblivious_gets. Qed.

Lemma oblivious_gets_order_list : oblivious (gets order_list).
Proof. by apply oblivious_gets. Qed.

Lemma oblivious_gets_rule : oblivious (gets pool_sequencing_rule).
Proof. by apply oblivious_gets. Qed.

Lemma oblivious_gets_allowance :
  oblivious (gets (λ w, PLANNED_START_TIME_ALLOWANCE (app_config w))).
Proof. by apply oblivious_gets. Qed.

Create HintDb oblivious discriminated.

#[export] Hint Resolve oblivious_ret oblivious_raise oblivious_get_station
  oblivious_get_order oblivious_get_task oblivious_set_task oblivious_deref
  oblivious_truediv oblivious_log_event oblivious_log_error oblivious_new_event
  oblivious_succeed oblivious_select_station oblivious_set_order_list
  oblivious_gets_now oblivious_gets_station_list oblivious_gets_order_list
  oblivious_gets_rule oblivious_gets_allowance : oblivious.

Ltac oblivious_step :=
  first
    [ solve [eauto with oblivious]
    | apply oblivious_bind; [|intros ?]
    | apply oblivious_for_each; intros ?
    | apply oblivious_foldM; intros ? ?
    | apply oblivious_mapM; intros ?
    | match goal with
      | |- oblivious (match ?x with _ => _ end) => destruct x
      end
    | (apply oblivious_modify; intros ? ?; reflexivity) ].

Ltac oblivious := repeat oblivious_step.

Lemma oblivious_set_station i f : oblivious (set_station i f).
Proof. unfold set_station. oblivious. Qed.

Lemma oblivious_set_order o f : oblivious (set_order o f).
Proof. unfold set_order. oblivious. Qed.

#[export] Hint Resolve oblivious_set_station oblivious_set_order : oblivious.

Lemma oblivious_calculate_load t : oblivious (calculate_load t).
Proof. unfold calculate_load. oblivious. Qed.

Lemma oblivious_decrease_indirect_load a ld err :
  oblivious (decrease_indirect_load a ld err).
Proof. unfold decrease_indirect_load. oblivious. Qed.

Lemma oblivious_calculate_planned_start_time o task :
  oblivious (calculate_planned_start_time o task).
Proof. unfold calculate_planned_start_time. oblivious. Qed.

#[export] Hint Resolve oblivious_calculate_load oblivious_decrease_indirect_load
  oblivious_calculate_planned_start_time : oblivious.

Lemma oblivious_add_task self o task : oblivious (add_task self o task).
Proof. unfold add_task. oblivious. Qed.

Lemma oblivious_compute_load_contributions o : oblivious (compute_load_contributions o).
Proof. unfold compute_load_contributions. oblivious. Qed.

Lemma oblivious_add_load_contribution o : oblivious (add_load_contribution o).
Proof. unfold add_load_contribution. oblivious. Qed.

Lemma oblivious_route_task trig task : oblivious (route_task trig task).
Proof. unfold route_task. oblivious. Qed.

#[export] Hint Resolve oblivious_add_task oblivious_compute_load_contributions
  oblivious_add_load_contribution oblivious_route_task : oblivious.

Lemma oblivious_set_detailed_routing o trig : oblivious (set_detailed_routing o trig).
Proof. unfold set_detailed_routing. oblivious. Qed.

Lemma oblivious_release_order o : oblivious (release_order o).
Proof. unfold release_order. oblivious. Qed.

Lemma oblivious_pool_remove_order o : oblivious (pool_remove_order o).
Proof. unfold pool_remove_order. oblivious. Qed.

Lemma oblivious_sort_orders : oblivious sort_orders.
Proof. unfold sort_orders. oblivious. Qed.

#[export] Hint Resolve oblivious_set_detailed_routing oblivious_release_order
  oblivious_pool_remove_order oblivious_sort_orders : oblivious.

Lemma oblivious_release_first_match stn l : oblivious (release_first_match stn l).
Proof. induction l as [|o l IH]; [apply oblivious_ret|]. simpl. oblivious. Qed.

#[export] Hint Resolve oblivious_release_first_match : oblivious.

Lemma oblivious_continuous_release stn : oblivious (continuous_release stn).
Proof. unfold continuous_release. oblivious. Qed.

(** ** Planned start times *)

Lemma py_max_by_spec {A} (key : A → Q) (best : A) (l : list A) :
  py_max_by key best l ∈ best :: l ∧
  ∀ x, x ∈ best :: l → (key x <= key (py_max_by key best l))%Q.
Proof.
  revert best. induction l as [|y l IH]; intros best; simpl.
  - split; [left|]. intros x Hx. apply list_elem_of_singleton in Hx as ->. apply Qle_refl.
  - destruct (IH (if Qltb (key best) (key y) then y else best)) as [Hin Hmax].
    split.
    + apply elem_of_cons in Hin as [->|Hin].
      * destruct (Qltb (key best) (key y)); [right; left | left].
      * by right; right.
    + intros x Hx.
      assert (Hb : (key best <= key (if Qltb (key best) (key y) then y else best))%Q
                 ∧ (key y <= key (if Qltb (key best) (key y) then y else best))%Q).
      { destruct (Qltb (key best) (key y)) eqn:E.
        - apply Qltb_lt in E. split; [by apply Qlt_le_weak | apply Qle_refl].
        - apply Qltb_ge in E. split; [apply Qle_refl | done]. }
      destruct Hb as [Hb Hy].
      apply elem_of_cons in Hx as [->|Hx].
      * eapply Qle_trans; [exact Hb|]. apply Hmax. left.
      * apply elem_of_cons in Hx as [->|Hx].
        -- eapply Qle_trans; [exact Hy|]. apply Hmax. left.
        -- apply Hmax. by right.
Qed.

Lemma calculate_most_time_consuming_branch_eq t :
  calculate_most_time_consuming_branch t =
  match calculate_most_time_consuming_branch <$> next_steps t with
  | [] => (process_time t, 1%Z)
  | r :: child_results =>
      let '(max_child_time, max_child_count) := py_max_by fst r child_results in
      ((process_time t + max_child_time)%Q, (1 + max_child_count)%Z)
  end.
Proof. by destruct t. Qed.

Lemma branches_eq t :
  branches t =
  match next_steps t with
  | [] => [[t]]
  | _ :: _ => cons t <$> flat_map branches (next_steps t)
  end.
Proof. by destruct t. Qed.

Lemma branches_nonempty t b : b ∈ branches t → ∃ b', b = t :: b'.
Proof.
  rewrite branches_eq. destruct (next_steps t).
  - intros ->%list_elem_of_singleton. eauto.
  - intros (b' & -> & _)%list_elem_of_fmap. eauto.
Qed.

(** The pair computed for a task is the time and the length of one of its
    branches, and no branch takes more time. *)
Lemma most_time_consuming_branch_spec t :
  ∃ b, b ∈ branches t ∧
       ((calculate_most_time_consuming_branch t).1 == branch_time b)%Q ∧
       (calculate_most_time_consuming_branch t).2 = Z.of_nat (length b) ∧
       ∀ b', b' ∈ branches t → (branch_time b' <= branch_time b)%Q.
Proof.
  induction t as [t IH] using Task_children_ind.
  rewrite calculate_most_time_consuming_branch_eq, branches_eq.
  destruct (next_steps t) as [|c cs] eqn:Hns.
  - exists [t]. simpl. split; [left|]. split; [ring|]. split; [done|].
    intros b' ->%list_elem_of_singleton. apply Qle_refl.
  - set (rs := calculate_most_time_consuming_branch <$> c :: cs).
    assert (Hrs : rs = calculate_most_time_consuming_branch c
                       :: (calculate_most_time_consuming_branch <$> cs)) by done.
    rewrite Hrs.
    destruct (py_max_by_spec fst (calculate_most_time_consuming_branch c)
                (calculate_most_time_consuming_branch <$> cs)) as [Hin Hmax].
    rewrite <- Hrs in Hin, Hmax.
    destruct (py_max_by fst _ _) as [mt mc] eqn:Hbest.
    apply list_elem_of_fmap in Hin as (c' & Hc' & Hin).
    rewrite Forall_forall in IH.
    destruct (IH c' Hin) as (b & Hb & Ht & Hn & Hle).
    rewrite <- Hc' in Ht, Hn. simpl in Ht, Hn.
    exists (t :: b). split; [|split; [|split]].
    + apply list_elem_of_fmap. exists b. split; [done|].
      apply list_elem_of_In, in_flat_map. exists c'. by rewrite <- !list_elem_of_In.
    + simpl. by rewrite Ht.
    + cbn [snd length]. rewrite Hn. lia.
    + intros b' (b'' & -> & Hb'')%list_elem_of_fmap.
      apply list_elem_of_In, in_flat_map in Hb'' as (c'' & Hc'' & Hb'').
      apply list_elem_of_In in Hc''. apply list_elem_of_In in Hb''.
      destruct (IH c'' Hc'') as (b2 & _ & Ht2 & _ & Hle2).
      simpl. apply Qplus_le_r.
      eapply Qle_trans; [by apply Hle2|].
      rewrite <- Ht2, <- Ht.
      specialize (Hmax (calculate_most_time_consuming_branch c'')).
      simpl in Hmax. apply Hmax.
      apply list_elem_of_fmap. eauto.
Qed.

(** [calculate_planned_start_time] always returns, and only writes the
    planned start time of the task. *)
Lemma calculate_planned_start_time_Ok w o ord task :
  orders w !! o = Some ord →
  calculate_planned_start_time o task w
  = Ok tt (set_tasks
             (<[tid task :=
                  set_planned_start_time
                    (Some (due_date ord - (calculate_most_time_consuming_branch task).1
                           - PLANNED_START_TIME_ALLOWANCE (app_config w)
                             * inject_Z (calculate_most_time_consuming_branch task).2)%Q)
                    (task_state w task)]> (tasks w)) w).
Proof.
  intros Ho. unfold calculate_planned_start_time.
  rewrite (bind_Ok _ _ _ _ _ (get_order_Ok _ _ _ Ho)).
  by destruct (calculate_most_time_consuming_branch task).
Qed.

(** C6. [calculate_planned_start_time] sets the planned start time of the
    task to [due_date - T - k * n], where [T] is the largest total process
    time of a root-to-leaf branch of the subtree of the task, [n >= 1] is the
    number of tasks of a branch of that total time, and [k] is the configured
    allowance; nothing else changes. *)
Theorem planned_start_time_formula (w : World) (o : nat) (ord : Order) (task : Task) :
  orders w !! o = Some ord →
  ∃ b pst,
    calculate_planned_start_time o task w
      = Ok tt (set_tasks (<[tid task := set_planned_start_time (Some pst) (task_state w task)]>
                            (tasks w)) w) ∧
    b ∈ branches task ∧
    (∀ b', b' ∈ branches task → (branch_time b' <= branch_time b)%Q) ∧
    (1 ≤ length b)%nat ∧
    (pst == due_date ord - branch_time b
            - PLANNED_START_TIME_ALLOWANCE (app_config w) * inject_Z (Z.of_nat (length b)))%Q.
Proof.
  intros Ho.
  destruct (most_time_consuming_branch_spec task) as (b & Hb & Ht & Hn & Hmax).
  rewrite (calculate_planned_start_time_Ok w o ord task Ho).
  eexists b, _. split; [reflexivity|].
  split; [done|]. split; [done|]. split.
  - apply branches_nonempty in Hb as [b' ->]. simpl. lia.
  - rewrite Ht, Hn. reflexivity.
Qed.

Lemma planned_start_time_formula_witness :
  ∃ b pst,
    calculate_planned_start_time 0 Fixture.t1 Fixture.shop
      = Ok tt (set_tasks (<[tid Fixture.t1 :=
                             set_planned_start_time (Some pst)
                               (task_state Fixture.shop Fixture.t1)]>
                            (tasks Fixture.shop)) Fixture.shop) ∧
    b ∈ branches Fixture.t1 ∧
    (∀ b', b' ∈ branches Fixture.t1 → (branch_time b' <= branch_time b)%Q) ∧
    (1 ≤ length b)%nat ∧
    (pst == due_date Fixture.o1 - branch_time b
            - PLANNED_START_TIME_ALLOWANCE (app_config Fixture.shop)
              * inject_Z (Z.of_nat (length b)))%Q.
Proof.
  apply (planned_start_time_formula Fixture.shop 0 Fixture.o1 Fixture.t1).
  reflexivity.
Defined.

(** The first task of plan 1 of the test: the branch T1, T2, T4, T5 takes
    3 + 2 + 3 + 4 and the order is due at 15, so the planned start is
    15 - 12 - 0.2 * 4 = 2.2. *)
Example planned_start_time_plan1 :
  Qred <$> planned_start_time
     (task_state (final (calculate_planned_start_time 0 Fixture.t1 Fixture.shop)) Fixture.t1)
  = Some (11 # 5).
Proof. reflexivity. Qed.

(** ** Sorting *)

Section PySortFacts.
Context {A K : Type} (lt : K → K → bool) (key : A → K).

Hypothesis lt_asym : ∀ a b, lt a b = true → lt b a = false.
Hypothesis le_trans : ∀ a b c, lt b a = false → lt c b = false → lt c a = false.

Lemma py_insert_Permutation x l : py_insert lt key x l ≡ₚ x :: l.
Proof.
  induction l as [|y l IH]; simpl; [done|].
  destruct (lt (key y) (key x)); [|done].
  rewrite IH. apply Permutation_swap.
Qed.

Lemma py_sort_Permutation l : py_sort lt key l ≡ₚ l.
Proof.
  induction l as [|x l IH]; simpl; [done|].
  rewrite py_insert_Permutation. by f_equiv.
Qed.

Lemma py_insert_sorted x l :
  StronglySorted (not_after lt key) l → StronglySorted (not_after lt key) (py_insert lt key x l).
Proof.
  induction 1 as [|y l Hs IH Hy]; simpl.
  - repeat constructor.
  - destruct (lt (key y) (key x)) eqn:E.
    + constructor; [done|].
      rewrite py_insert_Permutation. constructor; [|done].
      by apply lt_asym.
    + constructor; [by constructor|].
      constructor; [done|].
      eapply Forall_impl; [exact Hy|].
      intros z Hz. unfold not_after in *. by eapply le_trans.
Qed.

Lemma py_sort_sorted l : StronglySorted (not_after lt key) (py_sort lt key l).
Proof.
  induction l as [|x l IH]; simpl; [constructor|]. by apply py_insert_sorted.
Qed.
End PySortFacts.

Lemma key_lt_asym a b : key_lt a b = true → key_lt b a = false.
Proof.
  unfold key_lt. destruct a as [p x], b as [q y]; simpl.
  rewrite orb_true_iff, andb_true_iff, orb_false_iff, andb_false_iff.
  rewrite Z.ltb_lt, Z.eqb_eq, Qltb_lt, Z.ltb_ge, Z.eqb_neq, Qltb_ge.
  intros [?|[-> ?]]; (split; [lia|]); [left; lia|right; by apply Qlt_le_weak].
Qed.

Lemma key_lt_false a b :
  key_lt b a = false ↔ (a.1 < b.1)%Z ∨ (a.1 = b.1 ∧ (a.2 <= b.2)%Q).
Proof.
  unfold key_lt. destruct a as [p x], b as [q y]; simpl.
  rewrite orb_false_iff, andb_false_iff.
  rewrite Z.ltb_ge, Z.eqb_neq, Qltb_ge. split.
  - intros [? [?|?]]; [left; lia|].
    destruct (decide (p = q)) as [->|]; [by right | left; lia].
  - intros [?|[-> ?]]; (split; [lia|]); [left; lia | by right].
Qed.

Lemma key_le_trans a b c :
  key_lt b a = false → key_lt c b = false → key_lt c a = false.
Proof.
  rewrite !key_lt_false. intros [?|[? ?]] [?|[? ?]]; try (left; lia).
  right. split; [lia|]. by eapply Qle_trans.
Qed.

Lemma mapM_reads {A B} (f : A → M B) (l : list A) (w : World) :
  (∀ x, x ∈ l → ∃ y, f x w = Ok y w) →
  ∃ ys, mapM f l w = Ok ys w ∧ Forall2 (λ x y, f x w = Ok y w) l ys.
Proof.
  induction l as [|x l IH]; intros Hf.
  - exists []. by split; [|constructor].
  - destruct (Hf x) as [y Hy]; [left|].
    destruct IH as (ys & Hys & Hall); [intros; apply Hf; by right|].
    exists (y :: ys). split; [|by constructor].
    unfold mapM in *. rewrite (bind_Ok _ _ _ _ _ Hy), (bind_Ok _ _ _ _ _ Hys). done.
Qed.

Lemma StronglySorted_and {A} (R : relation A) (P : A → Prop) l :
  StronglySorted R l → Forall P l → StronglySorted (λ x y, R x y ∧ P x ∧ P y) l.
Proof.
  induction 1 as [|x l Hs IH Hx]; intros Hall; [constructor|].
  apply Forall_cons in Hall as [HPx Hall].
  constructor; [by apply IH|].
  rewrite Forall_forall in Hx, Hall |- *. naive_solver.
Qed.

(** Sorting the pool on keys read from the orders sorts it. *)
Lemma sort_pool_by_key (key : Order → Q) (f : nat → M (Z * Q * nat)) (w : World) :
  (∀ o, o ∈ order_list w →
        ∃ ord, orders w !! o = Some ord ∧ f o w = Ok ((priority ord, key ord), o) w) →
  ∃ l, (keyed <- mapM f (order_list w) ;;
        modify (set_order_list (snd <$> py_sort key_lt fst keyed))) w
       = Ok tt (set_order_list l w) ∧
       l ≡ₚ order_list w ∧ pool_sorted w key l.
Proof.
  intros Hf.
  destruct (mapM_reads f (order_list w) w) as (keyed & Hk & Hall).
  { intros o Ho. destruct (Hf o Ho) as (ord & _ & ->). eauto. }
  exists (snd <$> py_sort key_lt fst keyed). split; [|split].
  - by rewrite (bind_Ok _ _ _ _ _ Hk).
  - rewrite py_sort_Permutation.
    clear Hk. induction Hall as [|o k ol ks Hok _ IH]; [done|].
    simpl. rewrite IH; [|intros; apply Hf; by right].
    destruct (Hf o) as (ord & _ & Hfo); [left|]. rewrite Hfo in Hok. by injection Hok as <-.
  - set (P := λ e : Z * Q * nat,
               ∃ ord, orders w !! e.2 = Some ord ∧ e.1 = (priority ord, key ord)).
    assert (HP : Forall P keyed).
    { clear Hk. induction Hall as [|o k ol ks Hok _ IH]; [constructor|].
      constructor; [|apply IH; intros; apply Hf; by right].
      destruct (Hf o) as (ord & Hord & Hfo); [left|]. rewrite Hfo in Hok.
      injection Hok as <-. by exists ord. }
    rewrite <- (py_sort_Permutation key_lt fst keyed) in HP.
    pose proof (py_sort_sorted key_lt fst key_lt_asym key_le_trans keyed) as Hs.
    eapply StronglySorted_fmap, StronglySorted_and; [|exact Hs|exact HP].
    intros [k1 o1] [k2 o2] (Hle & Hp1 & Hp2). unfold P in Hp1, Hp2. simpl in *.
    destruct Hp1 as (a & Ha & ->), Hp2 as (b & Hb & ->).
    exists a, b. split; [done|]. split; [done|].
    unfold not_after in Hle. simpl in Hle. by apply key_lt_false in Hle.
Qed.



Example sort_orders_edd : order_list (final (sort_orders pool_21)) = [0; 1]%nat.
Proof. reflexivity. Qed.

(** ** Errors that are only logged *)

Lemma str_eqb_false a b : a ≠ b → str_eqb a b = false.
Proof. intros. by apply bool_decide_eq_false. Qed.

Lemma str_eqb_true a b : str_eqb a b = true ↔ a = b.
Proof. apply bool_decide_eq_true. Qed.

(** C9, as stated, fails: with an unknown rule [sort_orders] and [sort_tasks]
    return normally; the only effect is the message in the error log. *)
Lemma invalid_rule_returns_normally :
  pool_sequencing_rule misconfigured = "LIFO" ∧
  sort_orders misconfigured
    = Ok tt (set_error_log
               ["Invalid pool sequencing rule, please choose from FCFS, EDD, CR"]
               misconfigured) ∧
  dispatching_rule <$> station_list misconfigured !! 0%nat = Some "LIFO" ∧
  sort_tasks 0 misconfigured
    = Ok tt (set_error_log
               ["Invalid dispatching rule, please choose from FCFS, SPT, PST"]
               misconfigured).
Proof. repeat split. Qed.

(** C9, amended. With a rule outside FCFS, EDD, CR, [sort_orders] on a
    non-empty pool writes the configuration error to the error log and returns
    normally, the pool in the order it had (on an empty pool it does nothing
    at all); with a rule outside FCFS, SPT, PST, [sort_tasks] writes the error
    to the log and returns normally, the queue in the order it had. *)
Theorem invalid_rule_is_logged (w : World) :
  (pool_sequencing_rule w ∉ ["FCFS"; "EDD"; "CR"] →
   order_list w ≠ [] →
   sort_orders w
     = Ok tt (set_error_log
                (error_log w ++ ["Invalid pool sequencing rule, please choose from FCFS, EDD, CR"])
                w)) ∧
  (order_list w = [] → sort_orders w = Ok tt w) ∧
  (∀ i st, station_list w !! i = Some st →
           dispatching_rule st ∉ ["FCFS"; "SPT"; "PST"] →
           sort_tasks i w
             = Ok tt (set_error_log
                        (error_log w ++ ["Invalid dispatching rule, please choose from FCFS, SPT, PST"])
                        w)).
Proof.
  split; [|split].
  - intros Hrule Hne. unfold sort_orders. rewrite !bind_gets.
    destruct (order_list w); [done|].
    rewrite !str_eqb_false; [done|..]; intros E; apply Hrule; rewrite E; set_solver.
  - intros Hnil. unfold sort_orders. rewrite !bind_gets. by rewrite Hnil.
  - intros i st Hst Hrule. unfold sort_tasks.
    rewrite (bind_Ok _ _ _ _ _ (get_station_Ok _ _ _ Hst)).
    rewrite !str_eqb_false; [done|..]; intros E; apply Hrule; rewrite E; set_solver.
Qed.

Lemma invalid_rule_is_logged_witness :
  sort_orders misconfigured
    = Ok tt (set_error_log
               (error_log misconfigured
                ++ ["Invalid pool sequencing rule, please choose from FCFS, EDD, CR"])
               misconfigured) ∧
  sort_tasks 0 misconfigured
    = Ok tt (set_error_log
               (error_log misconfigured
                ++ ["Invalid dispatching rule, please choose from FCFS, SPT, PST"])
               misconfigured).
Proof.
  destruct (invalid_rule_is_logged misconfigured) as (Hpool & _ & Hqueue). split.
  - apply Hpool; [|discriminate]. apply (bool_decide_unpack _). reflexivity.
  - eapply Hqueue; [reflexivity|]. apply (bool_decide_unpack _). reflexivity.
Defined.

Lemma existsb_same_entry o task q :
  existsb (same_entry (o, task)) q = true ↔ ∃ t', (o, t') ∈ q ∧ tid t' = tid task.
Proof.
  rewrite existsb_exists. unfold same_entry, same_task. simpl. split.
  - intros ([o' t'] & Hin & H). apply list_elem_of_In in Hin.
    apply andb_true_iff in H as [->%Nat.eqb_eq H%Nat.eqb_eq]. simpl in *. eauto.
  - intros (t' & Hin & Ht). exists (o, t'). rewrite <- list_elem_of_In. split; [done|].
    simpl. rewrite Nat.eqb_refl. simpl. apply Nat.eqb_eq. done.
Qed.

(** C5, as stated, fails: station A-1 asked to process a task that is
    assigned to B-1, and asked to remove a task that is not in its queue,
    returns normally both times; the only effect is a message in the error
    log. *)
Lemma mismatch_returns_normally :
  process_task_start 0 0 Fixture.t1 misrouted
    = Ok Finished
        (set_error_log ["Task T1 of Order O-1 not assigned to the correct workstation."]
           misrouted) ∧
  remove_task 0 0 Fixture.t1 Fixture.shop
    = Ok tt
        (set_error_log
           ["Task T1 of Order O-1 is not in the task queue of workstation A-1!"]
           Fixture.shop).
Proof. split; reflexivity. Qed.

(** C5, amended. [process_task] on a station other than the one the task is
    assigned to writes a message naming the task and the order to the error
    log and ends at once; [remove_task] for a pair that is not in the queue of
    the station writes a message naming the task, the order and the station
    to the error log; in both cases no error is raised and nothing else
    changes. *)
Theorem mismatch_is_logged (w : World) (self o : nat) (task : Task)
    (st : Workstation) (ord : Order) :
  station_list w !! self = Some st →
  orders w !! o = Some ord →
  (∀ a ws, assigned_station (task_state w task) = Some a →
           station_list w !! a = Some ws →
           id ws ≠ id st →
           process_task_start self o task w
             = Ok Finished
                 (set_error_log
                    (error_log w ++ ["Task " +:+ task_name task +:+ " of Order " +:+ order_id ord
                                     +:+ " not assigned to the correct workstation."]) w)) ∧
  (¬ queued st o task →
   remove_task self o task w
     = Ok tt
         (set_error_log
            (error_log w ++ ["Task " +:+ task_name task +:+ " of Order " +:+ order_id ord
                             +:+ " is not in the task queue of workstation " +:+ id st +:+ "!"])
            w)).
Proof.
  intros Hst Hord. split.
  - intros a ws Ha Hws Hne. unfold process_task_start.
    rewrite (bind_Ok _ _ _ _ _ (get_station_Ok _ _ _ Hst)).
    rewrite (bind_Ok _ _ _ _ _ (get_order_Ok _ _ _ Hord)).
    unfold get_task. rewrite bind_gets, Ha. simpl deref. rewrite bind_ret.
    rewrite (bind_Ok _ _ _ _ _ (get_station_Ok _ _ _ Hws)).
    by rewrite str_eqb_false.
  - intros Hq. unfold remove_task.
    rewrite (bind_Ok _ _ _ _ _ (get_station_Ok _ _ _ Hst)).
    destruct (existsb _ _) eqn:E.
    { by apply existsb_same_entry in E. }
    by rewrite (bind_Ok _ _ _ _ _ (get_order_Ok _ _ _ Hord)).
Qed.

Lemma mismatch_is_logged_witness :
  process_task_start 0 0 Fixture.t1 misrouted
    = Ok Finished
        (set_error_log
           (error_log misrouted ++ ["Task " +:+ task_name Fixture.t1 +:+ " of Order "
                                    +:+ order_id Fixture.o1
                                    +:+ " not assigned to the correct workstation."])
           misrouted) ∧
  remove_task 0 0 Fixture.t1 misrouted
    = Ok tt
        (set_error_log
           (error_log misrouted ++ ["Task " +:+ task_name Fixture.t1 +:+ " of Order "
                                    +:+ order_id Fixture.o1
                                    +:+ " is not in the task queue of workstation "
                                    +:+ "A-1" +:+ "!"])
           misrouted).
Proof.
  destruct (mismatch_is_logged misrouted 0 0 Fixture.t1
              (attach "SPT" (new_workstation "A" "1" 0)) Fixture.o1
              eq_refl eq_refl) as [Hp Hr].
  split.
  - eapply Hp; [reflexivity|reflexivity|discriminate].
  - apply Hr. intros (t' & Hin & _). simpl in Hin. by apply elem_of_nil in Hin.
Defined.

(** ** Decrements of the indirect load *)

Lemma decrease_indirect_load_eq w a st ld err :
  station_list w !! a = Some st →
  decrease_indirect_load a ld err w =
  let x := (indirect_load st - ld)%Q in
  if Qltb x 0 && Qltb (Qabs x) tolerance then Ok tt (with_indirect_load a 0 w)
  else if Qltb x 0 then Raise err (with_indirect_load a x w)
  else Ok tt (with_indirect_load a x w).
Proof.
  intros Hst. unfold decrease_indirect_load.
  rewrite (bind_Ok _ _ _ _ _ (set_station_Ok _ _ _ _ Hst)).
  rewrite (alter_set_indirect_load a (λ s, indirect_load s - ld)%Q st) by done.
  fold (with_indirect_load a (indirect_load st - ld) w).
  pose proof (with_indirect_load_lookup a (indirect_load st - ld) w st Hst) as H1.
  rewrite (bind_Ok _ _ _ _ _ (get_station_Ok _ _ _ H1)).
  cbn [indirect_load set_indirect_load].
  destruct (Qltb (indirect_load st - ld) 0 && Qltb (Qabs (indirect_load st - ld)) tolerance) eqn:E.
  - rewrite (bind_Ok _ _ _ _ _ (set_station_Ok _ _ _ _ H1)).
    fold (with_indirect_load a 0 (with_indirect_load a (indirect_load st - ld) w)).
    rewrite with_indirect_load_twice.
    pose proof (with_indirect_load_lookup a 0 w st Hst) as H2.
    by rewrite (bind_Ok _ _ _ _ _ (get_station_Ok _ _ _ H2)).
  - rewrite bind_ret.
    rewrite (bind_Ok _ _ _ _ _ (get_station_Ok _ _ _ H1)).
    cbn [indirect_load set_indirect_load].
    by destruct (Qltb (indirect_load st - ld) 0).
Qed.




(** ** [add_task] for a task that is not ready *)

Lemma list_remove_absent task l :
  Forall (λ t, tid t ≠ tid task) l → list_remove same_task task l = None.
Proof.
  induction 1 as [|t l Ht _ IH]; [done|]. simpl. unfold same_task at 1.
  apply Nat.eqb_neq in Ht. by rewrite Ht, IH.
Qed.

Lemma calculate_load_Ok w task :
  depth (task_state w task) ≠ 0%Z →
  calculate_load task w
  = Ok (process_time task / inject_Z (depth (task_state w task)))%Q w.
Proof.
  intros Hd. unfold calculate_load, get_task. rewrite bind_gets.
  apply truediv_Ok. intros E. apply Hd.
  unfold Qeq in E. simpl in E. lia.
Qed.

Lemma task_state_planned w task p :
  task_state
    (set_tasks (<[tid task := set_planned_start_time p (task_state w task)]> (tasks w)) w)
    task
  = set_planned_start_time p (task_state w task).
Proof. unfold task_state at 1. simpl. by rewrite lookup_insert_eq. Qed.

(** C10. When [add_task] is called for a task that is not in
    [order.ready_tasks] (and whose depth is not zero), it raises; at that
    moment the indirect load of the station has been decremented by
    [process_time / depth] (and set to zero if that left it within the
    tolerance below zero), the queue of the station is as it was and so are
    the orders.  The error is the one of [list.remove], unless the decrement
    fell to [-1e-10] or below and raised first. *)
Theorem add_task_not_ready (w : World) (self o : nat) (task : Task)
    (st : Workstation) (ord : Order) :
  station_list w !! self = Some st →
  orders w !! o = Some ord →
  depth (task_state w task) ≠ 0%Z →
  Forall (λ t, tid t ≠ tid task) (ready_tasks ord) →
  let x := (indirect_load st - process_time task / inject_Z (depth (task_state w task)))%Q in
  ∃ e w' st',
    add_task self o task w = Raise e w' ∧
    station_list w' !! self = Some st' ∧
    ws_tasks_queue st' = ws_tasks_queue st ∧
    orders w' = orders w ∧
    ((- tolerance < x ∧ x < 0)%Q → indirect_load st' = 0%Q) ∧
    (¬ (- tolerance < x ∧ x < 0)%Q → indirect_load st' = x) ∧
    ((x <= - tolerance)%Q → e = ValueError "Station indirect load <0") ∧
    ((- tolerance < x)%Q → e = ValueError "list.remove(x): x not in list").
Proof.
  intros Hst Hord Hd Hready x.
  set (w1 := if orControlSystem st
             then set_tasks
                    (<[tid task :=
                         set_planned_start_time
                           (Some (due_date ord - (calculate_most_time_consuming_branch task).1
                                  - PLANNED_START_TIME_ALLOWANCE (app_config w)
                                    * inject_Z (calculate_most_time_consuming_branch task).2)%Q)
                           (task_state w task)]> (tasks w)) w
             else w).
  assert (Hpre : (if orControlSystem st then calculate_planned_start_time o task else ret tt) w
                 = Ok tt w1).
  { unfold w1. destruct (orControlSystem st); [|done].
    by apply calculate_planned_start_time_Ok. }
  assert (Hst1 : station_list w1 !! self = Some st).
  { unfold w1. by destruct (orControlSystem st). }
  assert (Hord1 : orders w1 = orders w).
  { unfold w1. by destruct (orControlSystem st). }
  assert (Hd1 : depth (task_state w1 task) = depth (task_state w task)).
  { unfold w1. destruct (orControlSystem st); [|done]. by rewrite task_state_planned. }
  unfold add_task.
  rewrite (bind_Ok _ _ _ _ _ (get_station_Ok _ _ _ Hst)).
  rewrite (bind_Ok _ _ _ _ _ Hpre).
  rewrite (bind_Ok _ _ _ _ _ (calculate_load_Ok w1 task ltac:(by rewrite Hd1))).
  rewrite Hd1. fold x.
  unfold bind at 1.
  rewrite (decrease_indirect_load_eq w1 self st _ _ Hst1). fold x. cbv zeta.
  destruct (Qltb x 0 && Qltb (Qabs x) tolerance) eqn:Hclip.
  - pose proof Hclip as Hc. apply clip_condition in Hc as [Hlo Hhi].
    assert (Ho2 : orders (with_indirect_load self 0 w1) !! o = Some ord)
      by (simpl; by rewrite Hord1).
    rewrite (bind_Ok _ _ _ _ _ (get_order_Ok _ _ _ Ho2)).
    rewrite (list_remove_absent _ _ Hready).
    eexists _, _, _. split; [reflexivity|].
    split; [by apply with_indirect_load_lookup|].
    split; [done|]. split; [done|]. split; [done|].
    split; [intros H; by destruct H|].
    split; [|done].
    intros Hx. exfalso. exact (Qlt_irrefl x (Qle_lt_trans _ _ _ Hx Hlo)).
  - apply not_true_iff_false in Hclip. rewrite clip_condition in Hclip.
    destruct (Qltb x 0) eqn:Hneg.
    + apply Qltb_lt in Hneg.
      eexists _, _, _. split; [reflexivity|].
      split; [by apply with_indirect_load_lookup|].
      split; [done|]. split; [done|]. split; [done|]. split; [done|].
      split; [done|].
      intros Hlo. exfalso. by apply Hclip.
    + apply Qltb_ge in Hneg.
      assert (Ho2 : orders (with_indirect_load self x w1) !! o = Some ord)
        by (simpl; by rewrite Hord1).
      rewrite (bind_Ok _ _ _ _ _ (get_order_Ok _ _ _ Ho2)).
      rewrite (list_remove_absent _ _ Hready).
      eexists _, _, _. split; [reflexivity|].
      split; [by apply with_indirect_load_lookup|].
      split; [done|]. split; [done|]. split; [done|]. split; [done|].
      split; [|done].
      intros Hx. exfalso. apply (Qlt_irrefl 0).
      eapply Qle_lt_trans; [exact Hneg|]. eapply Qle_lt_trans; [exact Hx|]. reflexivity.
Qed.

Lemma add_task_not_ready_witness :
  let x := (indirect_load (set_indirect_load 5 (attach "SPT" (new_workstation "B" "1" 1)))
            - process_time Fixture.t2
              / inject_Z (depth (task_state loaded_shop Fixture.t2)))%Q in
  ∃ e w' st',
    add_task 1 0 Fixture.t2 loaded_shop = Raise e w' ∧
    station_list w' !! 1%nat = Some st' ∧
    ws_tasks_queue st'
      = ws_tasks_queue (set_indirect_load 5 (attach "SPT" (new_workstation "B" "1" 1))) ∧
    orders w' = orders loaded_shop ∧
    ((- tolerance < x ∧ x < 0)%Q → indirect_load st' = 0%Q) ∧
    (¬ (- tolerance < x ∧ x < 0)%Q → indirect_load st' = x) ∧
    ((x <= - tolerance)%Q → e = ValueError "Station indirect load <0") ∧
    ((- tolerance < x)%Q → e = ValueError "list.remove(x): x not in list").
Proof.
  apply (add_task_not_ready loaded_shop 1 0 Fixture.t2
           (set_indirect_load 5 (attach "SPT" (new_workstation "B" "1" 1))) Fixture.o1).
  - reflexivity.
  - reflexivity.
  - discriminate.
  - repeat constructor; discriminate.
Defined.

(** There the load of T2 is 2 / 2: the station is left with 5 - 1 and an
    empty queue, and the error is the one of [list.remove]. *)
Example add_task_not_ready_run :
  ∃ w' st', add_task 1 0 Fixture.t2 loaded_shop
              = Raise (ValueError "list.remove(x): x not in list") w' ∧
            station_list w' !! 1%nat = Some st' ∧
            (indirect_load st' == 4)%Q ∧ ws_tasks_queue st' = [].
Proof. eexists _, _. split; [reflexivity|]. split; [reflexivity|]. split; reflexivity. Qed.

(** ** Completion of an order *)

Lemma NoDup_fmap_eq {A B} (f : A → B) (l : list A) x y :
  NoDup (f <$> l) → x ∈ l → y ∈ l → f x = f y → x = y.
Proof.
  induction l as [|z l IH]; intros Hnd Hx Hy Hf; [by apply elem_of_nil in Hx|].
  rewrite fmap_cons in Hnd. apply NoDup_cons in Hnd as [Hz Hnd].
  apply elem_of_cons in Hx as [->|Hx]; apply elem_of_cons in Hy as [->|Hy]; try done.
  - exfalso. apply Hz. rewrite Hf. by apply list_elem_of_fmap_2.
  - exfalso. apply Hz. rewrite <- Hf. by apply list_elem_of_fmap_2.
  - by apply IH.
Qed.

(** With distinct names, and nothing but tasks of the plan completed,
    [is_finished] tells whether all tasks are completed. *)
Lemma is_finished_all_completed ord :
  NoDup (task_name <$> flat_plan ord) →
  (∀ t, t ∈ completed_tasks ord → t ∈ flat_plan ord) →
  is_finished ord = true ↔ all_completed ord.
Proof.
  intros Hnames Hsub. unfold is_finished, all_completed.
  rewrite bool_decide_eq_true. split.
  - intros Heq t Ht.
    assert (task_name t ∈ (list_to_set (task_name <$> completed_tasks ord) : gset string)) as Hn.
    { rewrite Heq. apply elem_of_list_to_set. by apply list_elem_of_fmap_2. }
    apply elem_of_list_to_set, list_elem_of_fmap in Hn as (t' & Hname & Ht').
    assert (t = t') as ->; [|done].
    eapply (NoDup_fmap_eq task_name); eauto.
  - intros Hall. apply set_eq. intros n. rewrite !elem_of_list_to_set, !list_elem_of_fmap.
    split; intros (t & -> & Ht); exists t; auto.
Qed.

Lemma set_add_task_elem_of flat task s t :
  NoDup (tid <$> flat) → (∀ x, x ∈ s → x ∈ flat) → task ∈ flat →
  t ∈ set_add_task task s ↔ t = task ∨ t ∈ s.
Proof.
  intros Hids Hsub Htask. unfold set_add_task.
  destruct (existsb (same_task task) s) eqn:E.
  - apply existsb_exists in E as (x & Hx & Hsame). apply list_elem_of_In in Hx.
    apply Nat.eqb_eq in Hsame.
    assert (task = x) as <- by (eapply (NoDup_fmap_eq tid); eauto).
    split; [by right|]. by intros [->|?].
  - rewrite elem_of_app, list_elem_of_singleton. tauto.
Qed.

Lemma alter_lookup_insert {A} (f : A → A) (l : list A) i x :
  l !! i = Some x → alter f i l = <[i := f x]> l.
Proof.
  intros H. rewrite list_insert_alter. apply list_alter_ext; [|done]. congruence.
Qed.

Lemma set_ready_tasks_id ord : set_ready_tasks (ready_tasks ord) ord = ord.
Proof. by destruct ord. Qed.

(** The loop of [mark_task_as_completed] appends the children to the ready
    tasks. *)
Lemma append_children_Ok o (l : list Task) w ord :
  orders w !! o = Some ord →
  for_each l (λ child_task,
    set_order o (λ ord, set_ready_tasks (ready_tasks ord ++ [child_task]) ord)) w
  = Ok tt (set_orders (<[o := set_ready_tasks (ready_tasks ord ++ l) ord]> (orders w)) w).
Proof.
  revert w ord. induction l as [|c l IH]; intros w ord Ho.
  - simpl. unfold ret. f_equal. rewrite app_nil_r, set_ready_tasks_id.
    by rewrite list_insert_id, set_orders_id.
  - rewrite for_each_cons.
    rewrite (bind_Ok _ _ _ _ _ (set_order_Ok _ _ _ _ Ho)).
    rewrite (alter_lookup_insert _ _ _ _ Ho).
    erewrite IH.
    2:{ simpl. apply list_lookup_insert_eq. exact (lookup_lt_Some _ _ _ Ho). }
    simpl orders. rewrite list_insert_insert_eq, set_orders_twice. do 3 f_equal.
    destruct ord; unfold set_ready_tasks; simpl. by rewrite <- app_assoc.
Qed.

Lemma mark_task_as_completed_Ok w self o task ord :
  orders w !! o = Some ord →
  mark_task_as_completed self o task w =
  Ok tt (if is_finished (marked task ord)
         then set_events
                (events w ++ [mkLogEvent (now w) "N/A" (order_id ord) "N/A" "Order Finished"])
                (set_orders (<[o := set_finish_time (now w) (marked task ord)]> (orders w)) w)
         else set_orders (<[o := marked task ord]> (orders w)) w).
Proof.
  intros Ho. unfold mark_task_as_completed.
  assert (Hlt : (o < length (orders w))%nat) by exact (lookup_lt_Some _ _ _ Ho).
  rewrite (bind_Ok _ _ _ _ _ (set_order_Ok _ _ _ _ Ho)).
  rewrite (alter_lookup_insert _ _ _ _ Ho).
  set (ord1 := set_completed_tasks (set_add_task task (completed_tasks ord)) ord).
  set (w1 := set_orders (<[o := ord1]> (orders w)) w).
  assert (H1 : orders w1 !! o = Some ord1) by by apply list_lookup_insert_eq.
  rewrite (bind_Ok _ _ _ _ _ (append_children_Ok o (next_steps task) w1 ord1 H1)).
  fold (marked task ord).
  set (w2 := set_orders (<[o := marked task ord]> (orders w1)) w1).
  assert (H2 : orders w2 !! o = Some (marked task ord)).
  { apply list_lookup_insert_eq. unfold w1. simpl. by rewrite length_insert. }
  rewrite (bind_Ok _ _ _ _ _ (get_order_Ok _ _ _ H2)).
  assert (E2 : w2 = set_orders (<[o := marked task ord]> (orders w)) w).
  { unfold w2, w1. simpl orders. by rewrite list_insert_insert_eq. }
  destruct (is_finished (marked task ord)).
  - rewrite bind_gets.
    rewrite (bind_Ok _ _ _ _ _ (set_order_Ok _ _ _ _ H2)).
    rewrite (alter_lookup_insert _ _ _ _ H2).
    unfold log_event, modify. f_equal. rewrite E2. simpl.
    unfold set_events, set_orders. simpl. by rewrite list_insert_insert_eq.
  - unfold ret. by rewrite E2.
Qed.

Lemma flat_plan_marked task ord : flat_plan (marked task ord) = flat_plan ord.
Proof. reflexivity. Qed.

(** One completion keeps the invariant, and sets the finish time to the
    clock when it completes the order. *)
Lemma completion_step ord task (t_now : Q) :
  NoDup (task_name <$> flat_plan ord) →
  NoDup (tid <$> flat_plan ord) →
  (∀ t, t ∈ completed_tasks ord → t ∈ flat_plan ord) →
  task ∈ flat_plan ord →
  (0 < t_now)%Q →
  ((0 < finish_time ord)%Q ↔ all_completed ord) →
  let ord' := if is_finished (marked task ord)
              then set_finish_time t_now (marked task ord) else marked task ord in
  ((0 < finish_time ord')%Q ↔ all_completed ord') ∧
  (∀ t, t ∈ completed_tasks ord' → t ∈ flat_plan ord') ∧
  (all_completed ord' → finish_time ord' = t_now).
Proof.
  intros Hnames Hids Hsub Htask Hnow Hinv.
  assert (Hadd : ∀ t, t ∈ completed_tasks (marked task ord) ↔ t = task ∨ t ∈ completed_tasks ord).
  { intros t. simpl. by eapply set_add_task_elem_of. }
  assert (Hsub' : ∀ t, t ∈ completed_tasks (marked task ord) → t ∈ flat_plan (marked task ord)).
  { intros t [->|Ht]%Hadd; [done|]. by apply Hsub. }
  pose proof (is_finished_all_completed (marked task ord) Hnames Hsub') as Hfin.
  destruct (is_finished (marked task ord)) eqn:E; cbv zeta.
  - assert (Hall : all_completed (marked task ord)) by by apply Hfin.
    split; [|split]; [|done|done].
    split; [|done]. intros _ t Ht. by apply Hall.
  - assert (Hnot : ¬ all_completed (marked task ord)).
    { intros Hall. apply Hfin in Hall. congruence. }
    split; [|split]; [|done|done].
    split; [|done]. intros Hpos. exfalso. apply Hnot.
    intros t Ht. apply Hadd. right. by apply Hinv.
Qed.

Lemma observed_invariant o w :
  observed o w →
  ∀ ord, orders w !! o = Some ord →
         flat_plan ord ≠ [] →
         NoDup (task_name <$> flat_plan ord) →
         NoDup (tid <$> flat_plan ord) →
         ((0 < finish_time ord)%Q ↔ all_completed ord) ∧
         (∀ t, t ∈ completed_tasks ord → t ∈ flat_plan ord).
Proof.
  induction 1 as [w ord0 Ho Hfin Hdone | w ord0 self task Hobs IH Ho Htask Hnow
                 | w w' Hobs IH Hview]; intros ord Hord Hne Hnames Hids.
  - assert (ord = ord0) as -> by congruence.
    rewrite Hfin. unfold all_completed. rewrite Hdone. split.
    + split; [intros H; by apply Qlt_irrefl in H|].
      intros Hall. destruct (flat_plan ord0) as [|t l] eqn:E; [done|].
      exfalso. eapply not_elem_of_nil, (Hall t). left.
    + intros t Ht. by apply elem_of_nil in Ht.
  - rewrite (mark_task_as_completed_Ok w self o task ord0 Ho) in Hord.
    assert (Hlt : (o < length (orders w))%nat) by exact (lookup_lt_Some _ _ _ Ho).
    assert (ord = if is_finished (marked task ord0)
                  then set_finish_time (now w) (marked task ord0) else marked task ord0) as ->.
    { destruct (is_finished (marked task ord0)); simpl in Hord;
        rewrite list_lookup_insert_eq in Hord by done; congruence. }
    assert (Hplan : flat_plan (if is_finished (marked task ord0)
                               then set_finish_time (now w) (marked task ord0)
                               else marked task ord0) = flat_plan ord0)
      by by destruct (is_finished (marked task ord0)).
    rewrite Hplan in Hne, Hnames, Hids.
    destruct (IH ord0 Ho Hne Hnames Hids) as [Hinv Hsub].
    destruct (completion_step ord0 task (now w) Hnames Hids Hsub Htask Hnow Hinv)
      as (Hinv' & Hsub' & _).
    done.
  - rewrite Hord in Hview. simpl in Hview.
    destruct (orders w !! o) as [ord0|] eqn:Ho; [|done].
    unfold completion_view in Hview. inversion Hview as [[Hid Hplan Hfin Hdone]].
    assert (Hflat : flat_plan ord = flat_plan ord0) by (unfold flat_plan; by rewrite Hplan).
    rewrite Hflat in Hne, Hnames, Hids |- *.
    destruct (IH ord0 eq_refl Hne Hnames Hids) as [Hinv Hsub].
    unfold all_completed in *. rewrite Hflat, Hfin, Hdone. done.
Qed.

Global Instance same_completion_preorder : PreOrder same_completion.
Proof.
  split.
  - by intros w.
  - intros w1 w2 w3 (Hn1 & He1 & Ho1) (Hn2 & He2 & Ho2).
    split; [congruence|]. split; [by etrans|congruence].
Qed.

Lemma completion_view_bookkeeping f (l : list Order) o :
  bookkeeping f → completion_view <$> alter f o l = completion_view <$> l.
Proof.
  intros Hf. rewrite (list_fmap_alter completion_view f (λ v, v)).
  - by apply list_alter_id.
  - apply Forall_forall. intros ord _. destruct (Hf ord) as (r & lc & ->). done.
Qed.

Global Instance same_completion_steady : Steady same_completion.
Proof.
  split; try done; try (by intros; split; [|split]).
  - exact same_completion_preorder.
  - intros w l. split; [done|]. split; [|done]. simpl. by apply prefix_app_r.
  - intros w o f Hf. split; [done|]. split; [done|]. simpl.
    by apply completion_view_bookkeeping.
Qed.

(** Two orders with the same completion view are completed together. *)
Lemma all_completed_view a b :
  completion_view a = completion_view b → all_completed a → all_completed b.
Proof.
  unfold completion_view, all_completed, flat_plan. intros [= _ -> _ ->]. done.
Qed.

Lemma same_completion_lookup w w' o ord' :
  same_completion w w' → orders w' !! o = Some ord' →
  ∃ ord, orders w !! o = Some ord ∧ completion_view ord = completion_view ord'.
Proof.
  intros (_ & _ & Hview) Ho.
  assert (H : completion_view <$> orders w !! o = Some (completion_view ord')).
  { rewrite <- list_lookup_fmap, <- Hview, list_lookup_fmap. by rewrite Ho. }
  destruct (orders w !! o) as [ord|]; [|done]. exists ord. split; [done|].
  simpl in H. congruence.
Qed.

(** [remove_task], followed by anything that leaves completion alone: if the
    order is complete afterwards and was not before, its finish time is the
    clock. *)
Lemma remove_task_finish_time (post : M unit) w self o task st ord :
  preserves same_completion post →
  station_list w !! self = Some st →
  orders w !! o = Some ord →
  NoDup (task_name <$> flat_plan ord) →
  NoDup (tid <$> flat_plan ord) →
  (∀ t, t ∈ completed_tasks ord → t ∈ flat_plan ord) →
  task ∈ flat_plan ord →
  ¬ all_completed ord →
  ∀ ord', orders (final ((remove_task self o task ;;; post) w)) !! o = Some ord' →
          all_completed ord' →
          finish_time ord' = now w.
Proof.
  intros Hpost Hst Ho Hnames Hids Hsub Htask Hnot ord' Ho' Hall.
  assert (Hlt : (o < length (orders w))%nat) by exact (lookup_lt_Some _ _ _ Ho).
  revert Ho'. unfold remove_task.
  rewrite bind_assoc, (bind_Ok _ _ _ _ _ (get_station_Ok _ _ _ Hst)).
  destruct (existsb _ _).
  - set (ord4 := if is_finished (marked task ord)
                 then set_finish_time (now w) (marked task ord) else marked task ord).
    set (w4 := if is_finished (marked task ord)
               then set_events
                      (events w ++ [mkLogEvent (now w) "N/A" (order_id ord) "N/A" "Order Finished"])
                      (set_orders (<[o := set_finish_time (now w) (marked task ord)]> (orders w)) w)
               else set_orders (<[o := marked task ord]> (orders w)) w).
    assert (Hmark : mark_task_as_completed self o task w = Ok tt w4)
      by by apply mark_task_as_completed_Ok.
    assert (Ho4 : orders w4 !! o = Some ord4).
    { unfold w4, ord4. destruct (is_finished _); simpl; by apply list_lookup_insert_eq. }
    rewrite bind_assoc, (bind_Ok _ _ _ _ _ Hmark).
    match goal with
    | |- orders (final (?c w4)) !! o = Some ord' → _ =>
        assert (Hrest : preserves same_completion c) by frame;
        specialize (Hrest w4); destruct (c w4) as [[] w5|e w5]; simpl in *
    end.
    all: intros Ho'.
    all: destruct (same_completion_lookup _ _ _ _ Hrest Ho') as (x & Hx & Hview).
    all: rewrite Ho4 in Hx; injection Hx as <-.
    all: assert (Hall4 : all_completed ord4) by (by eapply all_completed_view).
    all: assert (Hfin : finish_time ord4 = finish_time ord')
      by (unfold completion_view in Hview; congruence).
    all: rewrite <- Hfin.
    all: unfold ord4 in *; destruct (is_finished (marked task ord)) eqn:E; [done|].
    all: exfalso; eapply (is_finished_all_completed (marked task ord)) in Hall4; try done;
      try congruence.
    all: intros t Ht; simpl in Ht;
      eapply (set_add_task_elem_of (flat_plan ord)) in Ht as [->|Ht]; eauto.
  - match goal with
    | |- orders (final (?c w)) !! o = Some ord' → _ =>
        assert (Hrest : preserves same_completion c) by frame;
        specialize (Hrest w); intros Ho'
    end.
    destruct (same_completion_lookup _ _ _ _ Hrest Ho') as (x & Hx & Hview).
    exfalso. apply Hnot. rewrite Ho in Hx. injection Hx as <-.
    eapply all_completed_view; [|exact Hall]. done.
Qed.

Global Instance log_grows_preorder : PreOrder log_grows.
Proof.
  split.
  - by intros w.
  - intros w1 w2 w3 [Hn1 He1] [Hn2 He2]. split; [congruence|by etrans].
Qed.

Global Instance log_grows_steady : Steady log_grows.
Proof.
  split; try done.
  - exact log_grows_preorder.
  - intros w l. split; [done|]. simpl. by apply prefix_app_r.
Qed.

Lemma log_grows_any_order w o f :
  log_grows w (set_orders (alter f o (orders w)) w).
Proof. by split. Qed.



(** There the order finishes at 5. *)
Example finish_time_of_last_task :
  finish_time <$> orders (final (process_task_resume 0 0 last_task last_task_shop)) !! 0%nat
  = Some 5%Q.
Proof. reflexivity. Qed.

(** ** The admission test *)

(** The dictionary of the current loads. *)
Lemma station_loads_lookup (sl : list Workstation) (s : Workstation) :
  NoDup (id <$> sl) → s ∈ sl →
  foldl (λ m ws, <[id ws := current_load ws]> m) (∅ : gmap string Q) sl !! id s
  = Some (current_load s).
Proof.
  intros Hnd Hs.
  assert (Hgen : ∀ (m : gmap string Q),
            foldl (λ m ws, <[id ws := current_load ws]> m) m sl !! id s
            = Some (current_load s)); [|apply Hgen].
  induction sl as [|a sl IH]; intros m; [by apply elem_of_nil in Hs|].
  rewrite fmap_cons in Hnd. apply NoDup_cons in Hnd as [Ha Hnd]. simpl.
  apply elem_of_cons in Hs as [->|Hs]; [|by apply IH].
  clear IH. revert m Ha. induction sl as [|b sl IH]; intros m Ha; simpl.
  - by rewrite lookup_insert_eq.
  - rewrite fmap_cons, not_elem_of_cons in Ha. destruct Ha as [Hne Ha].
    apply NoDup_cons in Hnd as [_ Hnd].
    rewrite insert_insert_ne by done. by apply IH.
Qed.

(** The inner loop of [estimate_load_contribution] adds the loads of one
    dictionary to the entry of the station. *)
Lemma estimate_inner_Ok (k : string) (l : list (string * Contribution))
    (est : gmap string Q) (x : Q) w :
  est !! k = Some x →
  ∃ x', foldM (λ (estimated_loads : gmap string Q) '(_, data),
                 match estimated_loads !! k with
                 | Some x => ret (<[k := (x + load data)%Q]> estimated_loads)
                 | None => raise (KeyError k)
                 end) est l w
        = Ok (<[k := x']> est) w ∧
        (x' == x + foldr (λ kv acc, load kv.2 + acc) 0 l)%Q.
Proof.
  revert est x. induction l as [|[n d] l IH]; intros est x Hx.
  - exists x. split; [|simpl; lra]. rewrite foldM_nil. unfold ret. by rewrite insert_id.
  - rewrite foldM_cons. rewrite Hx. rewrite bind_ret.
    destruct (IH (<[k := (x + load d)%Q]> est) (x + load d)%Q) as (x' & Hrun & Hsum).
    { by rewrite lookup_insert_eq. }
    exists x'. split.
    + rewrite Hrun. by rewrite insert_insert_eq.
    + rewrite Hsum. simpl. lra.
Qed.

Lemma estimate_outer_Ok (L : list (string * gmap string Contribution))
    (est : gmap string Q) w :
  (∀ k tks, (k, tks) ∈ L → is_Some (est !! k)) →
  ∃ est',
    foldM (λ estimated_loads '(station_id, tks),
             foldM (λ (estimated_loads : gmap string Q) '(_, data),
                      match estimated_loads !! station_id with
                      | Some x => ret (<[station_id := (x + load data)%Q]> estimated_loads)
                      | None => raise (KeyError station_id)
                      end)
                   estimated_loads (map_to_list tks)) est L w
    = Ok est' w ∧
    ∀ k, match est !! k with
         | Some x => ∃ x', est' !! k = Some x' ∧ (x' == x + list_contribution L k)%Q
         | None => est' !! k = None
         end.
Proof.
  revert est. induction L as [|[k tks] L IH]; intros est Hkeys.
  - exists est. split; [done|]. intros k. destruct (est !! k) as [x|]; [|done].
    exists x. split; [done|]. simpl. lra.
  - rewrite foldM_cons.
    destruct (Hkeys k tks) as [x Hx]; [left|].
    destruct (estimate_inner_Ok k (map_to_list tks) est x w Hx) as (x1 & Hrun & Hsum).
    rewrite (bind_Ok _ _ _ _ _ Hrun).
    destruct (IH (<[k := x1]> est)) as (est' & Hrun' & Hest').
    { intros k' tks' Hin. destruct (decide (k = k')) as [->|Hne].
      - rewrite lookup_insert_eq. eauto.
      - rewrite lookup_insert_ne by done. eapply Hkeys. by right. }
    exists est'. split; [done|]. intros k'. specialize (Hest' k').
    destruct (decide (k = k')) as [->|Hne].
    + rewrite lookup_insert_eq in Hest'. rewrite Hx.
      destruct Hest' as (x' & Hx' & Hsum'). exists x'. split; [done|].
      rewrite Hsum', Hsum. simpl. rewrite bool_decide_eq_true_2 by done.
      unfold contributions_sum. lra.
    + rewrite lookup_insert_ne in Hest' by done.
      destruct (est !! k') as [y|]; [|done].
      destruct Hest' as (x' & Hx' & Hsum'). exists x'. split; [done|].
      rewrite Hsum'. simpl. by rewrite bool_decide_eq_false_2.
Qed.

(** For the list of the entries of a dictionary of dictionaries, the
    contribution to a station is the sum of its dictionary. *)
Lemma list_contribution_map (lc : gmap string (gmap string Contribution)) k :
  (list_contribution (map_to_list lc) k == contributions_sum (default ∅ (lc !! k)))%Q.
Proof.
  assert (Hgen : ∀ L : list (string * gmap string Contribution),
            NoDup L.*1 →
            (list_contribution L k
             == contributions_sum
                  (default ∅ ((λ r, r.2.2) <$> list_find (λ e, e.1 = k) L)))%Q).
  { induction L as [|[k' tks] L IH]; intros Hnd; [reflexivity|].
    rewrite fmap_cons in Hnd. apply NoDup_cons in Hnd as [Hk' Hnd]. simpl.
    destruct (decide (k' = k)) as [->|Hne].
    - rewrite bool_decide_eq_true_2 by done. simpl.
      assert (list_contribution L k == 0)%Q as ->; [|lra].
      clear IH Hnd. induction L as [|[k2 t2] L IH]; [reflexivity|]. simpl.
      rewrite fmap_cons, not_elem_of_cons in Hk'. destruct Hk' as [Hne Hk'].
      simpl in Hne. rewrite bool_decide_eq_false_2 by congruence. by apply IH.
    - rewrite bool_decide_eq_false_2 by done. rewrite (IH Hnd).
      destruct (list_find _ L) as [[i e]|]; reflexivity. }
  rewrite (Hgen _ (NoDup_fst_map_to_list lc)).
  destruct (list_find _ _) as [[i [k' tks]]|] eqn:E; simpl.
  - apply list_find_Some in E as (Hin & Hk & _). simpl in Hk. subst k'.
    apply list_elem_of_lookup_2, elem_of_map_to_list in Hin. by rewrite Hin.
  - destruct (lc !! k) as [tks|] eqn:Hlc; [|reflexivity].
    exfalso. apply elem_of_map_to_list in Hlc.
    eapply list_find_None in E. rewrite Forall_forall in E. by apply (E _ Hlc).
Qed.

Lemma Qltb_comp a b b' : (b == b')%Q → Qltb a b = Qltb a b'.
Proof. intros H. unfold Qltb. by rewrite H. Qed.

(** The loop that collects the overloaded stations. *)
Lemma overloaded_loop (norm : Q) (f : Workstation → Q) (est loads : gmap string Q)
    (sl : list Workstation) (acc : list (string * Q)) w :
  (∀ s, s ∈ sl → ∃ e, est !! id s = Some e ∧ (e == f s)%Q ∧
                      loads !! id s = Some (current_load s)) →
  foldM (λ acc ws,
           match est !! id ws, loads !! id ws with
           | Some e, Some l => ret (if Qltb norm e then acc ++ [(id ws, l)] else acc)
           | _, _ => raise (KeyError (id ws))
           end) acc sl w
  = Ok (acc ++ ((λ s, (id s, current_load s)) <$> List.filter (λ s, Qltb norm (f s)) sl)) w.
Proof.
  revert acc. induction sl as [|s sl IH]; intros acc H.
  - rewrite foldM_nil. simpl. by rewrite app_nil_r.
  - rewrite foldM_cons. destruct (H s) as (e & -> & He & ->); [left|].
    rewrite bind_ret, IH by (intros; apply H; by right).
    simpl. rewrite (Qltb_comp _ _ _ He).
    destruct (Qltb norm (f s)); [|done]. simpl. by rewrite <- app_assoc.
Qed.



Example can_release_order_accepts :
  can_release_order 0 routed_shop = Ok (true, []) routed_shop.
Proof. vm_compute. reflexivity. Qed.

Example can_release_order_rejects :
  ∃ l, can_release_order 0 tight_shop = Ok (false, l) tight_shop ∧ l.*1 = ["A-1"].
Proof. eexists. split; vm_compute; reflexivity. Qed.

(** ** Continuous release *)

Lemma get_next_ready_tasks_eq ord : get_next_ready_tasks ord = ready_tasks ord.
Proof. unfold get_next_ready_tasks. by destruct (ready_tasks ord). Qed.

(** The scan of the pool stops at the first order with a ready task of the
    type of the station. *)
Lemma release_first_match_scan (stn : nat) (st : Workstation) (l : list nat) w :
  station_list w !! stn = Some st →
  Forall (λ o, is_Some (orders w !! o)) l →
  release_first_match stn l w =
  match first_match w (type_id st) l with
  | Some (o, next_task) => release_matched stn o next_task w
  | None => Ok tt w
  end.
Proof.
  intros Hst. induction 1 as [|o l [ord Ho] _ IH]; [done|].
  simpl. rewrite Ho. simpl.
  rewrite (bind_Ok _ _ _ _ _ (get_order_Ok _ _ _ Ho)).
  rewrite (bind_Ok _ _ _ _ _ (get_station_Ok _ _ _ Hst)).
  rewrite get_next_ready_tasks_eq.
  destruct (List.find _ (ready_tasks ord)) as [next_task|]; [|done].
  unfold release_matched.
  rewrite (bind_Ok _ _ _ _ _ (get_order_Ok _ _ _ Ho)).
  by rewrite (bind_Ok _ _ _ _ _ (get_station_Ok _ _ _ Hst)).
Qed.

(** Routing one task writes its station, and nothing else; a task of the type
    of the triggering station goes to that station. *)
Lemma route_task_Ok trig task w w' :
  route_task trig task w = Ok tt w' →
  ∃ r, w' = set_tasks (<[tid task := set_assigned_station r (task_state w task)]> (tasks w)) w ∧
       ∀ stn st, trig = Some stn → station_list w !! stn = Some st →
                 station task = type_id st → r = Some stn.
Proof.
  unfold route_task. intros H.
  apply bind_Ok_inv in H as (forced & w1 & Hforced & H).
  assert (w1 = w ∧ ∀ stn st, trig = Some stn → station_list w !! stn = Some st →
                             forced = str_eqb (station task) (type_id st)) as [-> Hf].
  { destruct trig as [stn|].
    - apply bind_Ok_inv in Hforced as (ts & w2 & [-> Hts]%get_station_Ok_inv & [= <- <-]).
      split; [done|]. intros ? ? [= <-] ?. congruence.
    - injection Hforced as <- <-. split; [done|]. intros ? ? [=]. }
  destruct forced.
  - injection H as <-. eexists. split; [done|]. by intros ? ? -> _ _.
  - rewrite bind_gets in H. destruct (filter _ _) as [|c cs]; [done|].
    simpl in H. injection H as <-. eexists. split; [done|].
    intros stn st Htrig Hst Hty. specialize (Hf stn st Htrig Hst).
    symmetry in Hf. apply str_eqb_false_iff in Hf. done.
Qed.

Lemma set_tasks_twice m m' w : set_tasks m (set_tasks m' w) = set_tasks m w.
Proof. reflexivity. Qed.

Lemma set_tasks_id w : set_tasks (tasks w) w = w.
Proof. by destruct w. Qed.

(** The routing loop writes stations of tasks only; with a triggering station
    every task of its type ends up assigned to it. *)
Lemma routing_loop trig (l : list Task) w w' :
  NoDup (tid <$> l) →
  for_each l (route_task trig) w = Ok tt w' →
  (∃ m, w' = set_tasks m w) ∧
  (∀ t, tid t ∉ tid <$> l → task_state w' t = task_state w t) ∧
  (∀ stn st t, trig = Some stn → station_list w !! stn = Some st →
               t ∈ l → station t = type_id st →
               assigned_station (task_state w' t) = Some stn).
Proof.
  revert w. induction l as [|a l IH]; intros w Hnd Hrun.
  - injection Hrun as <-. split; [exists (tasks w); by rewrite set_tasks_id|].
    split; [done|]. intros ? ? t _ _ Ht. by apply elem_of_nil in Ht.
  - rewrite fmap_cons in Hnd. apply NoDup_cons in Hnd as [Ha Hnd].
    rewrite for_each_cons in Hrun.
    apply bind_Ok_inv in Hrun as ([] & w1 & Hstep & Hrun).
    apply route_task_Ok in Hstep as (r & -> & Hforced).
    destruct (IH _ Hnd Hrun) as ([m ->] & Hother & Hmatch).
    split; [by eexists|]. split.
    + intros t Ht. rewrite fmap_cons, not_elem_of_cons in Ht. destruct Ht as [Hne Ht].
      rewrite (Hother t Ht). unfold task_state. simpl. by rewrite lookup_insert_ne.
    + intros stn st t Htrig Hst Ht Hty.
      apply elem_of_cons in Ht as [->|Ht].
      * rewrite (Hother a Ha). unfold task_state at 1. simpl. rewrite lookup_insert_eq.
        simpl. by eapply Hforced.
      * by eapply Hmatch.
Qed.

Lemma preserves_Ok {A} (R : relation World) (c : M A) w a w' :
  preserves R c → c w = Ok a w' → R w w'.
Proof. intros H E. specialize (H w). by rewrite E in H. Qed.

Lemma assigned_station_same_tid w t t' :
  tid t = tid t' →
  assigned_station (task_state w t) = assigned_station (task_state w t').
Proof. intros E. unfold task_state. rewrite E. by destruct (tasks w !! tid t'). Qed.

Global Instance routing_kept_preorder : PreOrder routing_kept.
Proof.
  split.
  - by intros w.
  - intros w1 w2 w3 [Hp1 Ha1] [Hp2 Ha2]. split; [congruence|].
    intros t. by rewrite Ha2.
Qed.

Global Instance routing_kept_steady : Steady routing_kept.
Proof.
  split; try done.
  - exact routing_kept_preorder.
  - intros w t f Hf. split; [done|]. intros t'. unfold task_state at 1. simpl.
    destruct (decide (tid t = tid t')) as [E|Hne].
    + rewrite E, lookup_insert_eq. simpl. rewrite Hf. by apply assigned_station_same_tid.
    + by rewrite lookup_insert_ne.
Qed.

Global Instance shop_kept_preorder : PreOrder shop_kept.
Proof.
  split.
  - by intros w.
  - intros w1 w2 w3 (?&?&?&?&?&?) (?&?&?&?&?&?). repeat split; congruence.
Qed.

Lemma preserves_sort_orders : preserves shop_kept sort_orders.
Proof.
  unfold sort_orders.
  assert (∀ l, preserves shop_kept (modify (set_order_list l))) by by intros l w.
  assert (∀ m, preserves shop_kept (log_error m)) by by intros m w.
  frame.
Qed.

(** Sorting a list on keys that come with its elements permutes it. *)
Lemma sorted_keyed_Permutation {K} (f : nat → M (K * nat)) (lt : K → K → bool)
    (l : list nat) (keyed : list (K * nat)) w w' :
  (∀ o k o' w1 w2, f o w1 = Ok (k, o') w2 → o' = o ∧ w2 = w1) →
  mapM f l w = Ok keyed w' →
  w' = w ∧ snd <$> py_sort lt fst keyed ≡ₚ l.
Proof.
  intros Hf. revert keyed. induction l as [|o l IH]; intros keyed Hrun.
  - injection Hrun as <- <-. done.
  - unfold mapM in Hrun. fold (mapM f l) in Hrun.
    apply bind_Ok_inv in Hrun as ([k o'] & w1 & Ho & Hrun).
    apply Hf in Ho as [-> ->].
    apply bind_Ok_inv in Hrun as (ys & w2 & Hys & [= <- <-]).
    destruct (IH ys Hys) as [-> Hperm]. split; [done|].
    rewrite py_sort_Permutation. simpl. f_equiv.
    by rewrite <- Hperm, (py_sort_Permutation lt fst ys).
Qed.

Lemma sort_orders_Permutation w ws :
  sort_orders w = Ok tt ws → order_list ws ≡ₚ order_list w.
Proof.
  unfold sort_orders. rewrite !bind_gets.
  destruct (order_list w) as [|o0 l0] eqn:Hol; [by intros [= <-]; rewrite Hol|].
  rewrite <- Hol.
  assert (Hgen : ∀ f : nat → M (Z * Q * nat),
            (∀ o k o' w1 w2, f o w1 = Ok (k, o') w2 → o' = o ∧ w2 = w1) →
            (keyed <- mapM f (order_list w) ;;
             modify (set_order_list (snd <$> py_sort key_lt fst keyed))) w = Ok tt ws →
            order_list ws ≡ₚ order_list w).
  { intros f Hf Hrun. apply bind_Ok_inv in Hrun as (keyed & w1 & Hk & [= <-]).
    by destruct (sorted_keyed_Permutation f key_lt _ _ _ _ Hf Hk) as [-> Hperm]. }
  destruct (str_eqb _ "FCFS"); [|destruct (str_eqb _ "EDD"); [|destruct (str_eqb _ "CR")]].
  - apply Hgen. intros o k o' w1 w2 H.
    apply bind_Ok_inv in H as (ord & w3 & [-> _]%get_order_Ok_inv & [= _ <- <-]). done.
  - apply Hgen. intros o k o' w1 w2 H.
    apply bind_Ok_inv in H as (ord & w3 & [-> _]%get_order_Ok_inv & [= _ <- <-]). done.
  - apply Hgen. intros o k o' w1 w2 H.
    apply bind_Ok_inv in H as (ord & w3 & [-> _]%get_order_Ok_inv & H).
    rewrite bind_gets in H.
    apply bind_Ok_inv in H as (cr & w4 & Hcr & [= _ <- <-]).
    unfold truediv in Hcr. destruct (Qeq_bool _ _); [done|]. by injection Hcr as _ <-.
  - intros [= <-]. done.
Qed.

Lemma list_remove_eq_Some {A} (eqb : A → A → bool) x l l' :
  list_remove eqb x l = Some l' → length l = S (length l').
Proof.
  revert l'. induction l as [|y l IH]; intros l'; [done|]. simpl.
  destruct (eqb y x); [by intros [= <-]|].
  destruct (list_remove eqb x l) as [l1|]; [|done].
  intros [= <-]. simpl. by rewrite (IH l1).
Qed.

(** What the release of a matched order has done when it returns. *)
Lemma release_matched_Ok stn st o next_task ord w w' :
  station_list w !! stn = Some st →
  orders w !! o = Some ord →
  NoDup (tid <$> flat_plan ord) →
  release_matched stn o next_task w = Ok tt w' →
  list_remove Nat.eqb o (order_list w) = Some (order_list w') ∧
  (∃ st', station_list w' !! stn = Some st' ∧ idle_event st' ∈ triggered w') ∧
  (∀ t, t ∈ flat_plan ord → station t = type_id st →
        assigned_station (task_state w' t) = Some stn).
Proof.
  intros Hst Ho Hnd. unfold release_matched.
  rewrite (bind_Ok _ _ _ _ _ (get_order_Ok _ _ _ Ho)).
  rewrite (bind_Ok _ _ _ _ _ (get_station_Ok _ _ _ Hst)).
  rewrite bind_gets. unfold log_event at 1. rewrite bind_modify.
  set (w0 := set_events _ w). intros H.
  apply bind_Ok_inv in H as ([] & w2 & Hroute & H).
  apply bind_Ok_inv in H as ([] & w3 & Hrelease & H).
  apply bind_Ok_inv in H as ([] & w4 & Hremove & H).
  apply bind_Ok_inv in H as (st4 & w5 & [-> Hst4]%get_station_Ok_inv & Hfire).
  (* routing *)
  unfold set_detailed_routing in Hroute.
  apply bind_Ok_inv in Hroute as (ord0 & w0' & [-> Ho0]%get_order_Ok_inv & Hroute).
  assert (ord0 = ord) as -> by (unfold w0 in Ho0; simpl in Ho0; congruence).
  apply bind_Ok_inv in Hroute as ([] & w1 & Hloop & Hcompute).
  destruct (routing_loop _ _ _ _ Hnd Hloop) as ([m ->] & _ & Hforced).
  pose proof (preserves_Ok routing_kept _ _ _ _
                (preserves_compute_load_contributions routing_kept o) Hcompute) as [Hp2 Ha2].
  pose proof (preserves_Ok routing_kept _ _ _ _
                (preserves_release_order routing_kept o) Hrelease) as [Hp3 Ha3].
  (* removal from the pool *)
  unfold pool_remove_order in Hremove. rewrite bind_gets in Hremove.
  destruct (list_remove Nat.eqb o (order_list w3)) as [l'|] eqn:Hrem; [|done].
  injection Hremove as <-.
  (* the event *)
  unfold succeed in Hfire. destruct (bool_decide _); [done|]. injection Hfire as <-.
  split; [|split].
  - simpl. rewrite <- Hrem. f_equal. rewrite Hp3, Hp2. done.
  - exists st4. split; [done|]. simpl. set_solver.
  - intros t Ht Hty. simpl.
    change (assigned_station (task_state w3 t) = Some stn).
    rewrite Ha3, Ha2. by eapply (Hforced stn st).
Qed.




(** When A-2 reports idle, order O-3 is released to it: it leaves the pool,
    its task is in the queue of A-2, and the idle event of A-2 has fired.  With
    a norm of 2 the release happens all the same, and leaves A-2 with a load
    of 3. *)
Example continuous_release_run :
  continuous_release 1 idle_reported = Ok tt after_idle ∧
  order_list idle_reported = [0%nat] ∧ order_list after_idle = [] ∧
  continuous_release 1 (with_norm 2 idle_reported) = Ok tt (with_norm 2 after_idle) ∧
  (λ s, (ws_tasks_queue s, Qred (current_load s), bool_decide (idle_event s ∈ triggered after_idle)))
    <$> station_list after_idle !! 1%nat
  = Some ([(0%nat, z1)], 3%Q, true).
Proof. repeat split; vm_compute; reflexivity. Qed.

(** ** Load contributions after routing *)

(** C1 does not hold of the code: [compute_load_contributions] writes into
    the mapping it finds, it does not start from an empty one.  In the shop
    with the stations A-1 and A-2, the periodic release at time 4 routes the
    task of O-3 to A-1 and rejects the order, which stays in the pool.  At time
    8 station A-2 completes its task and reports idle; the continuous release
    routes the task of O-3 to A-2 and releases the order.  [load_contributions]
    of O-3 then holds the entry for A-2 and, left over from the first routing,
    the entry for A-1, whereas the mapping rebuilt from scratch holds the entry
    for A-2 only; and A-1 has been charged an indirect load of 3 for a task
    that will never come to it. *)
Theorem stale_contribution_after_rerouting :
  periodic_release_round two_stations = Ok tt after_round ∧
  order_list after_round = [0%nat] ∧
  assigned_station (task_state after_round z1) = Some 0%nat ∧
  load_contributions <$> orders after_round !! 0%nat
    = Some {[ "A-1" := {[ "T1" := mkContribution 3 1 ]} ]} ∧
  process_task_resume 1 2 y1 (set_now 8 after_round) = Ok tt after_completion ∧
  start_processing_turn 1 after_completion = Ok (WaitEvent 2) after_idle ∧
  assigned_station (task_state after_idle z1) = Some 1%nat ∧
  load_contributions <$> orders after_idle !! 0%nat
    = Some {[ "A-1" := {[ "T1" := mkContribution 3 1 ]};
              "A-2" := {[ "T1" := mkContribution 3 1 ]} ]} ∧
  rebuilt_contributions after_idle <$> orders after_idle !! 0%nat
    = Some {[ "A-2" := {[ "T1" := mkContribution 3 1 ]} ]} ∧
  (λ s, (ws_tasks_queue s, indirect_load s)) <$> station_list after_idle !! 0%nat
    = Some ([(1%nat, x1)], 3%Q).
Proof. repeat split; vm_compute; reflexivity. Qed.

Lemma set_load_contributions_id ord :
  set_load_contributions (load_contributions ord) ord = ord.
Proof. by destruct ord. Qed.

(** The loop of [compute_load_contributions] adds the contributions of the
    tasks, one after the other, to the mapping it started with. *)
Lemma contributions_loop o ord w (l : list Task) m w' :
  (o < length (orders w))%nat →
  for_each l (λ task,
    s <- get_task task ;;
    if (0 <? depth s)%Z then
      ld <- calculate_load task ;;
      a <- deref (assigned_station s) ;;
      st <- get_station a ;;
      set_order o (λ ord,
        set_load_contributions
          (lc_insert (id st) (task_name task) (mkContribution ld (depth s))
             (load_contributions ord)) ord)
    else ret tt)
    (set_orders (<[o := set_load_contributions m ord]> (orders w)) w) = Ok tt w' →
  w' = set_orders
         (<[o := set_load_contributions (foldl (contribution_of w) m l) ord]> (orders w)) w.
Proof.
  intros Hlt. revert m. induction l as [|t l IH]; intros m Hrun.
  - by injection Hrun as <-.
  - rewrite for_each_cons in Hrun.
    apply bind_Ok_inv in Hrun as ([] & w1 & Hstep & Hrun).
    simpl. apply IH. rewrite <- Hrun. f_equal. clear Hrun IH.
    unfold get_task in Hstep. rewrite bind_gets in Hstep.
    unfold contribution_of.
    change (task_state (set_orders _ w) t) with (task_state w t) in Hstep.
    destruct (0 <? depth (task_state w t))%Z eqn:Hd; [|by injection Hstep as <-].
    apply bind_Ok_inv in Hstep as (ld & w2 & Hld & Hstep).
    unfold calculate_load, get_task in Hld. rewrite bind_gets in Hld.
    change (task_state (set_orders _ w) t) with (task_state w t) in Hld.
    unfold truediv in Hld. destruct (Qeq_bool _ _); [done|]. injection Hld as <- <-.
    destruct (assigned_station (task_state w t)) as [a|]; [|done].
    cbn [deref] in Hstep. rewrite bind_ret in Hstep.
    apply bind_Ok_inv in Hstep as (st & w3 & [-> Hst]%get_station_Ok_inv & Hstep).
    simpl in Hst. simpl. rewrite Hst.
    erewrite set_order_Ok in Hstep by (simpl; by apply list_lookup_insert_eq).
    injection Hstep as <-. simpl.
    erewrite alter_lookup_insert by by apply list_lookup_insert_eq.
    by rewrite list_insert_insert_eq.
Qed.

Lemma compute_load_contributions_Ok_inv o ord w w' :
  orders w !! o = Some ord →
  compute_load_contributions o w = Ok tt w' →
  w' = set_orders
         (<[o := set_load_contributions
                   (foldl (contribution_of w) (load_contributions ord) (flat_plan ord)) ord]>
            (orders w)) w.
Proof.
  intros Ho. unfold compute_load_contributions.
  rewrite (bind_Ok _ _ _ _ _ (get_order_Ok _ _ _ Ho)). intros Hrun.
  apply (contributions_loop o ord w (flat_plan ord) (load_contributions ord)).
  - exact (lookup_lt_Some _ _ _ Ho).
  - by rewrite set_load_contributions_id, list_insert_id, set_orders_id.
Qed.

Lemma routing_loop_tasks trig (l : list Task) w w' :
  for_each l (route_task trig) w = Ok tt w' → ∃ m, w' = set_tasks m w.
Proof.
  revert w. induction l as [|a l IH]; intros w Hrun.
  - injection Hrun as <-. exists (tasks w). by rewrite set_tasks_id.
  - rewrite for_each_cons in Hrun.
    apply bind_Ok_inv in Hrun as ([] & w1 & Hstep & Hrun).
    apply route_task_Ok in Hstep as (r & -> & _).
    destruct (IH _ Hrun) as [m ->]. by eexists.
Qed.

(** What [set_detailed_routing] leaves in [load_contributions]: the mapping
    that was there, with the contributions of the tasks added or overwritten;
    it is the mapping rebuilt from scratch when the mapping that was there was
    empty, as it is the first time an order is routed. *)
Lemma routing_adds_contributions w o trig ord w' :
  orders w !! o = Some ord →
  set_detailed_routing o trig w = Ok tt w' →
  ∃ ord', orders w' !! o = Some ord' ∧
          flat_plan ord' = flat_plan ord ∧
          load_contributions ord'
          = foldl (contribution_of w') (load_contributions ord) (flat_plan ord) ∧
          (load_contributions ord = ∅ →
           load_contributions ord' = rebuilt_contributions w' ord').
Proof.
  intros Ho. unfold set_detailed_routing.
  rewrite (bind_Ok _ _ _ _ _ (get_order_Ok _ _ _ Ho)). intros Hrun.
  apply bind_Ok_inv in Hrun as ([] & w1 & Hloop & Hcompute).
  apply routing_loop_tasks in Hloop as [m ->].
  apply (compute_load_contributions_Ok_inv o ord) in Hcompute; [|done].
  rewrite Hcompute. eexists. split.
  { simpl. apply list_lookup_insert_eq. exact (lookup_lt_Some _ _ _ Ho). }
  split; [done|]. split; [done|].
  intros Hempty. simpl. rewrite Hempty. done.
Qed.

(** ** The pre-shop pool *)

Lemma list_remove_first (o : nat) (l1 l2 : list nat) :
  o ∉ l1 → list_remove Nat.eqb o (l1 ++ o :: l2) = Some (l1 ++ l2).
Proof.
  induction l1 as [|y l1 IH]; intros Hno; simpl.
  - by rewrite Nat.eqb_refl.
  - apply not_elem_of_cons in Hno as [Hne Hno].
    destruct (Nat.eqb_spec y o) as [->|_]; [done|].
    by rewrite IH.
Qed.

Lemma list_remove_not_in (o : nat) (l : list nat) :
  o ∉ l → list_remove Nat.eqb o l = None.
Proof.
  induction l as [|y l IH]; intros Hno; simpl; [done|].
  apply not_elem_of_cons in Hno as [Hne Hno].
  destruct (Nat.eqb_spec y o) as [->|_]; [done|].
  by rewrite IH.
Qed.

(** X1. [PreShopPool.remove_order] removes the first occurrence of the order
    from the pool and nothing else; for an order that is not in the pool it
    raises [ValueError] ([list.remove(x): x not in list]) and leaves the pool
    as it is. *)
Theorem pool_remove_order_first (w : World) (o : nat) :
  (o ∉ order_list w →
   pool_remove_order o w = Raise (ValueError "list.remove(x): x not in list") w) ∧
  (∀ l1 l2, order_list w = l1 ++ o :: l2 → o ∉ l1 →
            pool_remove_order o w = Ok tt (set_order_list (l1 ++ l2) w)).
Proof.
  split.
  - intros Hno. unfold pool_remove_order. rewrite bind_gets.
    by rewrite list_remove_not_in.
  - intros l1 l2 Hl Hno. unfold pool_remove_order. rewrite bind_gets, Hl.
    by rewrite list_remove_first.
Qed.

Lemma pool_remove_order_first_witness :
  pool_remove_order 2 pool_21 = Raise (ValueError "list.remove(x): x not in list") pool_21 ∧
  pool_remove_order 0 pool_21 = Ok tt (set_order_list ([1%nat] ++ []) pool_21).
Proof.
  split.
  - apply (proj1 (pool_remove_order_first pool_21 2)).
    apply (bool_decide_unpack _). reflexivity.
  - apply (proj2 (pool_remove_order_first pool_21 0) [1%nat] []); [reflexivity|].
    apply (bool_decide_unpack _). reflexivity.
Defined.

(** X2. An order that arrives in the pool ([PreShopPool.add_order]) is
    appended at its end and the arrival is logged with the current time; when
    it is removed again ([PreShopPool.remove_order]) the pool is as it was
    before the arrival, provided the order was not in the pool already. *)
Theorem pool_add_remove_round_trip (w : World) (o : nat) (ord : Order) :
  orders w !! o = Some ord →
  o ∉ order_list w →
  let arrival := mkLogEvent (now w) "N/A" (order_id ord) "N/A" "Order Arrival" in
  pool_add_order o w
  = Ok tt (set_events (events w ++ [arrival]) (set_order_list (order_list w ++ [o]) w)) ∧
  (pool_add_order o ;;; pool_remove_order o) w
  = Ok tt (set_events (events w ++ [arrival]) w).
Proof.
  intros Hord Hno arrival.
  assert (Hadd : pool_add_order o w
    = Ok tt (set_events (events w ++ [arrival]) (set_order_list (order_list w ++ [o]) w))).
  { unfold pool_add_order. rewrite bind_modify.
    rewrite (bind_Ok _ _ _ _ _
               (get_order_Ok (set_order_list (order_list w ++ [o]) w) _ _ Hord)).
    by rewrite bind_gets. }
  split; [done|].
  rewrite (bind_Ok _ _ _ _ _ Hadd).
  unfold pool_remove_order. rewrite bind_gets. cbn [order_list set_events set_order_list].
  rewrite (list_remove_first o (order_list w) [] Hno), app_nil_r.
  unfold modify. by destruct w.
Qed.

Lemma pool_add_remove_round_trip_witness :
  let arrival := mkLogEvent (now Fixture.shop) "N/A" (order_id Fixture.o1) "N/A" "Order Arrival" in
  pool_add_order 0 Fixture.shop
  = Ok tt (set_events (events Fixture.shop ++ [arrival])
             (set_order_list (order_list Fixture.shop ++ [0%nat]) Fixture.shop)) ∧
  (pool_add_order 0 ;;; pool_remove_order 0) Fixture.shop
  = Ok tt (set_events (events Fixture.shop ++ [arrival]) Fixture.shop).
Proof.
  apply (pool_add_remove_round_trip Fixture.shop 0 Fixture.o1); [reflexivity|].
  apply (bool_decide_unpack _). reflexivity.
Defined.

(** ** More on sorting *)

Section PySortMore.
Context {A K : Type} (lt : K → K → bool) (key : A → K).

(** A sorted list is left as it is. *)
Lemma py_sort_sorted_id l :
  StronglySorted (not_after lt key) l → py_sort lt key l = l.
Proof.
  induction 1 as [|x l Hs IH Hx]; [done|].
  simpl. rewrite IH. destruct l as [|y l']; [done|].
  simpl. apply Forall_cons in Hx as [Hxy _]. unfold not_after in Hxy. by rewrite Hxy.
Qed.

(** The sort is stable: elements none of which is smaller than another keep
    their order. *)
Lemma py_insert_filter (P : A → Prop) `{!∀ x, Decision (P x)} x l :
  (∀ y, y ∈ l → P x → P y → lt (key y) (key x) = false) →
  filter P (py_insert lt key x l) = filter P (x :: l).
Proof.
  induction l as [|y l IH]; intros Htie; [done|].
  simpl. destruct (lt (key y) (key x)) eqn:E; [|done].
  rewrite !filter_cons. rewrite IH; [|intros; apply Htie; [by right|done..]].
  rewrite filter_cons.
  destruct (decide (P x)) as [Hx|]; [|done].
  destruct (decide (P y)) as [Hy|]; [|done].
  rewrite Htie in E; [done|by left|done..].
Qed.

Lemma py_sort_stable (P : A → Prop) `{!∀ x, Decision (P x)} l :
  (∀ x y, P x → P y → lt (key y) (key x) = false) →
  filter P (py_sort lt key l) = filter P l.
Proof.
  intros Htie. induction l as [|x l IH]; [done|].
  simpl. rewrite py_insert_filter; [|by auto].
  rewrite !filter_cons. by rewrite IH.
Qed.
End PySortMore.

(** Sorting pairs of a key and an element on the key is sorting the elements
    on the key that the pairs carry. *)
Lemma py_insert_keyed {A B K K'} (g : A → B) (lt' : K' → K' → bool) (key' : B → K')
    (lt : K → K → bool) (key : A → K) x (l : list A) :
  (∀ y, y ∈ l → lt' (key' (g y)) (key' (g x)) = lt (key y) (key x)) →
  py_insert lt' key' (g x) (g <$> l) = g <$> py_insert lt key x l.
Proof.
  induction l as [|y l IH]; intros Hk; [done|].
  rewrite fmap_cons. cbn [py_insert].
  rewrite Hk by left. destruct (lt (key y) (key x)); [|done].
  rewrite fmap_cons. by rewrite IH by (intros; apply Hk; by right).
Qed.

Lemma py_sort_keyed {A B K K'} (g : A → B) (lt' : K' → K' → bool) (key' : B → K')
    (lt : K → K → bool) (key : A → K) (l : list A) :
  (∀ x y, x ∈ l → y ∈ l → lt' (key' (g y)) (key' (g x)) = lt (key y) (key x)) →
  py_sort lt' key' (g <$> l) = g <$> py_sort lt key l.
Proof.
  induction l as [|x l IH]; intros Hk; [done|].
  rewrite fmap_cons. cbn [py_sort foldr]. fold (py_sort lt' key' (g <$> l)).
  fold (py_sort lt key l).
  rewrite IH by (intros; apply Hk; by right).
  apply py_insert_keyed. intros y Hy. apply Hk; [by left|].
  right. by rewrite <- (py_sort_Permutation lt key l).
Qed.

(** A comprehension whose elements are read from the world without changing
    it. *)
Lemma mapM_pure {A B} (f : A → M B) (g : A → B) (l : list A) (w : World) :
  (∀ x, x ∈ l → f x w = Ok (g x) w) → mapM f l w = Ok (g <$> l) w.
Proof.
  induction l as [|x l IH]; intros Hf; [done|].
  unfold mapM in *. rewrite (bind_Ok _ _ _ _ _ (Hf x ltac:(left))).
  by rewrite (bind_Ok _ _ _ _ _ (IH (λ y Hy, Hf y ltac:(by right)))).
Qed.

Lemma tied_not_after a b k : tied a k = true → tied b k = true → key_lt b a = false.
Proof.
  unfold tied. rewrite !andb_true_iff, !negb_true_iff. intros [_ Hka] [Hbk _].
  by eapply key_le_trans.
Qed.

Lemma key_lt_priority p q : key_lt (p, 0%Q) (q, 0%Q) = (p <? q)%Z.
Proof. unfold key_lt. simpl. destruct (p <? q)%Z, (p =? q)%Z; reflexivity. Qed.

(** What [sort_tasks] does to the queue of a station, for the three
    dispatching rules. *)
Lemma sort_tasks_eq w self st :
  station_list w !! self = Some st →
  dispatching_rule st ∈ ["FCFS"; "SPT"; "PST"] →
  Forall (λ e, is_Some (orders w !! e.1)) (ws_tasks_queue st) →
  (dispatching_rule st = "PST" →
   Forall (λ e, is_Some (planned_start_time (task_state w e.2))) (ws_tasks_queue st) ∨
   Forall (λ e, planned_start_time (task_state w e.2) = None) (ws_tasks_queue st)) →
  sort_tasks self w
  = Ok tt (set_station_list
             (alter (set_ws_tasks_queue
                       (py_sort key_lt (dispatch_key (dispatching_rule st) w)
                          (ws_tasks_queue st)))
                self (station_list w)) w).
Proof.
  intros Hst Hrule Hrefs Hpst. rewrite Forall_forall in Hrefs.
  unfold sort_tasks. rewrite (bind_Ok _ _ _ _ _ (get_station_Ok _ _ _ Hst)).
  cbv zeta.
  set (prio := λ e : nat * Task, default 0%Z (priority <$> orders w !! e.1)).
  assert (Hprio : ∀ e, e ∈ ws_tasks_queue st →
                       ∃ ord, orders w !! e.1 = Some ord ∧ prio e = priority ord).
  { intros e He. destruct (Hrefs e He) as [ord Hord]. exists ord. split; [done|].
    unfold prio. by rewrite Hord. }
  apply elem_of_cons in Hrule as [Hr|Hrule]; [|apply elem_of_cons in Hrule as [Hr|Hrule]];
    [| |apply list_elem_of_singleton in Hrule as Hr]; rewrite Hr; simpl.
  - erewrite bind_Ok; cycle 1.
    { apply (mapM_pure _ (λ e, (prio e, e))). intros e He.
      destruct (Hprio e He) as (ord & Hord & ->).
      by rewrite (bind_Ok _ _ _ _ _ (get_order_Ok _ _ _ Hord)). }
    rewrite (set_station_Ok _ _ _ _ Hst). do 4 f_equal.
    rewrite (py_sort_keyed (λ e, (prio e, e)) Z.ltb fst key_lt (dispatch_key "FCFS" w)).
    + rewrite <- list_fmap_compose. apply list_fmap_id.
    + intros x y _ _. simpl. unfold dispatch_key. simpl. by rewrite key_lt_priority.
  - erewrite bind_Ok; cycle 1.
    { apply (mapM_pure _ (λ e, ((prio e, process_time e.2), e))). intros e He.
      destruct (Hprio e He) as (ord & Hord & ->).
      by rewrite (bind_Ok _ _ _ _ _ (get_order_Ok _ _ _ Hord)). }
    rewrite (set_station_Ok _ _ _ _ Hst). do 4 f_equal.
    rewrite (py_sort_keyed (λ e, ((prio e, process_time e.2), e)) key_lt fst
               key_lt (dispatch_key "SPT" w)).
    + rewrite <- list_fmap_compose. apply list_fmap_id.
    + by intros x y _ _.
  - set (g := λ e : nat * Task, ((prio e, planned_start_time (task_state w e.2)), e)).
    erewrite bind_Ok; cycle 1.
    { apply (mapM_pure _ g). intros e He.
      destruct (Hprio e He) as (ord & Hord & Hp).
      rewrite (bind_Ok _ _ _ _ _ (get_order_Ok _ _ _ Hord)).
      unfold get_task. rewrite bind_gets. unfold g. by rewrite Hp. }
    destruct (forallb _ (g <$> ws_tasks_queue st)) eqn:Hnone.
    + rewrite (set_station_Ok _ _ _ _ Hst). do 4 f_equal.
      rewrite forallb_forall in Hnone.
      rewrite (py_sort_keyed g Z.ltb (λ k, k.1.1) key_lt (dispatch_key "PST" w)).
      * rewrite <- list_fmap_compose. apply list_fmap_id.
      * intros x y Hx Hy. simpl. unfold dispatch_key. simpl.
        assert (Hn : ∀ e, e ∈ ws_tasks_queue st →
                          planned_start_time (task_state w e.2) = None).
        { intros e He. specialize (Hnone (g e)).
          rewrite <- list_elem_of_In in Hnone.
          specialize (Hnone (list_elem_of_fmap_2 g _ _ He)).
          by apply bool_decide_eq_true in Hnone. }
        rewrite (Hn x Hx), (Hn y Hy). simpl. by rewrite key_lt_priority.
    + destruct (Hpst Hr) as [Hall|Hall].
      * assert (Hsome : forallb (λ k : Z * option Q * (nat * Task),
                                   bool_decide (is_Some k.1.2))
                                (g <$> ws_tasks_queue st) = true).
        { apply forallb_forall. intros k Hk. rewrite <- list_elem_of_In in Hk.
          apply list_elem_of_fmap in Hk as (e & -> & He).
          rewrite Forall_forall in Hall. apply bool_decide_eq_true. by apply Hall. }
        rewrite Hsome. rewrite (set_station_Ok _ _ _ _ Hst). do 4 f_equal.
        rewrite (py_sort_keyed g key_lt (λ k, (k.1.1, default 0%Q k.1.2))
                   key_lt (dispatch_key "PST" w)).
        -- rewrite <- list_fmap_compose. apply list_fmap_id.
        -- by intros x y _ _.
      * exfalso. assert (Ht : forallb (λ k : Z * option Q * (nat * Task),
                                         bool_decide (k.1.2 = None))
                                      (g <$> ws_tasks_queue st) = true);
          [|by rewrite Ht in Hnone].
        apply forallb_forall. intros k Hk. rewrite <- list_elem_of_In in Hk.
        apply list_elem_of_fmap in Hk as (e & -> & He).
        rewrite Forall_forall in Hall. apply bool_decide_eq_true. by apply Hall.
Qed.

Lemma sorted_key_le {A} (key : A → Z * Q) (l : list A) :
  StronglySorted (not_after key_lt key) l →
  StronglySorted (λ a b, key_le (key a) (key b)) l.
Proof.
  induction 1 as [|x l Hs IH Hx]; constructor; [done|].
  eapply Forall_impl; [exact Hx|]. intros b H. unfold not_after in H.
  by apply key_lt_false in H.
Qed.

(** X3. For the dispatching rules FCFS, SPT and PST, [sort_tasks] rearranges
    the queue of the station and changes nothing else: the queue holds the
    same entries, ordered by the priority of their orders ascending and, among
    equal priorities, by nothing more (FCFS), by process time (SPT) or by
    planned start time (PST); entries whose keys are tied keep the order in
    which they stood, so that within a priority FCFS serves in the order of
    arrival at the station.  (Under PST the planned start times of the queued
    tasks are either all set or all unset.) *)
Theorem sort_tasks_stable_sort (w : World) (self : nat) (st : Workstation) :
  station_list w !! self = Some st →
  dispatching_rule st ∈ ["FCFS"; "SPT"; "PST"] →
  Forall (λ e, is_Some (orders w !! e.1)) (ws_tasks_queue st) →
  (dispatching_rule st = "PST" →
   Forall (λ e, is_Some (planned_start_time (task_state w e.2))) (ws_tasks_queue st) ∨
   Forall (λ e, planned_start_time (task_state w e.2) = None) (ws_tasks_queue st)) →
  let key := dispatch_key (dispatching_rule st) w in
  ∃ q,
    sort_tasks self w
    = Ok tt (set_station_list (alter (set_ws_tasks_queue q) self (station_list w)) w) ∧
    q ≡ₚ ws_tasks_queue st ∧
    StronglySorted (λ a b, key_le (key a) (key b)) q ∧
    ∀ k, filter (λ e, tied (key e) k = true) q
         = filter (λ e, tied (key e) k = true) (ws_tasks_queue st).
Proof.
  intros Hst Hrule Hrefs Hpst key.
  exists (py_sort key_lt key (ws_tasks_queue st)). split; [|split; [|split]].
  - by apply sort_tasks_eq.
  - apply py_sort_Permutation.
  - apply sorted_key_le, py_sort_sorted; [exact key_lt_asym|exact key_le_trans].
  - intros k. apply py_sort_stable. intros x y Hx Hy. by eapply tied_not_after.
Qed.

Lemma sort_tasks_stable_sort_witness :
  ∃ st,
    station_list two_queued !! 0%nat = Some st ∧
    let key := dispatch_key (dispatching_rule st) two_queued in
    ∃ q,
      sort_tasks 0 two_queued
      = Ok tt (set_station_list
                 (alter (set_ws_tasks_queue q) 0 (station_list two_queued)) two_queued) ∧
      q ≡ₚ ws_tasks_queue st ∧
      StronglySorted (λ a b, key_le (key a) (key b)) q ∧
      ∀ k, filter (λ e, tied (key e) k = true) q
           = filter (λ e, tied (key e) k = true) (ws_tasks_queue st).
Proof.
  eexists. split; [reflexivity|].
  apply (sort_tasks_stable_sort two_queued 0).
  - reflexivity.
  - right; left.
  - repeat constructor; eexists; reflexivity.
  - intros H. discriminate H.
Defined.

(** Under SPT the task of 2 time units overtakes the task of 3. *)
Example sort_tasks_spt :
  ws_tasks_queue <$> station_list (final (sort_tasks 0 two_queued)) !! 0%nat
  = Some [(1%nat, Fixture.u1); (0%nat, Fixture.t1)].
Proof. reflexivity. Qed.

(** What [sort_orders] does to the pool, for the three sequencing rules. *)
Lemma sort_orders_eq w :
  pool_sequencing_rule w ∈ ["FCFS"; "EDD"; "CR"] →
  Forall (λ o, is_Some (orders w !! o)) (order_list w) →
  (pool_sequencing_rule w = "CR" →
   Forall (λ o, ∀ ord, orders w !! o = Some ord → ¬ (total_process_time ord == 0)%Q)
          (order_list w)) →
  sort_orders w = Ok tt (set_order_list (py_sort key_lt (pool_key w) (order_list w)) w).
Proof.
  intros Hrule Hrefs Hcr. rewrite Forall_forall in Hrefs.
  unfold sort_orders. rewrite !bind_gets.
  destruct (order_list w) as [|o0 ol0] eqn:Hol.
  { simpl. rewrite <- Hol. by rewrite set_order_list_id. }
  rewrite <- Hol in *.
  assert (Hsort : ∀ l : list nat,
            snd <$> py_sort key_lt fst ((λ o, (pool_key w o, o)) <$> l)
            = py_sort key_lt (pool_key w) l).
  { intros l. rewrite (py_sort_keyed (λ o, (pool_key w o, o)) key_lt fst key_lt (pool_key w)).
    - rewrite <- list_fmap_compose. apply list_fmap_id.
    - by intros x y _ _. }
  apply elem_of_cons in Hrule as [Hr|Hrule]; [|apply elem_of_cons in Hrule as [Hr|Hrule]];
    [| |apply list_elem_of_singleton in Hrule as Hr]; rewrite Hr; simpl.
  - erewrite bind_Ok; cycle 1.
    { apply (mapM_pure _ (λ o, (pool_key w o, o))). intros o Ho.
      destruct (Hrefs o Ho) as [ord Hord].
      rewrite (bind_Ok _ _ _ _ _ (get_order_Ok _ _ _ Hord)).
      unfold pool_key. by rewrite Hord, Hr. }
    unfold modify. by rewrite Hsort.
  - erewrite bind_Ok; cycle 1.
    { apply (mapM_pure _ (λ o, (pool_key w o, o))). intros o Ho.
      destruct (Hrefs o Ho) as [ord Hord].
      rewrite (bind_Ok _ _ _ _ _ (get_order_Ok _ _ _ Hord)).
      unfold pool_key. by rewrite Hord, Hr. }
    unfold modify. by rewrite Hsort.
  - erewrite bind_Ok; cycle 1.
    { apply (mapM_pure _ (λ o, (pool_key w o, o))). intros o Ho.
      destruct (Hrefs o Ho) as [ord Hord].
      rewrite (bind_Ok _ _ _ _ _ (get_order_Ok _ _ _ Hord)), bind_gets.
      specialize (Hcr Hr). rewrite Forall_forall in Hcr.
      rewrite (bind_Ok _ _ _ _ _ (truediv_Ok _ _ _ (Hcr o Ho ord Hord))).
      unfold pool_key. by rewrite Hord, Hr. }
    unfold modify. by rewrite Hsort.
Qed.

(** X4. [sort_orders] is a stable sort, and sorting a sorted pool changes
    nothing: orders whose keys (priority, then the key of the sequencing rule)
    are tied keep the order in which they stood in the pool, and a second
    [sort_orders] right after the first leaves the pool as the first left
    it. *)
Theorem sort_orders_stable_idempotent (w : World) :
  pool_sequencing_rule w ∈ ["FCFS"; "EDD"; "CR"] →
  Forall (λ o, is_Some (orders w !! o)) (order_list w) →
  (pool_sequencing_rule w = "CR" →
   Forall (λ o, ∀ ord, orders w !! o = Some ord → ¬ (total_process_time ord == 0)%Q)
          (order_list w)) →
  ∃ l, sort_orders w = Ok tt (set_order_list l w) ∧
       (∀ k, filter (λ o, tied (pool_key w o) k = true) l
             = filter (λ o, tied (pool_key w o) k = true) (order_list w)) ∧
       sort_orders (set_order_list l w) = Ok tt (set_order_list l w) ∧
       (sort_orders ;;; sort_orders) w = sort_orders w.
Proof.
  intros Hrule Hrefs Hcr.
  set (l := py_sort key_lt (pool_key w) (order_list w)).
  assert (H1 : sort_orders w = Ok tt (set_order_list l w)) by by apply sort_orders_eq.
  assert (H2 : sort_orders (set_order_list l w) = Ok tt (set_order_list l w)).
  { rewrite sort_orders_eq.
    - f_equal. change (order_list (set_order_list l w)) with l.
      change (pool_key (set_order_list l w)) with (pool_key w).
      rewrite py_sort_sorted_id; [done|].
      apply py_sort_sorted; [exact key_lt_asym|exact key_le_trans].
    - done.
    - change (order_list (set_order_list l w)) with l. unfold l.
      by rewrite py_sort_Permutation.
    - intros Hr. change (order_list (set_order_list l w)) with l. unfold l.
      rewrite py_sort_Permutation. by apply Hcr. }
  exists l. split; [done|]. split; [|split; [done|]].
  - intros k. apply py_sort_stable. intros x y Hx Hy. by eapply tied_not_after.
  - by rewrite (bind_Ok _ _ _ _ _ H1), H1.
Qed.

Lemma sort_orders_stable_idempotent_witness :
  ∃ l, sort_orders pool_21 = Ok tt (set_order_list l pool_21) ∧
       (∀ k, filter (λ o, tied (pool_key pool_21 o) k = true) l
             = filter (λ o, tied (pool_key pool_21 o) k = true) (order_list pool_21)) ∧
       sort_orders (set_order_list l pool_21) = Ok tt (set_order_list l pool_21) ∧
       (sort_orders ;;; sort_orders) pool_21 = sort_orders pool_21.
Proof.
  apply (sort_orders_stable_idempotent pool_21).
  - right; left.
  - repeat constructor; eexists; reflexivity.
  - intros H. discriminate H.
Defined.

(** ** The choice of a station *)

(** [min(l, key=...)] returns the first element whose key is minimal. *)
Lemma py_min_by_first {A} (key : A → Q) (l pre1 pre2 : list A) (best : A) :
  (∀ x, x ∈ pre1 → (key best < key x)%Q) →
  (∀ x, x ∈ pre2 → (key best <= key x)%Q) →
  ∃ l1 l2, pre1 ++ best :: pre2 ++ l = l1 ++ py_min_by key best l :: l2 ∧
           (∀ x, x ∈ l1 → (key (py_min_by key best l) < key x)%Q) ∧
           (∀ x, x ∈ l2 → (key (py_min_by key best l) <= key x)%Q).
Proof.
  revert pre1 pre2 best. induction l as [|x l IH]; intros pre1 pre2 best H1 H2.
  - exists pre1, pre2. by rewrite app_nil_r.
  - simpl. destruct (Qltb (key x) (key best)) eqn:E.
    + apply Qltb_lt in E.
      destruct (IH (pre1 ++ best :: pre2) [] x) as (l1 & l2 & Heq & Hl1 & Hl2).
      * intros y Hy. apply elem_of_app in Hy as [Hy|Hy].
        -- eapply Qlt_trans; [exact E|by apply H1].
        -- apply elem_of_cons in Hy as [->|Hy]; [done|].
           eapply Qlt_le_trans; [exact E|by apply H2].
      * intros y Hy. by apply elem_of_nil in Hy.
      * exists l1, l2. split; [|done]. rewrite <- Heq. simpl.
        by rewrite <- app_assoc.
    + apply Qltb_ge in E.
      destruct (IH pre1 (pre2 ++ [x]) best) as (l1 & l2 & Heq & Hl1 & Hl2).
      * done.
      * intros y Hy. apply elem_of_app in Hy as [Hy|Hy]; [by apply H2|].
        by apply list_elem_of_singleton in Hy as ->.
      * exists l1, l2. split; [|done]. rewrite <- Heq.
        by rewrite <- app_assoc.
Qed.

Lemma imap_pair_sorted {A} (l : list A) (k : nat) :
  StronglySorted (λ a b, (a.1 < b.1)%nat) (imap (λ i x, (k + i, x)%nat) l).
Proof.
  revert k. induction l as [|x l IH]; intros k; [constructor|].
  rewrite imap_cons. constructor.
  - erewrite imap_ext; [apply (IH (S k))|]. intros i y _. simpl. f_equal. lia.
  - apply Forall_forall. intros [j y] Hj.
    apply elem_of_lookup_imap in Hj as (i & z & [= -> ->] & _). simpl. lia.
Qed.

Lemma StronglySorted_filter {A} (R : relation A) (P : A → Prop) `{!∀ x, Decision (P x)} l :
  StronglySorted R l → StronglySorted R (filter P l).
Proof.
  induction 1 as [|x l Hs IH Hx]; [constructor|].
  rewrite filter_cons. destruct (decide (P x)); [|done].
  constructor; [done|]. apply Forall_forall. intros y Hy.
  apply list_elem_of_filter in Hy as [_ Hy]. rewrite Forall_forall in Hx. by apply Hx.
Qed.

(** X5. When the station of a task is not forced by the release, the task is
    assigned the least-loaded workstation among those whose id starts with
    the station type of the task, the first one in [station_list] among
    equally loaded ones; nothing but the assignment of the task changes. *)
Theorem route_task_least_loaded (w : World) (trig : option nat) (task : Task) :
  (∀ stn, trig = Some stn →
          ∃ ts, station_list w !! stn = Some ts ∧ station task ≠ type_id ts) →
  (∃ i st, station_list w !! i = Some st ∧ startswith (id st) (station task) = true) →
  ∃ i st,
    route_task trig task w
    = Ok tt (set_tasks (<[tid task := set_assigned_station (Some i) (task_state w task)]>
                          (tasks w)) w) ∧
    station_list w !! i = Some st ∧
    startswith (id st) (station task) = true ∧
    ∀ j st', station_list w !! j = Some st' →
             startswith (id st') (station task) = true →
             (current_load st <= current_load st')%Q ∧
             ((j < i)%nat → (current_load st < current_load st')%Q).
Proof.
  intros Htrig (i0 & st0 & Hi0 & Hs0).
  unfold route_task. cbv zeta.
  assert (Hforced :
    (match trig with
     | Some i => ts <- get_station i ;; ret (str_eqb (station task) (type_id ts))
     | None => ret false
     end) w = Ok false w).
  { destruct trig as [stn|]; [|done].
    destruct (Htrig stn eq_refl) as (ts & Hts & Hne).
    rewrite (bind_Ok _ _ _ _ _ (get_station_Ok _ _ _ Hts)).
    unfold ret. by rewrite (str_eqb_false _ _ Hne). }
  rewrite (bind_Ok _ _ _ _ _ Hforced), bind_gets.
  set (suitable := filter (λ c : nat * Workstation, startswith (id c.2) (station task) = true)
                          (imap pair (station_list w))).
  assert (Hin : ∀ j s, (j, s) ∈ suitable ↔
                       station_list w !! j = Some s ∧ startswith (id s) (station task) = true).
  { intros j s. unfold suitable. rewrite list_elem_of_filter, elem_of_lookup_imap. simpl.
    split.
    - intros [? (k & y & [= -> ->] & ?)]. done.
    - intros [? ?]. split; [done|]. by exists j, s. }
  assert (Hsorted : StronglySorted (λ a b : nat * Workstation, (a.1 < b.1)%nat) suitable).
  { apply StronglySorted_filter. apply (imap_pair_sorted (station_list w) 0). }
  destruct suitable as [|c rest] eqn:Hsuit.
  { exfalso. by apply (elem_of_nil (i0, st0)), Hin. }
  simpl.
  destruct (py_min_by_first (λ c : nat * Workstation, current_load c.2) rest [] [] c)
    as (l1 & l2 & Heq & Hl1 & Hl2); [by intros ? ?%elem_of_nil..|].
  simpl in Heq.
  set (m := py_min_by (λ c : nat * Workstation, current_load c.2) c rest) in *.
  destruct m as [i st] eqn:Hm. exists i, st.
  assert (Hmin : (i, st) ∈ c :: rest).
  { rewrite Heq. apply elem_of_app. right. left. }
  apply Hin in Hmin as [Hi Hs].
  split; [done|]. split; [done|]. split; [done|].
  intros j st' Hj Hs'.
  assert (Hjin : (j, st') ∈ c :: rest) by by apply Hin.
  rewrite Heq in Hjin, Hsorted.
  apply StronglySorted_app in Hsorted as (H12 & _ & Hm2).
  apply StronglySorted_inv in Hm2 as [_ Hm2]. rewrite Forall_forall in Hm2.
  apply elem_of_app in Hjin as [Hj1|Hj2].
  - specialize (Hl1 _ Hj1). simpl in Hl1. split; [by apply Qlt_le_weak|done].
  - apply elem_of_cons in Hj2 as [[= -> ->]|Hj2].
    + split; [apply Qle_refl|lia].
    + split; [by apply (Hl2 _ Hj2)|].
      specialize (Hm2 _ Hj2). simpl in Hm2. lia.
Qed.

Lemma route_task_least_loaded_witness :
  ∃ i st,
    route_task None z1 two_stations
    = Ok tt (set_tasks (<[tid z1 := set_assigned_station (Some i) (task_state two_stations z1)]>
                          (tasks two_stations)) two_stations) ∧
    station_list two_stations !! i = Some st ∧
    startswith (id st) (station z1) = true ∧
    ∀ j st', station_list two_stations !! j = Some st' →
             startswith (id st') (station z1) = true →
             (current_load st <= current_load st')%Q ∧
             ((j < i)%nat → (current_load st < current_load st')%Q).
Proof.
  apply (route_task_least_loaded two_stations None z1).
  - intros stn H. discriminate H.
  - exists 0%nat. eexists. split; reflexivity.
Defined.

(** A-1 carries 3 time units and A-2 carries 4: the task goes to A-1. *)
Example route_task_two_stations :
  assigned_station (task_state (final (route_task None z1 two_stations)) z1) = Some 0%nat.
Proof. reflexivity. Qed.

Lemma route_task_None_cases task w :
  route_task None task w = Raise (ValueError "min() arg is an empty sequence") w ∨
  ∃ i, route_task None task w
       = Ok tt (set_tasks (<[tid task := set_assigned_station (Some i) (task_state w task)]>
                             (tasks w)) w).
Proof.
  unfold route_task. cbv zeta. rewrite bind_ret, bind_gets.
  destruct (filter _ _) as [|c rest]; [by left|]. right. by eexists.
Qed.

Lemma route_task_no_station task w :
  (∀ i st, station_list w !! i = Some st → startswith (id st) (station task) = false) →
  route_task None task w = Raise (ValueError "min() arg is an empty sequence") w.
Proof.
  intros Hno. unfold route_task. cbv zeta. rewrite bind_ret, bind_gets.
  destruct (filter _ _) as [|[i st] rest] eqn:Hf; [done|]. exfalso.
  assert (Hin : (i, st) ∈ filter (λ c : nat * Workstation,
                                    startswith (id c.2) (station task) = true)
                                 (imap pair (station_list w))) by (rewrite Hf; left).
  apply list_elem_of_filter in Hin as [Hs Hin]. simpl in Hs.
  apply elem_of_lookup_imap in Hin as (k & y & [= -> ->] & Hk).
  by rewrite (Hno _ _ Hk) in Hs.
Qed.

Lemma routing_loop_no_station (l : list Task) (t : Task) w m0 :
  t ∈ l →
  (∀ i st, station_list w !! i = Some st → startswith (id st) (station t) = false) →
  ∃ m, for_each l (route_task None) (set_tasks m0 w)
       = Raise (ValueError "min() arg is an empty sequence") (set_tasks m w).
Proof.
  intros Hin Hno. revert m0. induction l as [|x l IH]; intros m0.
  { by apply elem_of_nil in Hin. }
  rewrite for_each_cons.
  destruct (route_task_None_cases x (set_tasks m0 w)) as [Hr|[i Hok]].
  - exists m0. by rewrite (bind_Raise _ _ _ _ _ Hr).
  - apply elem_of_cons in Hin as [->|Hin].
    + rewrite (route_task_no_station x (set_tasks m0 w) Hno) in Hok. discriminate Hok.
    + rewrite (bind_Ok _ _ _ _ _ Hok). rewrite set_tasks_twice. by apply IH.
Qed.

(** X6. When an order has a task whose station type is the beginning of no
    workstation id (the type [Unknown] that the order generator gives to a
    task it cannot map, say), routing that task raises [ValueError]
    ([min() arg is an empty sequence]), and so does [set_detailed_routing] of
    the order; the tasks routed before it keep their assignments, and nothing
    else has changed. *)
Theorem routing_without_station (w : World) (o : nat) (ord : Order) (t : Task) :
  orders w !! o = Some ord →
  t ∈ flat_plan ord →
  (∀ i st, station_list w !! i = Some st → startswith (id st) (station t) = false) →
  route_task None t w = Raise (ValueError "min() arg is an empty sequence") w ∧
  ∃ m, set_detailed_routing o None w
       = Raise (ValueError "min() arg is an empty sequence") (set_tasks m w).
Proof.
  intros Hord Hin Hno. split; [by apply route_task_no_station|].
  unfold set_detailed_routing. rewrite (bind_Ok _ _ _ _ _ (get_order_Ok _ _ _ Hord)).
  destruct (routing_loop_no_station (flat_plan ord) t w (tasks w) Hin Hno) as [m Hm].
  rewrite set_tasks_id in Hm. exists m. by rewrite (bind_Raise _ _ _ _ _ Hm).
Qed.

Lemma routing_without_station_witness :
  route_task None stray stray_shop
  = Raise (ValueError "min() arg is an empty sequence") stray_shop ∧
  ∃ m, set_detailed_routing 0 None stray_shop
       = Raise (ValueError "min() arg is an empty sequence") (set_tasks m stray_shop).
Proof.
  apply (routing_without_station stray_shop 0
           (new_order "O-1" 1 0 10 2 "Plan" [stray]) stray).
  - reflexivity.
  - left.
  - intros i st Hi.
    do 5 (destruct i as [|i]; [injection Hi as <-; reflexivity|]).
    discriminate Hi.
Defined.

(** ** [add_task] *)

Lemma list_insert_over_alter {A} (f : A → A) (l : list A) i x :
  <[i := x]> (alter f i l) = <[i := x]> l.
Proof. by rewrite !list_insert_alter, list_alter_alter_eq. Qed.

(** The steps of [add_task] that follow the decrement of the indirect
    load. *)
Lemma add_task_tail w self o task st0 st ord :
  station_list w !! self = Some st →
  orders w !! o = Some ord →
  (ord <- get_order o ;;
   match list_remove same_task task (ready_tasks ord) with
   | None => raise (ValueError "list.remove(x): x not in list")
   | Some l => set_order o (set_ready_tasks l)
   end ;;;
   set_station self (λ s, set_ws_tasks_queue (ws_tasks_queue s ++ [(o, task)]) s) ;;;
   t <- gets now ;;
   log_event t (id st0) (order_id ord) (task_name task) "Task Added" ;;;
   st <- get_station self ;;
   if idle st then
     succeed (idle_event st) ;;;
     e <- new_event ;;
     set_station self (set_idle_event e)
   else ret tt) w
  = match list_remove same_task task (ready_tasks ord) with
    | None => Raise (ValueError "list.remove(x): x not in list") w
    | Some l =>
        let w5 :=
          set_events
            (events w ++ [mkLogEvent (now w) (id st0) (order_id ord) (task_name task)
                            "Task Added"])
            (set_station_list
               (<[self := set_ws_tasks_queue (ws_tasks_queue st ++ [(o, task)]) st]>
                  (station_list w))
               (set_orders (<[o := set_ready_tasks l ord]> (orders w)) w)) in
        if idle st then
          if bool_decide (idle_event st ∈ triggered w)
          then Raise (RuntimeError "event has already been triggered") w5
          else Ok tt (woken self st w5)
        else Ok tt w5
    end.
Proof.
  intros Hst Hord.
  rewrite (bind_Ok _ _ _ _ _ (get_order_Ok _ _ _ Hord)).
  destruct (list_remove same_task task (ready_tasks ord)) as [l|]; [|done].
  rewrite (bind_Ok _ _ _ _ _ (set_order_Ok _ _ _ _ Hord)).
  rewrite (alter_lookup_insert _ _ _ _ Hord).
  set (w3 := set_orders _ w).
  assert (Hst3 : station_list w3 !! self = Some st) by done.
  rewrite (bind_Ok _ _ _ _ _ (set_station_Ok _ _ _ _ Hst3)).
  rewrite (alter_lookup_insert _ _ _ _ Hst3).
  set (w4 := set_station_list _ w3).
  rewrite bind_gets. unfold log_event. rewrite bind_modify.
  set (w5 := set_events _ w4).
  assert (Hst5 : station_list w5 !! self
                 = Some (set_ws_tasks_queue (ws_tasks_queue st ++ [(o, task)]) st)).
  { unfold w5, w4. cbn [station_list set_events set_station_list].
    apply list_lookup_insert_eq. by eapply lookup_lt_Some. }
  rewrite (bind_Ok _ _ _ _ _ (get_station_Ok _ _ _ Hst5)).
  cbn [idle set_ws_tasks_queue idle_event]. cbv zeta.
  destruct (idle st); [|done].
  unfold bind at 1. unfold succeed at 1.
  change (triggered w5) with (triggered w).
  destruct (bool_decide (idle_event st ∈ triggered w)); [done|].
  unfold bind at 1. unfold new_event at 1.
  set (w7 := set_next_event _ _).
  assert (Hst7 : station_list w7 !! self
                 = Some (set_ws_tasks_queue (ws_tasks_queue st ++ [(o, task)]) st)) by done.
  by rewrite (set_station_Ok _ _ _ _ Hst7).
Qed.

(** [add_task], step by step. *)
Lemma add_task_eq w self o task st ord :
  station_list w !! self = Some st →
  orders w !! o = Some ord →
  depth (task_state w task) ≠ 0%Z →
  let w1 := if orControlSystem st
            then set_tasks (<[tid task := set_planned_start_time
                                            (Some (planned_start w ord task))
                                            (task_state w task)]> (tasks w)) w
            else w in
  let x := (indirect_load st - process_time task / inject_Z (depth (task_state w task)))%Q in
  add_task self o task w =
  if Qltb (clipped x) 0
  then Raise (ValueError "Station indirect load <0") (with_indirect_load self x w1)
  else
    match list_remove same_task task (ready_tasks ord) with
    | None => Raise (ValueError "list.remove(x): x not in list")
                (with_indirect_load self (clipped x) w1)
    | Some l =>
        let w5 := task_queued self o task st ord l w in
        if idle st then
          if bool_decide (idle_event st ∈ triggered w)
          then Raise (RuntimeError "event has already been triggered") w5
          else Ok tt (woken self st w5)
        else Ok tt w5
    end.
Proof.
  intros Hst Hord Hd w1 x.
  assert (Hpre : (if orControlSystem st then calculate_planned_start_time o task else ret tt) w
                 = Ok tt w1).
  { unfold w1. destruct (orControlSystem st); [|done].
    by apply calculate_planned_start_time_Ok. }
  assert (Hst1 : station_list w1 = station_list w).
  { unfold w1. by destruct (orControlSystem st). }
  assert (Hord1 : orders w1 = orders w).
  { unfold w1. by destruct (orControlSystem st). }
  assert (Hd1 : depth (task_state w1 task) = depth (task_state w task)).
  { unfold w1. destruct (orControlSystem st); [|done]. by rewrite task_state_planned. }
  assert (Hrest : now w1 = now w ∧ events w1 = events w ∧ triggered w1 = triggered w
                  ∧ next_event w1 = next_event w).
  { unfold w1. by destruct (orControlSystem st). }
  destruct Hrest as (Hnow1 & Hev1 & Htr1 & Hne1).
  unfold add_task.
  rewrite (bind_Ok _ _ _ _ _ (get_station_Ok _ _ _ Hst)).
  rewrite (bind_Ok _ _ _ _ _ Hpre).
  rewrite (bind_Ok _ _ _ _ _ (calculate_load_Ok w1 task ltac:(by rewrite Hd1))).
  rewrite Hd1. fold x.
  unfold bind at 1.
  rewrite (decrease_indirect_load_eq w1 self st _ _ ltac:(by rewrite Hst1)). fold x. cbv zeta.
  unfold clipped.
  destruct (Qltb x 0 && Qltb (Qabs x) tolerance) eqn:Hclip.
  - change (Qltb 0 0) with false. cbv iota.
    rewrite (add_task_tail (with_indirect_load self 0 w1) self o task st
               (set_indirect_load 0 st) ord);
      [|apply with_indirect_load_lookup; by rewrite Hst1|simpl; by rewrite Hord1].
    destruct (list_remove same_task task (ready_tasks ord)) as [l|]; [|done].
    assert (Hw5 : set_events
      (events (with_indirect_load self 0 w1)
       ++ [mkLogEvent (now (with_indirect_load self 0 w1)) (id st) (order_id ord)
             (task_name task) "Task Added"])
      (set_station_list
         (<[self := set_ws_tasks_queue
                      (ws_tasks_queue (set_indirect_load 0 st) ++ [(o, task)])
                      (set_indirect_load 0 st)]>
            (station_list (with_indirect_load self 0 w1)))
         (set_orders (<[o := set_ready_tasks l ord]> (orders (with_indirect_load self 0 w1)))
            (with_indirect_load self 0 w1)))
      = task_queued self o task st ord l w).
    { unfold task_queued, clipped. fold x. rewrite Hclip. fold w1.
      unfold with_indirect_load.
      cbn [events now station_list orders set_station_list set_orders set_events].
      rewrite Hev1, Hnow1, Hst1, Hord1.
      by rewrite list_insert_over_alter. }
    cbv zeta. rewrite Hw5.
    cbn [idle set_indirect_load idle_event triggered with_indirect_load set_station_list].
    by rewrite Htr1.
  - destruct (Qltb x 0) eqn:Hneg; [done|].
    rewrite (add_task_tail (with_indirect_load self x w1) self o task st
               (set_indirect_load x st) ord);
      [|apply with_indirect_load_lookup; by rewrite Hst1|simpl; by rewrite Hord1].
    destruct (list_remove same_task task (ready_tasks ord)) as [l|]; [|done].
    assert (Hw5 : set_events
      (events (with_indirect_load self x w1)
       ++ [mkLogEvent (now (with_indirect_load self x w1)) (id st) (order_id ord)
             (task_name task) "Task Added"])
      (set_station_list
         (<[self := set_ws_tasks_queue
                      (ws_tasks_queue (set_indirect_load x st) ++ [(o, task)])
                      (set_indirect_load x st)]>
            (station_list (with_indirect_load self x w1)))
         (set_orders (<[o := set_ready_tasks l ord]> (orders (with_indirect_load self x w1)))
            (with_indirect_load self x w1)))
      = task_queued self o task st ord l w).
    { unfold task_queued, clipped. fold x. rewrite Hneg. cbn [andb]. fold w1.
      unfold with_indirect_load.
      cbn [events now station_list orders set_station_list set_orders set_events].
      rewrite Hev1, Hnow1, Hst1, Hord1.
      by rewrite list_insert_over_alter. }
    cbv zeta. rewrite Hw5.
    cbn [idle set_indirect_load idle_event triggered with_indirect_load set_station_list].
    by rewrite Htr1.
Qed.

Lemma py_sum_snoc (l : list Q) (x : Q) : py_sum (l ++ [x]) = (py_sum l + x)%Q.
Proof. unfold py_sum. by rewrite foldl_app. Qed.

Lemma clipped_nonneg x : (- tolerance < x)%Q → (0 <= clipped x)%Q.
Proof.
  intros Hx. unfold clipped.
  destruct (Qltb x 0 && Qltb (Qabs x) tolerance) eqn:Hclip; [apply Qle_refl|].
  apply not_true_iff_false in Hclip. rewrite clip_condition in Hclip.
  destruct (Qlt_le_dec x 0) as [Hneg|Hpos]; [|done]. exfalso. by apply Hclip.
Qed.

Lemma clipped_id x : (0 <= x)%Q → clipped x = x.
Proof.
  intros Hx. unfold clipped.
  destruct (Qltb x 0) eqn:Hneg; [|done].
  apply Qltb_lt in Hneg. exfalso. exact (Qlt_irrefl x (Qlt_le_trans _ _ _ Hneg Hx)).
Qed.



(** X8. [add_task] wakes an idle station: the idle event of the station is
    triggered and the station is given a new event, which is not triggered;
    the idle flag itself is left to the station.  A busy station is not
    signalled.  When the station is idle and its event has been triggered
    already (the station has been signalled and has not run since),
    [idle_event.succeed()] raises [RuntimeError]; at that moment the task
    stands in the queue and has left the ready tasks. *)
Theorem add_task_wakes_idle_station (w : World) (self o : nat) (task : Task)
    (st : Workstation) (ord : Order) (l : list Task) :
  station_list w !! self = Some st →
  orders w !! o = Some ord →
  depth (task_state w task) ≠ 0%Z →
  (- tolerance
   < indirect_load st - process_time task / inject_Z (depth (task_state w task)))%Q →
  list_remove same_task task (ready_tasks ord) = Some l →
  (idle st = true → idle_event st ∉ triggered w →
   ∃ w' st',
     add_task self o task w = Ok tt w' ∧
     station_list w' !! self = Some st' ∧
     idle st' = true ∧
     idle_event st' = next_event w ∧
     next_event w' = S (next_event w) ∧
     triggered w' = {[idle_event st]} ∪ triggered w ∧
     ((∀ e, e ∈ triggered w → (e < next_event w)%nat) →
      (idle_event st < next_event w)%nat →
      (idle_event st' ∉ triggered w') ∧ ∀ e, e ∈ triggered w' → (e < next_event w')%nat)) ∧
  (idle st = false →
   ∃ w' st',
     add_task self o task w = Ok tt w' ∧
     station_list w' !! self = Some st' ∧
     idle st' = false ∧ idle_event st' = idle_event st ∧
     next_event w' = next_event w ∧ triggered w' = triggered w) ∧
  (idle st = true → idle_event st ∈ triggered w →
   ∃ w' st' ord',
     add_task self o task w = Raise (RuntimeError "event has already been triggered") w' ∧
     station_list w' !! self = Some st' ∧
     ws_tasks_queue st' = ws_tasks_queue st ++ [(o, task)] ∧
     orders w' !! o = Some ord' ∧ ready_tasks ord' = l ∧
     triggered w' = triggered w).
Proof.
  intros Hst Hord Hd Hx Hl.
  pose proof (add_task_eq w self o task st ord Hst Hord Hd) as Heq.
  cbv zeta in Heq. rewrite Hl in Heq.
  pose proof (clipped_nonneg _ Hx) as Hc.
  apply Qltb_ge in Hc. rewrite Hc in Heq. clear Hc.
  assert (Hlt : (self < length (station_list w))%nat) by by eapply lookup_lt_Some.
  assert (Hlo : (o < length (orders w))%nat) by by eapply lookup_lt_Some.
  split; [|split].
  - intros Hi Hno. rewrite Hi, bool_decide_eq_false_2 in Heq by done.
    eexists _, _. split; [exact Heq|]. split.
    { unfold woken. cbn [station_list set_station_list]. rewrite list_lookup_alter_eq.
      unfold task_queued. cbn [station_list set_station_list set_events].
      by rewrite list_lookup_insert_eq by done. }
    split; [done|].
    assert (Hne : next_event (task_queued self o task st ord l w) = next_event w)
      by by (unfold task_queued; destruct (orControlSystem st)).
    assert (Htr : triggered (task_queued self o task st ord l w) = triggered w)
      by by (unfold task_queued; destruct (orControlSystem st)).
    split; [by rewrite <- Hne|].
    change (next_event (woken self st (task_queued self o task st ord l w)))
      with (S (next_event (task_queued self o task st ord l w))).
    change (triggered (woken self st (task_queued self o task st ord l w)))
      with ({[idle_event st]} ∪ triggered (task_queued self o task st ord l w)).
    rewrite Hne, Htr.
    split; [done|]. split; [done|].
    intros Hfresh Hev.
    replace (idle_event _) with (next_event w) by by destruct (orControlSystem st).
    split.
    + rewrite not_elem_of_union, not_elem_of_singleton. split; [lia|].
      intros Hin. specialize (Hfresh _ Hin). lia.
    + intros e. rewrite elem_of_union, elem_of_singleton.
      intros [->|Hin]; [lia|]. specialize (Hfresh _ Hin). lia.
  - intros Hi. rewrite Hi in Heq.
    eexists _, _. split; [exact Heq|]. split.
    { unfold task_queued. cbn [station_list set_station_list set_events].
      by rewrite list_lookup_insert_eq by done. }
    split; [done|]. split; [done|].
    unfold task_queued. by destruct (orControlSystem st).
  - intros Hi Hin. rewrite Hi, bool_decide_eq_true_2 in Heq by done.
    eexists _, _, _. split; [exact Heq|]. split.
    { unfold task_queued. cbn [station_list set_station_list set_events].
      by rewrite list_lookup_insert_eq by done. }
    split; [done|]. split.
    { unfold task_queued. cbn [orders set_orders set_station_list set_events].
      by rewrite list_lookup_insert_eq by done. }
    split; [done|].
    unfold task_queued. by destruct (orControlSystem st).
Qed.

Lemma add_task_wakes_idle_station_witness :
  ∃ st ord,
    station_list signalled_shop !! 0%nat = Some st ∧
    orders signalled_shop !! 0%nat = Some ord ∧
    idle st = true ∧ idle_event st ∈ triggered signalled_shop ∧
    ∃ w' st' ord',
      add_task 0 0 Fixture.t1 signalled_shop
      = Raise (RuntimeError "event has already been triggered") w' ∧
      station_list w' !! 0%nat = Some st' ∧
      ws_tasks_queue st' = ws_tasks_queue st ++ [(0%nat, Fixture.t1)] ∧
      orders w' !! 0%nat = Some ord' ∧ ready_tasks ord' = [] ∧
      triggered w' = triggered signalled_shop.
Proof.
  eexists _, _. split; [reflexivity|]. split; [reflexivity|].
  split; [reflexivity|].
  assert (Hin : 0%nat ∈ triggered signalled_shop)
    by (apply (bool_decide_unpack _); reflexivity).
  split; [exact Hin|].
  refine (proj2 (proj2 (add_task_wakes_idle_station signalled_shop 0 0 Fixture.t1
                          _ _ [] _ _ _ _ _)) _ _).
  - reflexivity.
  - reflexivity.
  - discriminate.
  - reflexivity.
  - reflexivity.
  - reflexivity.
  - exact Hin.
Defined.

(** The state in which a signalled station has not run yet is the one that
    [continuous_release] leaves: when A-2 reported idle and was given order
    O-3, it was left idle with its event triggered. *)
Example released_station_is_signalled :
  ∃ st, station_list after_idle !! 1%nat = Some st ∧
        idle st = true ∧ idle_event st ∈ triggered after_idle.
Proof.
  eexists. split; [reflexivity|]. split; [reflexivity|].
  apply (bool_decide_unpack _). reflexivity.
Qed.

(** ** The load that a release charges *)

Lemma set_indirect_load_twice x y s :
  set_indirect_load x (set_indirect_load y s) = set_indirect_load x s.
Proof. done. Qed.

Lemma set_indirect_load_id s : set_indirect_load (indirect_load s) s = s.
Proof. by destruct s. Qed.

(** The inner loop of [add_load_contribution]: the loads of one dictionary
    are added to the indirect load of the station, one after the other. *)
Lemma charge_station (L : list (string * Contribution)) i s sl w :
  sl !! i = Some s →
  ∃ x, for_each L (λ '(_, data),
         set_station i (λ s, set_indirect_load (indirect_load s + load data)%Q s))
         (set_station_list sl w)
       = Ok tt (set_station_list (<[i := set_indirect_load x s]> sl) w) ∧
       (x == indirect_load s + foldr (λ kv acc, load kv.2 + acc) 0 L)%Q.
Proof.
  revert s sl. induction L as [|[k d] L IH]; intros s sl Hs.
  - exists (indirect_load s). split.
    + rewrite for_each_nil, set_indirect_load_id. by rewrite list_insert_id.
    + simpl. ring.
  - rewrite for_each_cons.
    assert (Hs' : station_list (set_station_list sl w) !! i = Some s) by done.
    rewrite (bind_Ok _ _ _ _ _ (set_station_Ok _ _ _ _ Hs')).
    cbn [station_list set_station_list]. rewrite set_station_list_twice.
    rewrite (alter_lookup_insert _ _ _ _ Hs).
    destruct (IH (set_indirect_load (indirect_load s + load d) s)
                 (<[i := set_indirect_load (indirect_load s + load d) s]> sl))
      as (x & Hrun & Hx).
    { apply list_lookup_insert_eq. by eapply lookup_lt_Some. }
    exists x. split.
    + rewrite Hrun. by rewrite list_insert_insert_eq, set_indirect_load_twice.
    + rewrite Hx. simpl. ring.
Qed.

Lemma find_station_Some k sl i :
  NoDup (id <$> sl) →
  find_station k sl = Some i ↔ ∃ s, sl !! i = Some s ∧ id s = k.
Proof.
  intros Hnd. unfold find_station. split.
  - destruct (list_find _ sl) as [[j s]|] eqn:Hf; [|done].
    intros [= <-]. apply list_find_Some in Hf as (Hj & Hid & _). by exists s.
  - intros (s & Hs & Hid).
    destruct (list_find (λ ws, id ws = k) sl) as [[j s']|] eqn:Hf.
    + apply list_find_Some in Hf as (Hj & Hid' & _). simpl. f_equal.
      eapply (NoDup_lookup (id <$> sl)); [done| |].
      * by rewrite list_lookup_fmap, Hj.
      * rewrite list_lookup_fmap, Hs. simpl. congruence.
    + apply list_find_None in Hf. rewrite Forall_forall in Hf.
      exfalso. apply (Hf s); [|done]. by eapply list_elem_of_lookup_2.
Qed.

Lemma find_station_None k sl :
  find_station k sl = None ↔ ∀ s, s ∈ sl → id s ≠ k.
Proof.
  unfold find_station. destruct (list_find _ sl) as [[j s]|] eqn:Hf.
  - apply list_find_Some in Hf as (Hj & Hid & _). split; [done|].
    intros H. exfalso. apply (H s); [|done]. by eapply list_elem_of_lookup_2.
  - apply list_find_None in Hf. rewrite Forall_forall in Hf. done.
Qed.

(** The outer loop of [add_load_contribution]. *)
Lemma charge_stations (LL : list (string * gmap string Contribution)) sl w :
  NoDup (id <$> sl) →
  ∃ sl', for_each LL (λ '(station_id, tks),
           sl <- gets station_list ;;
           match find_station station_id sl with
           | Some i =>
               for_each (map_to_list tks) (λ '(_, data),
                 set_station i (λ s, set_indirect_load (indirect_load s + load data)%Q s))
           | None => ret tt
           end) (set_station_list sl w)
         = Ok tt (set_station_list sl' w) ∧
         charged (list_contribution LL) sl sl'.
Proof.
  revert sl. induction LL as [|[k tks] LL IH]; intros sl Hnd.
  - exists sl. split; [done|]. split; [done|].
    intros i s Hs. exists (indirect_load s). rewrite set_indirect_load_id.
    split; [done|]. simpl. ring.
  - rewrite for_each_cons. rewrite bind_assoc, bind_gets.
    cbn [station_list set_station_list].
    destruct (find_station k sl) as [i|] eqn:Hf.
    + apply find_station_Some in Hf as (s & Hs & Hid); [|done].
      destruct (charge_station (map_to_list tks) i s sl w Hs) as (x1 & Hrun1 & Hx1).
      rewrite (bind_Ok _ _ _ _ _ Hrun1).
      destruct (IH (<[i := set_indirect_load x1 s]> sl)) as (sl' & Hrun & Hlen & Hch).
      { rewrite list_fmap_insert. cbn [id set_indirect_load].
        rewrite list_insert_id; [done|]. by rewrite list_lookup_fmap, Hs. }
      exists sl'. split; [done|]. split; [by rewrite Hlen, length_insert|].
      intros j s' Hj. destruct (decide (j = i)) as [->|Hne].
      * assert (s' = s) as -> by congruence.
        destruct (Hch i (set_indirect_load x1 s)) as (x & Hx & Hxe).
        { apply list_lookup_insert_eq. by eapply lookup_lt_Some. }
        exists x. split; [done|]. rewrite Hxe. cbn [indirect_load id set_indirect_load].
        rewrite Hx1. simpl. rewrite bool_decide_eq_true_2 by done.
        unfold contributions_sum. ring.
      * destruct (Hch j s') as (x & Hx & Hxe).
        { by rewrite list_lookup_insert_ne. }
        exists x. split; [done|]. rewrite Hxe. simpl.
        rewrite bool_decide_eq_false_2; [done|].
        intros Hk. apply Hne.
        eapply (NoDup_lookup (id <$> sl)); [done| |].
        -- by rewrite list_lookup_fmap, Hj.
        -- rewrite list_lookup_fmap, Hs. simpl. congruence.
    + rewrite bind_ret.
      destruct (IH sl Hnd) as (sl' & Hrun & Hlen & Hch).
      exists sl'. split; [done|]. split; [done|].
      intros j s' Hj. destruct (Hch j s' Hj) as (x & Hx & Hxe).
      exists x. split; [done|]. rewrite Hxe. simpl.
      rewrite bool_decide_eq_false_2; [done|].
      intros Hk. eapply find_station_None; [exact Hf| |by symmetry].
      by eapply list_elem_of_lookup_2.
Qed.



(** The first order of the test charges 3, 1, 1, 1 and 1 to the five
    stations. *)
Example add_load_contribution_run :
  Forall2 Qeq
    (indirect_load <$> station_list (final (add_load_contribution 0 routed_shop)))
    [3; 1; 1; 1; 1]%Q.
Proof. vm_compute. repeat (constructor; [reflexivity|]). constructor. Qed.

(** ** The update of the loads on completion *)

Lemma calculate_load_Ok_inv t w x w' :
  calculate_load t w = Ok x w' →
  w' = w ∧ depth (task_state w t) ≠ 0%Z.
Proof.
  unfold calculate_load, get_task. rewrite bind_gets. unfold truediv.
  destruct (Qeq_bool (inject_Z (depth (task_state w t))) 0) eqn:E; [done|].
  intros [= _ <-]. split; [done|]. intros Hd. rewrite Hd in E. done.
Qed.

Lemma deref_Ok_inv r w a w' : deref r w = Ok a w' → r = Some a ∧ w' = w.
Proof. destruct r; simpl; [|done]. by intros [= <- <-]. Qed.

Lemma set_station_Ok_inv i f w w' :
  set_station i f w = Ok tt w' →
  w' = set_station_list (alter f i (station_list w)) w.
Proof.
  unfold set_station. intros H. apply bind_Ok_inv in H as (s & w1 & H1 & H).
  apply get_station_Ok_inv in H1 as [-> _]. by injection H as <-.
Qed.

Lemma decrease_indirect_load_Ok_inv a ld err w w' :
  decrease_indirect_load a ld err w = Ok tt w' →
  ∃ sl, w' = set_station_list sl w.
Proof.
  intros H. destruct (station_list w !! a) as [st|] eqn:Hst.
  - rewrite (decrease_indirect_load_eq w a st ld err Hst) in H. cbv zeta in H.
    destruct (_ && _); [injection H as <-; by eexists|].
    destruct (Qltb _ 0); [done|]. injection H as <-. by eexists.
  - unfold decrease_indirect_load, set_station in H.
    apply bind_Ok_inv in H as (? & w1 & H1 & _).
    apply bind_Ok_inv in H1 as (? & w2 & H1 & _).
    unfold get_station in H1. by rewrite Hst in H1.
Qed.

Lemma update_childs_leaf c :
  match next_steps c with
  | [] => ret tt
  | _ :: _ => update_childs_indrect_load c
  end = update_childs_indrect_load c.
Proof. rewrite (update_childs_indrect_load_eq c). by destruct (next_steps c). Qed.

(** One child in [update_childs_indrect_load]: when it succeeds, the child
    had a station, its depth was neither 0 nor 1 and is now smaller by one,
    and then its own children have been updated. *)
Lemma update_child_Ok_inv c w w' :
  (s <- get_task c ;;
   old_indirect_load <- calculate_load c ;;
   a <- deref (assigned_station s) ;;
   st <- get_station a ;;
   decrease_indirect_load a old_indirect_load
     (ValueError ("Negative load contribution for task "
                  +:+ task_name c +:+ " in station " +:+ id st)) ;;;
   set_task c (λ s, set_depth (depth s - 1) s) ;;;
   new_indirect_load <- calculate_load c ;;
   set_station a (λ st, set_indirect_load (indirect_load st + new_indirect_load)%Q st) ;;;
   match next_steps c with
   | [] => ret tt
   | _ :: _ => update_childs_indrect_load c
   end) w = Ok tt w' →
  ∃ w1, tasks w1 = <[tid c := set_depth (depth (task_state w c) - 1) (task_state w c)]> (tasks w) ∧
        is_Some (assigned_station (task_state w c)) ∧
        depth (task_state w c) ≠ 0%Z ∧ depth (task_state w c) ≠ 1%Z ∧
        update_childs_indrect_load c w1 = Ok tt w'.
Proof.
  intros H. rewrite update_childs_leaf in H.
  unfold get_task in H. rewrite bind_gets in H.
  apply bind_Ok_inv in H as (ld & w1 & H1 & H).
  apply calculate_load_Ok_inv in H1 as [-> Hd0].
  apply bind_Ok_inv in H as (a & w1 & H1 & H).
  apply deref_Ok_inv in H1 as [Ha ->].
  apply bind_Ok_inv in H as (st & w1 & H1 & H).
  apply get_station_Ok_inv in H1 as [-> Hst].
  apply bind_Ok_inv in H as ([] & w1 & H1 & H).
  apply decrease_indirect_load_Ok_inv in H1 as [sl ->].
  unfold set_task in H. rewrite bind_modify in H.
  apply bind_Ok_inv in H as (ld' & w2 & H1 & H).
  apply calculate_load_Ok_inv in H1 as [-> Hd1].
  apply bind_Ok_inv in H as ([] & w3 & H1 & H).
  apply set_station_Ok_inv in H1 as ->.
  eexists. split; [|split; [by rewrite Ha|split; [done|split; [|exact H]]]].
  - done.
  - intros Hd. apply Hd1. unfold task_state. simpl. rewrite lookup_insert_eq. simpl.
    change (default (init_task_state c) (tasks w !! tid c)) with (task_state w c).
    rewrite Hd. done.
Qed.

Lemma flatten_task_eq t : flatten_task t = t :: flatten (next_steps t).
Proof. by destruct t. Qed.

Lemma flatten_cons c l : flatten (c :: l) = (c :: flatten (next_steps c)) ++ flatten l.
Proof. unfold flatten. simpl. by rewrite flatten_task_eq. Qed.

Lemma depths_lowered_nil w : depths_lowered [] w w.
Proof. split; [by intros t ?%elem_of_nil|done]. Qed.

Lemma depths_lowered_app S1 S2 w w1 w2 :
  NoDup (tid <$> S1 ++ S2) →
  depths_lowered S1 w w1 → depths_lowered S2 w1 w2 → depths_lowered (S1 ++ S2) w w2.
Proof.
  rewrite fmap_app. intros Hnd [Hin1 Hout1] [Hin2 Hout2].
  apply NoDup_app in Hnd as (_ & Hdis & _).
  split.
  - intros t Ht. apply elem_of_app in Ht as [Ht|Ht].
    + rewrite Hout2, Hin1; [done..|].
      apply Hdis. by apply list_elem_of_fmap_2.
    + rewrite Hin2 by done. rewrite Hout1; [done|].
      intros Ht1. by apply (Hdis _ Ht1), list_elem_of_fmap_2.
  - intros t Ht. rewrite fmap_app, not_elem_of_app in Ht. destruct Ht as [Ht1 Ht2].
    by rewrite Hout2, Hout1.
Qed.

Lemma depths_lowered_one c w w1 :
  tasks w1 = <[tid c := set_depth (depth (task_state w c) - 1) (task_state w c)]> (tasks w) →
  depths_lowered [c] w w1.
Proof.
  intros Ht. split.
  - intros t ->%list_elem_of_singleton. unfold task_state at 1. rewrite Ht.
    by rewrite lookup_insert_eq.
  - intros t Hne. simpl in Hne. rewrite list_elem_of_singleton in Hne.
    unfold task_state. rewrite Ht. by rewrite lookup_insert_ne.
Qed.

(** [update_childs_indrect_load]: when it succeeds, every task below the
    given one had a station and a depth other than 0 and 1, and is now one
    level up. *)
Lemma update_childs_depths task :
  ∀ w w',
    update_childs_indrect_load task w = Ok tt w' →
    NoDup (tid <$> flatten (next_steps task)) →
    depths_lowered (flatten (next_steps task)) w w' ∧
    ∀ t, t ∈ flatten (next_steps task) →
         is_Some (assigned_station (task_state w t)) ∧
         depth (task_state w t) ≠ 0%Z ∧ depth (task_state w t) ≠ 1%Z.
Proof.
  induction task as [task IH] using Task_children_ind.
  intros w w'. rewrite update_childs_indrect_load_eq.
  generalize dependent w.
  induction (next_steps task) as [|c l IHl]; intros w Hrun Hnd.
  - rewrite for_each_nil in Hrun. injection Hrun as <-.
    split; [apply depths_lowered_nil|]. by intros t ?%elem_of_nil.
  - apply Forall_cons in IH as [IHc IH]. specialize (IHl IH).
    rewrite for_each_cons in Hrun.
    apply bind_Ok_inv in Hrun as ([] & w2 & Hc & Hrun).
    apply update_child_Ok_inv in Hc as (w1 & Ht1 & Hsome & Hd0 & Hd1 & Hc).
    rewrite flatten_cons in Hnd |- *.
    pose proof Hnd as Hnd'. rewrite fmap_app in Hnd'.
    apply NoDup_app in Hnd' as (Hndc & Hdis & Hndl).
    pose proof Hndc as Hndc'. rewrite fmap_cons in Hndc'.
    apply NoDup_cons in Hndc' as [Hcn Hndcc].
    destruct (IHc w1 w2 Hc Hndcc) as [Hlow12 Hok12].
    destruct (IHl w2 Hrun Hndl) as [Hlow2 Hok2].
    pose proof (depths_lowered_one c w w1 Ht1) as Hlow1.
    assert (Hlowc : depths_lowered (c :: flatten (next_steps c)) w w2).
    { apply (depths_lowered_app [c] _ w w1 w2); done. }
    split.
    + by eapply depths_lowered_app.
    + intros t Ht. apply elem_of_app in Ht as [Ht|Ht].
      * apply elem_of_cons in Ht as [->|Ht]; [done|].
        destruct (Hok12 t Ht) as (Hs & H0 & H1).
        destruct Hlow1 as [_ Hout].
        assert (Hsame : task_state w1 t = task_state w t).
        { apply Hout. simpl. rewrite list_elem_of_singleton. intros Heq. apply Hcn.
          rewrite <- Heq. by apply list_elem_of_fmap_2. }
        by rewrite Hsame in Hs, H0, H1.
      * destruct (Hok2 t Ht) as (Hs & H0 & H1).
        destruct Hlowc as [_ Hout].
        assert (Hsame : task_state w2 t = task_state w t).
        { apply Hout. intros Hin. by apply (Hdis _ Hin), list_elem_of_fmap_2. }
        by rewrite Hsame in Hs, H0, H1.
Qed.

Lemma elem_of_flatten t l : t ∈ flatten l ↔ ∃ c, c ∈ l ∧ t ∈ flatten_task c.
Proof.
  unfold flatten. induction l as [|x l IH]; simpl.
  - split; [by intros ?%elem_of_nil|]. by intros (c & ?%elem_of_nil & _).
  - rewrite elem_of_app, IH. split.
    + intros [H|(c & Hc & H)]; [exists x; split; [left|done]|exists c; split; [by right|done]].
    + intros (c & Hc & H). apply elem_of_cons in Hc as [->|Hc]; [by left|right; eauto].
Qed.

Lemma flatten_task_sublist_of c l : c ∈ l → flatten_task c `sublist_of` flatten l.
Proof.
  unfold flatten. induction l as [|x l IH]; [by intros ?%elem_of_nil|].
  intros [->|Hc]%elem_of_cons; simpl.
  - by apply sublist_inserts_r.
  - by apply sublist_inserts_l, IH.
Qed.

(** The tasks below a task of a plan stand together in the flattened plan. *)
Lemma flatten_task_sublist x t : t ∈ flatten_task x → flatten_task t `sublist_of` flatten_task x.
Proof.
  revert t. induction x as [x IH] using Task_children_ind. intros t.
  rewrite (flatten_task_eq x). intros [->|Ht]%elem_of_cons.
  - by rewrite <- flatten_task_eq.
  - apply sublist_cons. apply elem_of_flatten in Ht as (c & Hc & Ht).
    rewrite Forall_forall in IH. etrans; [by apply (IH c Hc)|].
    by apply flatten_task_sublist_of.
Qed.

Lemma flatten_sublist l t : t ∈ flatten l → flatten_task t `sublist_of` flatten l.
Proof.
  intros (c & Hc & Ht)%elem_of_flatten.
  etrans; [by apply flatten_task_sublist|]. by apply flatten_task_sublist_of.
Qed.

Lemma set_order_Ok_inv o f w w' :
  set_order o f w = Ok tt w' → w' = set_orders (alter f o (orders w)) w.
Proof.
  unfold set_order. intros H. apply bind_Ok_inv in H as (s & w1 & H1 & H).
  apply get_order_Ok_inv in H1 as [-> _]. by injection H as <-.
Qed.

(** X10. When the update of the loads on the completion of a task succeeds
    ([Order.update_load_contribution]), the completed task (the first task of
    the plan with that name) has depth [-1], every task below it in the plan
    has moved up by one level (its depth is smaller by one) and no other task
    has changed; the tasks below it all had a station, and none of them was at
    depth 0 or 1. *)
Theorem completion_lowers_depths (w w' : World) (o : nat) (ord : Order)
    (completed_task : Task) :
  orders w !! o = Some ord →
  NoDup (tid <$> flat_plan ord) →
  update_load_contribution o completed_task w = Ok tt w' →
  ∃ task,
    List.find (λ t, str_eqb (task_name t) (task_name completed_task)) (flat_plan ord)
      = Some task ∧
    task_state w' task = set_depth (-1) (task_state w task) ∧
    (∀ t, t ∈ flatten (next_steps task) →
          task_state w' t = set_depth (depth (task_state w t) - 1) (task_state w t) ∧
          is_Some (assigned_station (task_state w t)) ∧
          depth (task_state w t) ≠ 0%Z ∧ depth (task_state w t) ≠ 1%Z) ∧
    (∀ t, tid t ∉ tid <$> flatten_task task → task_state w' t = task_state w t).
Proof.
  intros Hord Hnd H. unfold update_load_contribution in H.
  rewrite (bind_Ok _ _ _ _ _ (get_order_Ok _ _ _ Hord)) in H.
  destruct (List.find _ (flat_plan ord)) as [task|] eqn:Hfind; [|done].
  exists task. split; [done|].
  apply find_some in Hfind as [Hin _]. apply list_elem_of_In in Hin.
  assert (Hndt : NoDup (tid <$> flatten_task task)).
  { eapply sublist_NoDup; [exact Hnd|]. apply fmap_sublist. by apply flatten_sublist. }
  rewrite flatten_task_eq, fmap_cons in Hndt. apply NoDup_cons in Hndt as [Htn Hndc].
  unfold get_task in H. rewrite bind_gets in H.
  destruct (assigned_station (task_state w task)) as [a|]; [|done].
  unfold set_task in H. rewrite bind_modify in H.
  set (w1 := set_tasks _ w) in H.
  apply bind_Ok_inv in H as (st & w2 & H1 & H).
  apply get_station_Ok_inv in H1 as [-> Hst].
  apply bind_Ok_inv in H as ([] & w2 & H1 & H).
  apply set_order_Ok_inv in H1 as ->.
  set (w2 := set_orders _ w1) in H.
  apply bind_Ok_inv in H as ([] & w3 & H1 & H).
  destruct (update_childs_depths task w2 w3 H1 Hndc) as [[Hlow Hout] Hok].
  assert (Ht' : tasks w' = tasks w3).
  { pose proof H as H'. unfold compute_load_contributions in H'.
    apply bind_Ok_inv in H' as (ord3 & w4 & H2 & _).
    apply get_order_Ok_inv in H2 as [-> Hord3].
    by rewrite (compute_load_contributions_Ok_inv _ _ _ _ Hord3 H). }
  assert (Hw2 : ∀ t, tid t ≠ tid task → task_state w2 t = task_state w t).
  { intros t Hne. unfold task_state. simpl. by rewrite lookup_insert_ne. }
  assert (Hts : ∀ t, task_state w' t = task_state w3 t).
  { intros t. unfold task_state. by rewrite Ht'. }
  split; [|split].
  - rewrite Hts, Hout by done. unfold task_state at 1. simpl. by rewrite lookup_insert_eq.
  - intros t Ht.
    assert (Hne : tid t ≠ tid task).
    { intros Heq. apply Htn. rewrite <- Heq. by apply list_elem_of_fmap_2. }
    rewrite Hts, (Hlow t Ht). destruct (Hok t Ht) as (Hs & H0 & H1').
    by rewrite (Hw2 t Hne) in *.
  - intros t Ht. rewrite flatten_task_eq, fmap_cons, not_elem_of_cons in Ht.
    destruct Ht as [Hne Ht]. by rewrite Hts, Hout, Hw2.
Qed.

Lemma completion_lowers_depths_witness :
  ∃ task,
    List.find (λ t, str_eqb (task_name t) (task_name Fixture.t1)) (flat_plan Fixture.o1)
      = Some task ∧
    task_state t1_completed task = set_depth (-1) (task_state released_shop task) ∧
    (∀ t, t ∈ flatten (next_steps task) →
          task_state t1_completed t
          = set_depth (depth (task_state released_shop t) - 1) (task_state released_shop t) ∧
          is_Some (assigned_station (task_state released_shop t)) ∧
          depth (task_state released_shop t) ≠ 0%Z ∧
          depth (task_state released_shop t) ≠ 1%Z) ∧
    (∀ t, tid t ∉ tid <$> flatten_task task →
          task_state t1_completed t = task_state released_shop t).
Proof.
  apply (completion_lowers_depths released_shop t1_completed 0
           (set_ready_tasks []
              (set_load_contributions
                 (load_contributions (default Fixture.o1 (orders released_shop !! 0%nat)))
                 Fixture.o1))
           Fixture.t1).
  - vm_compute. reflexivity.
  - apply (bool_decide_unpack _). vm_compute. reflexivity.
  - vm_compute. reflexivity.
Defined.

(** ** The release of an order *)

(** What a successful [add_task] has done. *)
Lemma add_task_Ok_inv self o task w w' :
  add_task self o task w = Ok tt w' →
  ∃ st ord l st',
    station_list w !! self = Some st ∧
    orders w !! o = Some ord ∧
    list_remove same_task task (ready_tasks ord) = Some l ∧
    orders w' = <[o := set_ready_tasks l ord]> (orders w) ∧
    station_list w' = <[self := st']> (station_list w) ∧
    ws_tasks_queue st' = ws_tasks_queue st ++ [(o, task)] ∧
    (∀ t, assigned_station (task_state w' t) = assigned_station (task_state w t)).
Proof.
  intros H. pose proof H as H0. unfold add_task in H0.
  apply bind_Ok_inv in H0 as (st & w0 & H1 & H0).
  apply get_station_Ok_inv in H1 as [-> Hst].
  apply bind_Ok_inv in H0 as ([] & w1 & Hpre & H0).
  assert (Hw1 : orders w1 = orders w ∧ station_list w1 = station_list w ∧
                depth (task_state w1 task) = depth (task_state w task) ∧
                ∀ t, assigned_station (task_state w1 t) = assigned_station (task_state w t)).
  { destruct (orControlSystem st).
    - pose proof Hpre as Hpre'. unfold calculate_planned_start_time in Hpre'.
      apply bind_Ok_inv in Hpre' as (ord0 & w2 & H2 & _).
      apply get_order_Ok_inv in H2 as [-> Hord0].
      rewrite (calculate_planned_start_time_Ok _ _ _ _ Hord0) in Hpre.
      injection Hpre as <-. split; [done|]. split; [done|].
      split; [by rewrite task_state_planned|]. intros t.
      destruct (decide (tid t = tid task)) as [Heq|Hne].
      + rewrite (assigned_station_same_tid _ t task Heq), task_state_planned.
        by rewrite (assigned_station_same_tid w t task Heq).
      + unfold task_state. simpl. by rewrite lookup_insert_ne.
    - by injection Hpre as <-. }
  destruct Hw1 as (Hord1 & Hst1 & Hd1 & Has1).
  apply bind_Ok_inv in H0 as (ld & w2 & H1 & H0).
  apply calculate_load_Ok_inv in H1 as [-> Hd].
  apply bind_Ok_inv in H0 as ([] & w2 & H1 & H0).
  apply decrease_indirect_load_Ok_inv in H1 as [sl ->].
  apply bind_Ok_inv in H0 as (ord & w3 & H1 & _).
  apply get_order_Ok_inv in H1 as [_ Hord]. simpl in Hord. rewrite Hord1 in Hord.
  rewrite Hd1 in Hd.
  rewrite (add_task_eq w self o task st ord Hst Hord Hd) in H. cbv zeta in H.
  destruct (Qltb (clipped _) 0); [done|].
  destruct (list_remove same_task task (ready_tasks ord)) as [l|] eqn:Hl; [|done].
  assert (Hlt : (self < length (station_list w))%nat) by by eapply lookup_lt_Some.
  assert (Hq : ∀ t, assigned_station (task_state (task_queued self o task st ord l w) t)
                    = assigned_station (task_state w t)).
  { intros t. unfold task_queued. destruct (orControlSystem st); [|done].
    destruct (decide (tid t = tid task)) as [Heq|Hne].
    - rewrite (assigned_station_same_tid _ t task Heq).
      rewrite (assigned_station_same_tid w t task Heq).
      unfold task_state at 1. simpl. by rewrite lookup_insert_eq.
    - unfold task_state. simpl. by rewrite lookup_insert_ne. }
  assert (Hqueued : ∃ st', station_list (task_queued self o task st ord l w)
                           = <[self := st']> (station_list w) ∧
                           ws_tasks_queue st' = ws_tasks_queue st ++ [(o, task)] ∧
                           idle_event st' = idle_event st).
  { eexists. split; [by unfold task_queued|]. done. }
  destruct Hqueued as (st' & Hsl & Hq' & Hie).
  destruct (idle st).
  - destruct (bool_decide _); [done|]. injection H as <-.
    exists st, ord, l, (set_idle_event (next_event (task_queued self o task st ord l w)) st').
    split; [done|]. split; [done|]. split; [done|].
    split; [by unfold woken, task_queued|]. split.
    { unfold woken. cbn [station_list set_station_list]. rewrite Hsl.
      rewrite (alter_lookup_insert _ _ _ st') by by apply list_lookup_insert_eq.
      by rewrite list_insert_insert_eq. }
    split; [done|]. intros t. by rewrite <- Hq.
  - injection H as <-. exists st, ord, l, st'.
    split; [done|]. split; [done|]. split; [done|].
    split; [by unfold task_queued|]. done.
Qed.

(** [add_load_contribution] always succeeds, and touches nothing but the
    indirect loads of the stations. *)
Lemma charge_stations_shape (LL : list (string * gmap string Contribution)) sl w :
  ∃ sl', for_each LL (λ '(station_id, tks),
           sl <- gets station_list ;;
           match find_station station_id sl with
           | Some i =>
               for_each (map_to_list tks) (λ '(_, data),
                 set_station i (λ s, set_indirect_load (indirect_load s + load data)%Q s))
           | None => ret tt
           end) (set_station_list sl w)
         = Ok tt (set_station_list sl' w) ∧
         ∀ i s, sl !! i = Some s → ∃ x, sl' !! i = Some (set_indirect_load x s).
Proof.
  revert sl. induction LL as [|[k tks] LL IH]; intros sl.
  - exists sl. split; [done|]. intros i s Hs. exists (indirect_load s).
    by rewrite set_indirect_load_id.
  - rewrite for_each_cons. rewrite bind_assoc, bind_gets.
    cbn [station_list set_station_list].
    destruct (find_station k sl) as [i|] eqn:Hf.
    + unfold find_station in Hf.
      destruct (list_find _ sl) as [[i' s]|] eqn:Hfind; [|done]. injection Hf as ->.
      apply list_find_Some in Hfind as (Hs & _).
      destruct (charge_station (map_to_list tks) i s sl w Hs) as (x1 & Hrun1 & _).
      rewrite (bind_Ok _ _ _ _ _ Hrun1).
      destruct (IH (<[i := set_indirect_load x1 s]> sl)) as (sl' & Hrun & Hsh).
      exists sl'. split; [done|]. intros j s' Hj.
      destruct (decide (j = i)) as [->|Hne].
      * assert (s' = s) as -> by congruence.
        destruct (Hsh i (set_indirect_load x1 s)) as (x & Hx).
        { apply list_lookup_insert_eq. by eapply lookup_lt_Some. }
        by exists x.
      * apply Hsh. by rewrite list_lookup_insert_ne.
    + rewrite bind_ret. apply IH.
Qed.

(** The loop of [release_order]: the ready tasks leave the order one by one,
    from the head, each for the end of the queue of its station. *)
Lemma release_loop o (R : list Task) :
  ∀ w w' ord,
    for_each R (λ task,
      s <- get_task task ;;
      match assigned_station s with
      | Some assigned_station => add_task assigned_station o task
      | None => raise (AttributeError "'NoneType' object has no attribute 'id'")
      end) w = Ok tt w' →
    orders w !! o = Some ord →
    ready_tasks ord = R →
    orders w' !! o = Some (set_ready_tasks [] ord) ∧
    (∀ t, assigned_station (task_state w' t) = assigned_station (task_state w t)) ∧
    ∀ i st, station_list w !! i = Some st →
            ∃ st', station_list w' !! i = Some st' ∧
                   ws_tasks_queue st'
                   = ws_tasks_queue st
                     ++ ((λ t, (o, t)) <$>
                         filter (λ t, assigned_station (task_state w t) = Some i) R).
Proof.
  induction R as [|t R IH]; intros w w' ord Hrun Hord Hready.
  - rewrite for_each_nil in Hrun. injection Hrun as <-.
    split; [by rewrite <- Hready, set_ready_tasks_id|]. split; [done|].
    intros i st Hst. exists st. split; [done|]. by rewrite app_nil_r.
  - rewrite for_each_cons in Hrun.
    apply bind_Ok_inv in Hrun as ([] & w1 & Ht & Hrun).
    unfold get_task in Ht. rewrite bind_gets in Ht.
    destruct (assigned_station (task_state w t)) as [a|] eqn:Ha; [|done].
    apply add_task_Ok_inv in Ht
      as (sta & ord0 & l & sta' & Hsta & Hord0 & Hl & Hords & Hsl & Hq & Has).
    assert (ord0 = ord) as -> by congruence.
    rewrite Hready in Hl. simpl in Hl. unfold same_task at 1 in Hl.
    rewrite Nat.eqb_refl in Hl. injection Hl as <-.
    assert (Hlo : (o < length (orders w))%nat) by by eapply lookup_lt_Some.
    assert (Hla : (a < length (station_list w))%nat) by by eapply lookup_lt_Some.
    destruct (IH w1 w' (set_ready_tasks R ord) Hrun) as (Hord' & Has' & Hqs).
    { rewrite Hords. by apply list_lookup_insert_eq. }
    { done. }
    split; [done|]. split; [intros t'; by rewrite Has', Has|].
    intros i st Hst.
    assert (Hfilter : filter (λ t, assigned_station (task_state w1 t) = Some i) R
                      = filter (λ t, assigned_station (task_state w t) = Some i) R).
    { apply list_filter_iff. intros t'. by rewrite Has. }
    destruct (decide (i = a)) as [->|Hne].
    + assert (st = sta) as -> by congruence.
      destruct (Hqs a sta') as (st' & Hst' & Hq').
      { rewrite Hsl. by apply list_lookup_insert_eq. }
      exists st'. split; [done|]. rewrite Hq', Hq, Hfilter.
      rewrite filter_cons_True by done. by rewrite <- app_assoc.
    + destruct (Hqs i st) as (st' & Hst' & Hq').
      { rewrite Hsl. by rewrite list_lookup_insert_ne. }
      exists st'. split; [done|]. rewrite Hq', Hfilter.
      rewrite filter_cons_False; [done|]. rewrite Ha. congruence.
Qed.

(** X11. When the release of an order succeeds ([release_order]), no task
    of the order is left ready, and the queue of every station has been
    extended by exactly the ready tasks that were assigned to it, in the order
    in which they stood in [ready_tasks]; nothing has been taken from a
    queue. *)
Theorem release_order_queues_ready_tasks (w w' : World) (o : nat) (ord : Order) :
  orders w !! o = Some ord →
  release_order o w = Ok tt w' →
  orders w' !! o = Some (set_ready_tasks [] ord) ∧
  ∀ i st, station_list w !! i = Some st →
          ∃ st', station_list w' !! i = Some st' ∧
                 ws_tasks_queue st'
                 = ws_tasks_queue st
                   ++ ((λ t, (o, t)) <$>
                       filter (λ t, assigned_station (task_state w t) = Some i)
                              (ready_tasks ord)).
Proof.
  intros Hord Hrun. unfold release_order in Hrun.
  apply bind_Ok_inv in Hrun as ([] & w1 & Hcharge & Hrun).
  unfold add_load_contribution in Hcharge.
  rewrite (bind_Ok _ _ _ _ _ (get_order_Ok _ _ _ Hord)) in Hcharge.
  destruct (charge_stations_shape (map_to_list (load_contributions ord)) (station_list w) w)
    as (sl' & Hc & Hsh).
  rewrite set_station_list_id in Hc. rewrite Hc in Hcharge. injection Hcharge as <-.
  assert (Hord1 : orders (set_station_list sl' w) !! o = Some ord) by done.
  rewrite (bind_Ok _ _ _ _ _ (get_order_Ok _ _ _ Hord1)) in Hrun.
  cbv zeta in Hrun. rewrite get_next_ready_tasks_eq in Hrun.
  destruct (release_loop o (ready_tasks ord) _ _ ord Hrun Hord1 eq_refl) as (Hord' & _ & Hqs).
  split; [done|]. intros i st Hst.
  destruct (Hsh i st Hst) as (x & Hx).
  destruct (Hqs i (set_indirect_load x st) Hx) as (st' & Hst' & Hq).
  by exists st'.
Qed.

Lemma release_order_queues_ready_tasks_witness :
  ∃ ord,
    orders routed_shop !! 0%nat = Some ord ∧
    orders released_shop !! 0%nat = Some (set_ready_tasks [] ord) ∧
    ∀ i st, station_list routed_shop !! i = Some st →
            ∃ st', station_list released_shop !! i = Some st' ∧
                   ws_tasks_queue st'
                   = ws_tasks_queue st
                     ++ ((λ t, (0%nat, t)) <$>
                         filter (λ t, assigned_station (task_state routed_shop t) = Some i)
                                (ready_tasks ord)).
Proof.
  eexists. split; [reflexivity|].
  apply (release_order_queues_ready_tasks routed_shop released_shop 0).
  - reflexivity.
  - vm_compute. reflexivity.
Defined.

(** The first order of the test has one ready task, T1, which goes to A-1. *)
Example release_order_run :
  ws_tasks_queue <$> station_list released_shop !! 0%nat = Some [(0%nat, Fixture.t1)].
Proof. reflexivity. Qed.

(** ** The arrival of an order *)

Lemma no_idle_station_loop (l : list nat) w :
  (∀ i, i ∈ l → ∃ st, station_list w !! i = Some st ∧
                      (idle st = false ∨ idle_event st ∈ triggered w)) →
  for_each l (λ i,
    st <- get_station i ;;
    tr <- gets triggered ;;
    if idle st && negb (bool_decide (idle_event st ∈ tr))
    then continuous_release i else ret tt) w = Ok tt w.
Proof.
  induction l as [|i l IH]; intros Hl; [done|].
  rewrite for_each_cons.
  destruct (Hl i) as (st & Hst & Hbusy); [left|].
  cbv beta. rewrite bind_assoc.
  rewrite (bind_Ok _ _ _ _ _ (get_station_Ok _ _ _ Hst)), bind_assoc, bind_gets.
  assert (Hc : idle st && negb (bool_decide (idle_event st ∈ triggered w)) = false).
  { destruct Hbusy as [->|Hin]; [done|].
    rewrite (bool_decide_eq_true_2 _ Hin). apply andb_false_r. }
  rewrite Hc, bind_ret. apply IH. intros j Hj. apply Hl. by right.
Qed.

(** X12. When no station is waiting for work (each station is busy, or has
    been signalled already), the arrival of an order ([add_order]) only puts
    the order at the end of the pool and logs [Order Arrival]: no release is
    attempted and the pool is not sorted. *)
Theorem add_order_without_idle_station (w : World) (o : nat) (ord : Order) :
  orders w !! o = Some ord →
  (∀ i st, station_list w !! i = Some st →
           idle st = false ∨ idle_event st ∈ triggered w) →
  add_order o w
  = Ok tt (set_events
             (events w ++ [mkLogEvent (now w) "N/A" (order_id ord) "N/A" "Order Arrival"])
             (set_order_list (order_list w ++ [o]) w)).
Proof.
  intros Hord Hbusy.
  assert (Hadd : pool_add_order o w
    = Ok tt (set_events
               (events w ++ [mkLogEvent (now w) "N/A" (order_id ord) "N/A" "Order Arrival"])
               (set_order_list (order_list w ++ [o]) w))).
  { unfold pool_add_order. rewrite bind_modify.
    rewrite (bind_Ok _ _ _ _ _
               (get_order_Ok (set_order_list (order_list w ++ [o]) w) _ _ Hord)).
    by rewrite bind_gets. }
  unfold add_order. rewrite (bind_Ok _ _ _ _ _ Hadd).
  unfold check_and_release_idle_stations. rewrite bind_gets.
  cbn [station_list set_events set_order_list now events].
  apply no_idle_station_loop. intros i Hi. apply elem_of_seq in Hi as [_ Hi].
  simpl in Hi. destruct (lookup_lt_is_Some_2 _ _ Hi) as [st Hst].
  exists st. split; [done|]. by apply (Hbusy i).
Qed.

Lemma add_order_without_idle_station_witness :
  add_order 0 two_stations
  = Ok tt (set_events
             (events two_stations
              ++ [mkLogEvent (now two_stations) "N/A" "O-3" "N/A" "Order Arrival"])
             (set_order_list (order_list two_stations ++ [0%nat]) two_stations)).
Proof.
  apply (add_order_without_idle_station two_stations 0
           (new_order "O-3" 1 2 30 2 "Plan" [z1])).
  - reflexivity.
  - intros i st Hi. left.
    do 2 (destruct i as [|i]; [injection Hi as <-; reflexivity|]).
    discriminate Hi.
Defined.

(** ** The choice of the next task *)

Lemma key_lt_irrefl k : key_lt k k = false.
Proof.
  unfold key_lt. rewrite Z.ltb_irrefl, Z.eqb_refl. simpl.
  apply Qltb_ge. apply Qle_refl.
Qed.

(** X13. A station whose queue is not empty turns busy, sorts its queue by
    its dispatching rule and takes the task at its head: no queued entry has a
    smaller key (priority of the order, then the key of the rule), and among
    the entries whose key is as small it is the one that stood first in the
    queue.  The queue keeps all its entries (the task leaves it only on
    completion), and the turn cannot fail on an empty queue. *)
Theorem start_processing_takes_least (w : World) (self : nat) (st : Workstation) :
  station_list w !! self = Some st →
  ws_tasks_queue st ≠ [] →
  dispatching_rule st ∈ ["FCFS"; "SPT"; "PST"] →
  Forall (λ e, is_Some (orders w !! e.1)) (ws_tasks_queue st) →
  (dispatching_rule st = "PST" →
   Forall (λ e, is_Some (planned_start_time (task_state w e.2))) (ws_tasks_queue st) ∨
   Forall (λ e, planned_start_time (task_state w e.2) = None) (ws_tasks_queue st)) →
  let key := dispatch_key (dispatching_rule st) w in
  ∃ o task q,
    start_processing_turn self w
    = Ok (WaitProcess o task)
         (set_station_list
            (<[self := set_ws_tasks_queue ((o, task) :: q) (set_idle false st)]>
               (station_list w)) w) ∧
    (o, task) :: q ≡ₚ ws_tasks_queue st ∧
    (∀ e, e ∈ ws_tasks_queue st → key_le (key (o, task)) (key e)) ∧
    head (filter (λ e, tied (key e) (key (o, task)) = true) (ws_tasks_queue st))
    = Some (o, task).
Proof.
  intros Hst Hne Hrule Hrefs Hpst key.
  remember (py_sort key_lt key (ws_tasks_queue st)) as sorted eqn:Hs.
  assert (Hperm : sorted ≡ₚ ws_tasks_queue st) by (rewrite Hs; apply py_sort_Permutation).
  assert (Hsorted : StronglySorted (not_after key_lt key) sorted)
    by (rewrite Hs; apply py_sort_sorted; [exact key_lt_asym|exact key_le_trans]).
  assert (Hstable : ∀ k, filter (λ e, tied (key e) k = true) sorted
                         = filter (λ e, tied (key e) k = true) (ws_tasks_queue st)).
  { intros k. rewrite Hs. apply py_sort_stable. intros x y Hx Hy. by eapply tied_not_after. }
  destruct sorted as [|[o task] q].
  { exfalso. apply Hne. by apply Permutation_nil_l in Hperm. }
  exists o, task, q.
  split; [|split; [done|split]].
  - unfold start_processing_turn.
    rewrite (bind_Ok _ _ _ _ _ (get_station_Ok _ _ _ Hst)).
    destruct (ws_tasks_queue st) as [|e0 q0] eqn:Hq; [done|]. rewrite <- Hq in *.
    rewrite (bind_Ok _ _ _ _ _ (set_station_Ok _ _ _ _ Hst)).
    rewrite (alter_lookup_insert _ _ _ _ Hst).
    set (w1 := set_station_list _ w).
    assert (Hlt : (self < length (station_list w))%nat) by by eapply lookup_lt_Some.
    assert (Hst1 : station_list w1 !! self = Some (set_idle false st)).
    { unfold w1. cbn [station_list set_station_list]. by apply list_lookup_insert_eq. }
    rewrite (bind_Ok _ _ _ _ _ (sort_tasks_eq w1 self (set_idle false st) Hst1 Hrule Hrefs Hpst)).
    cbn [ws_tasks_queue dispatching_rule set_idle].
    change (dispatch_key (dispatching_rule st) w1) with key.
    rewrite <- Hs.
    rewrite (alter_lookup_insert _ _ _ _ Hst1).
    unfold w1. cbn [station_list set_station_list].
    rewrite list_insert_insert_eq, set_station_list_twice.
    set (w2 := set_station_list _ w).
    assert (Hst2 : station_list w2 !! self
                   = Some (set_ws_tasks_queue ((o, task) :: q) (set_idle false st))).
    { unfold w2. cbn [station_list set_station_list]. by apply list_lookup_insert_eq. }
    by rewrite (bind_Ok _ _ _ _ _ (get_station_Ok _ _ _ Hst2)).
  - intros e He. rewrite <- Hperm in He.
    apply elem_of_cons in He as [->|He].
    + unfold key_le. right. split; [done|apply Qle_refl].
    + apply StronglySorted_inv in Hsorted as [_ Hall]. rewrite Forall_forall in Hall.
      specialize (Hall e He). unfold not_after in Hall. by apply key_lt_false in Hall.
  - rewrite <- Hstable. rewrite filter_cons_True; [done|].
    unfold tied. by rewrite key_lt_irrefl.
Qed.

Lemma start_processing_takes_least_witness :
  ∃ st,
    station_list two_queued !! 0%nat = Some st ∧
    let key := dispatch_key (dispatching_rule st) two_queued in
    ∃ o task q,
      start_processing_turn 0 two_queued
      = Ok (WaitProcess o task)
           (set_station_list
              (<[0%nat := set_ws_tasks_queue ((o, task) :: q) (set_idle false st)]>
                 (station_list two_queued)) two_queued) ∧
      (o, task) :: q ≡ₚ ws_tasks_queue st ∧
      (∀ e, e ∈ ws_tasks_queue st → key_le (key (o, task)) (key e)) ∧
      head (filter (λ e, tied (key e) (key (o, task)) = true) (ws_tasks_queue st))
      = Some (o, task).
Proof.
  eexists. split; [reflexivity|].
  apply (start_processing_takes_least two_queued 0).
  - reflexivity.
  - discriminate.
  - right; left.
  - repeat constructor; eexists; reflexivity.
  - intros H. discriminate H.
Defined.

(** Under SPT station A-1 takes the task of 2 time units first. *)
Example start_processing_spt :
  ∃ w', start_processing_turn 0 two_queued = Ok (WaitProcess 1 Fixture.u1) w'.
Proof. eexists. reflexivity. Qed.

(** ** A new order *)

Lemma initialize_tasks_roots (plan : list Task) :
  Forall (λ t, parent_task t = None ∧
               Forall (λ c, parent_task c ≠ None) (flatten (next_steps t))) plan →
  initialize_tasks (create_flat_plan plan) = plan.
Proof.
  unfold initialize_tasks, create_flat_plan.
  induction 1 as [|t plan [Hroot Hinner] _ IH]; [done|].
  rewrite flatten_cons, filter_app, filter_cons_True by done.
  rewrite IH. simpl. f_equal.
  replace (filter (λ t0, parent_task t0 = None) (flatten (next_steps t))) with (@nil Task);
    [done|].
  symmetry. induction Hinner as [|c l Hc _ IHl]; [done|].
  by rewrite filter_cons_False.
Qed.

Lemma flatten_nil_iff (plan : list Task) : flatten plan = [] ↔ plan = [].
Proof.
  split; [|by intros ->]. destruct plan as [|t plan]; [done|].
  by rewrite flatten_cons.
Qed.

(** X14. A new order ([Order.__init__]) has no completed task, no finish
    time, no load contribution and no revenue; it counts as finished from the
    start exactly when its plan has no task.  When the roots of the plan are
    the tasks without a parent, the ready tasks of the new order are the
    roots of the plan, in the order of the plan. *)
Theorem new_order_initial_state (order_id : string) (depth : Z) (arrival_time due_date : Q)
    (priority : Z) (plan_name : string) (process_plan : list Task) :
  let ord := new_order order_id depth arrival_time due_date priority plan_name process_plan in
  (is_finished ord = true ↔ process_plan = []) ∧
  (process_plan ≠ [] → is_overdue ord = None) ∧
  total_revenue ord = 0%Q ∧
  (Forall (λ t, parent_task t = None ∧
                Forall (λ c, parent_task c ≠ None) (flatten (next_steps t))) process_plan →
   ready_tasks ord = process_plan).
Proof.
  intros ord.
  assert (Hfin : is_finished ord = true ↔ process_plan = []).
  { unfold is_finished, ord, new_order, flat_plan, create_flat_plan. simpl.
    rewrite bool_decide_eq_true. rewrite <- flatten_nil_iff.
    destruct (flatten process_plan) as [|t l]; [done|]. simpl. split; [|done].
    intros Heq. exfalso. eapply (not_elem_of_empty (C := gset string)).
    rewrite Heq. apply elem_of_union_l, elem_of_singleton. reflexivity. }
  split; [done|]. split; [|split].
  - intros Hne. unfold is_overdue. destruct (is_finished ord) eqn:E; [|done].
    exfalso. apply Hne. by apply Hfin.
  - unfold total_revenue, ord, new_order. simpl.
    induction (flat_plan _) as [|t l IH]; [done|]. simpl. exact IH.
  - apply initialize_tasks_roots.
Qed.

Lemma new_order_initial_state_witness :
  let ord := new_order "O-1" 4 1 15 2 "Plan1" Fixture.plan1 in
  (is_finished ord = true ↔ Fixture.plan1 = []) ∧
  (Fixture.plan1 ≠ [] → is_overdue ord = None) ∧
  total_revenue ord = 0%Q ∧
  ready_tasks ord = Fixture.plan1.
Proof.
  pose proof (new_order_initial_state "O-1" 4 1 15 2 "Plan1" Fixture.plan1) as (H1 & H2 & H3 & H4).
  split; [exact H1|]. split; [exact H2|]. split; [exact H3|].
  apply H4. repeat constructor; discriminate.
Defined.

(** ** The revenue of an order *)

Lemma py_sum_acc (a : Q) (l : list Q) : (foldl Qplus a l == a + py_sum l)%Q.
Proof.
  unfold py_sum. revert a. induction l as [|x l IH]; intros a; simpl.
  - ring.
  - rewrite (IH (a + x)%Q), (IH (0 + x)%Q). ring.
Qed.

Lemma py_sum_cons (x : Q) (l : list Q) : (py_sum (x :: l) == x + py_sum l)%Q.
Proof. unfold py_sum at 1. simpl. rewrite py_sum_acc. ring. Qed.

Lemma py_sum_app (l1 l2 : list Q) : (py_sum (l1 ++ l2) == py_sum l1 + py_sum l2)%Q.
Proof.
  induction l1 as [|x l1 IH]; simpl.
  - unfold py_sum at 2. simpl. ring.
  - rewrite !py_sum_cons, IH. ring.
Qed.

Lemma existsb_same_task_snoc t task l :
  existsb (same_task t) (l ++ [task]) = existsb (same_task t) l || same_task t task.
Proof. rewrite existsb_app. simpl. by rewrite orb_false_r. Qed.

Lemma filter_completed_other task completed (l : list Task) :
  tid task ∉ tid <$> l →
  List.filter (λ t, existsb (same_task t) (completed ++ [task])) l
  = List.filter (λ t, existsb (same_task t) completed) l.
Proof.
  intros Hno. apply List.filter_ext_in. intros t Ht. apply list_elem_of_In in Ht.
  rewrite existsb_same_task_snoc.
  assert (Hne : same_task t task = false).
  { unfold same_task. apply Nat.eqb_neq. intros Heq. apply Hno. rewrite <- Heq.
    by apply list_elem_of_fmap_2. }
  by rewrite Hne, orb_false_r.
Qed.

(** X15. The revenue of an order ([Order.total_revenue]) counts every
    completed task of the plan once: marking a task of the plan as completed
    ([mark_task_as_completed]) raises the revenue by the revenue of the task
    when the task was not completed yet, and leaves it as it is when it
    was. *)
Theorem completion_adds_revenue (w : World) (self o : nat) (ord : Order) (task : Task) :
  orders w !! o = Some ord →
  NoDup (tid <$> flat_plan ord) →
  task ∈ flat_plan ord →
  ∃ w' ord',
    mark_task_as_completed self o task w = Ok tt w' ∧
    orders w' !! o = Some ord' ∧
    (total_revenue ord'
     == total_revenue ord
        + (if existsb (same_task task) (completed_tasks ord) then 0 else revenue task))%Q.
Proof.
  intros Hord Hnd Hin.
  assert (Hrev : (total_revenue (marked task ord)
                  == total_revenue ord
                     + (if existsb (same_task task) (completed_tasks ord)
                        then 0 else revenue task))%Q).
  { unfold total_revenue, marked, set_add_task, flat_plan. simpl.
    fold (flat_plan ord).
    destruct (existsb (same_task task) (completed_tasks ord)) eqn:Hdone; [simpl; ring|].
    simpl. apply list_elem_of_split in Hin as (l1 & l2 & Hflat). rewrite Hflat in *.
    rewrite fmap_app, fmap_cons in Hnd.
    apply NoDup_app in Hnd as (_ & Hdis & Hnd2). apply NoDup_cons in Hnd2 as [Hn2 _].
    assert (Hn1 : tid task ∉ tid <$> l1).
    { intros H1. apply (Hdis _ H1). left. }
    rewrite !List.filter_app. simpl.
    rewrite existsb_same_task_snoc, Hdone. unfold same_task at 2. rewrite Nat.eqb_refl. simpl.
    rewrite !(filter_completed_other task _ _ Hn1), !(filter_completed_other task _ _ Hn2).
    rewrite !fmap_app, fmap_cons, !py_sum_app, py_sum_cons. ring. }
  assert (Hlt : (o < length (orders w))%nat) by by eapply lookup_lt_Some.
  rewrite (mark_task_as_completed_Ok w self o task ord Hord).
  destruct (is_finished (marked task ord)).
  - eexists _, _. split; [done|]. split.
    + cbn [orders set_events set_orders]. by apply list_lookup_insert_eq.
    + exact Hrev.
  - eexists _, _. split; [done|]. split.
    + cbn [orders set_orders]. by apply list_lookup_insert_eq.
    + exact Hrev.
Qed.

Lemma completion_adds_revenue_witness :
  ∃ ord w' ord',
    orders last_task_shop !! 0%nat = Some ord ∧
    mark_task_as_completed 0 0 last_task last_task_shop = Ok tt w' ∧
    orders w' !! 0%nat = Some ord' ∧
    (total_revenue ord'
     == total_revenue ord
        + (if existsb (same_task last_task) (completed_tasks ord)
           then 0 else revenue last_task))%Q.
Proof.
  eexists. 
  assert (Hord : orders last_task_shop !! 0%nat
                 = Some (set_ready_tasks [] (new_order "O-1" 1 1 15 2 "Plan" [last_task])))
    by reflexivity.
  destruct (completion_adds_revenue last_task_shop 0 0 _ last_task Hord)
    as (w' & ord' & H1 & H2 & H3).
  - apply (bool_decide_unpack _). reflexivity.
  - left.
  - exists w', ord'. split; [exact Hord|]. split; [exact H1|]. split; [exact H2|exact H3].
Defined.

(** The single task of the order is worth 30. *)
Example revenue_of_last_task :
  ∃ ord', orders (final (mark_task_as_completed 0 0 last_task last_task_shop)) !! 0%nat
          = Some ord' ∧ (total_revenue ord' == 30)%Q.
Proof. eexists. split; [reflexivity|]. reflexivity. Qed.

(** ** The periodic release *)

Global Instance pool_shrinks_preorder : PreOrder pool_shrinks.
Proof.
  split.
  - intros w. by unfold pool_shrinks.
  - intros w1 w2 w3 H1 H2. unfold pool_shrinks in *. by etrans.
Qed.

Global Instance pool_shrinks_steady : Steady pool_shrinks.
Proof.
  split; try (intros; by unfold pool_shrinks). exact pool_shrinks_preorder.
Qed.

Lemma list_remove_sublist {A} (eqb : A → A → bool) x (l l' : list A) :
  list_remove eqb x l = Some l' → l' `sublist_of` l.
Proof.
  revert l'. induction l as [|y l IH]; intros l'; simpl; [done|].
  destruct (eqb y x).
  - intros [= <-]. by apply sublist_cons.
  - destruct (list_remove eqb x l) as [l0|]; [|done]. simpl. intros [= <-].
    by apply sublist_skip, IH.
Qed.

Lemma preserves_pool_remove_order o : preserves pool_shrinks (pool_remove_order o).
Proof.
  intros w. unfold pool_remove_order. rewrite bind_gets.
  destruct (list_remove Nat.eqb o (order_list w)) as [l'|] eqn:E; simpl; [|done].
  by eapply list_remove_sublist.
Qed.

Lemma preserves_set_task_pool t f : preserves pool_shrinks (set_task t f).
Proof. intros w. by unfold pool_shrinks. Qed.

Lemma preserves_route_task_pool trig t : preserves pool_shrinks (route_task trig t).
Proof.
  unfold route_task. cbv zeta.
  pose proof preserves_set_task_pool.
  frame.
Qed.

Lemma preserves_set_detailed_routing_pool o trig :
  preserves pool_shrinks (set_detailed_routing o trig).
Proof.
  unfold set_detailed_routing.
  pose proof preserves_route_task_pool.
  frame.
Qed.

Lemma preserves_can_release_order (R : relation World) `{!PreOrder R} o :
  preserves R (can_release_order o).
Proof.
  unfold can_release_order, estimate_load_contribution. frame.
Qed.

(** X16. A round of the periodic release sorts the pool and then only takes
    orders out of it: however the round ends, the orders left in the pool are
    orders of the sorted pool, in the order of the sorted pool; no order
    enters the pool or changes its place during the scan. *)
Theorem periodic_release_shrinks_pool (w ws : World) :
  sort_orders w = Ok tt ws →
  order_list ws ≡ₚ order_list w ∧
  order_list (final (periodic_release_round w)) `sublist_of` order_list ws.
Proof.
  intros Hsort. split; [by apply sort_orders_Permutation|].
  unfold periodic_release_round. rewrite bind_gets.
  destruct (order_list w) as [|o0 l0] eqn:Hol.
  { unfold sort_orders in Hsort. rewrite !bind_gets, Hol in Hsort.
    injection Hsort as <-. simpl. by rewrite Hol. }
  rewrite (bind_Ok _ _ _ _ _ Hsort), bind_gets.
  pose proof preserves_set_detailed_routing_pool.
  pose proof preserves_pool_remove_order.
  pose proof (preserves_can_release_order pool_shrinks).
  assert (Hloop : preserves pool_shrinks
            (for_each (order_list ws) (λ o,
               set_detailed_routing o None ;;;
               r <- can_release_order o ;;
               ord <- get_order o ;;
               t <- gets now ;;
               if r.1 then
                 log_event t "N/A" (order_id ord) "N/A" "Order Released" ;;;
                 release_order o ;;;
                 pool_remove_order o
               else
                 log_event t "N/A" (order_id ord) "N/A" "Order Release Rejected")))
    by frame.
  exact (Hloop ws).
Qed.

Lemma periodic_release_shrinks_pool_witness :
  order_list two_stations ≡ₚ order_list two_stations ∧
  order_list (final (periodic_release_round two_stations)) `sublist_of` order_list two_stations.
Proof.
  apply (periodic_release_shrinks_pool two_stations two_stations).
  vm_compute. reflexivity.
Defined.

(** ** The generation of orders *)

Section TaskDataInduction.
Variable P : TaskData → Prop.
Hypothesis step : ∀ d, Forall P (td_next_steps d) → P d.

Fixpoint TaskData_children_ind (d : TaskData) : P d :=
  step d ((fix children (l : list TaskData) : Forall P l :=
             match l with
             | [] => @List.Forall_nil TaskData P
             | c :: l' => @List.Forall_cons TaskData P c l' (TaskData_children_ind c) (children l')
             end) (td_next_steps d)).
End TaskDataInduction.

Section GeneratorFacts.
Context {G : Type} `{!NumpyRandom G}.

Lemma traverse_and_generate_eq (self : OrderGenerator) task_data current_depth max_depth
    parent_task (s : GenState G) :
  traverse_and_generate self task_data current_depth max_depth parent_task s =
  if (max_depth <? current_depth)%Z then (None, s)
  else
    let '(process_time, g') :=
      generate_erlang_process_time (td_time_min task_data) (td_time_max task_data) 2 1 (rng s) in
    let task_id := fresh s in
    let '(next_steps, s') :=
      collect (λ next_task_data,
                 traverse_and_generate self next_task_data (current_depth + 1) max_depth
                   (Some (td_task task_data)))
              (td_next_steps task_data) (mkGenState g' (S task_id)) in
    (Some (mkTask task_id (td_task task_data) (py_round process_time 2)
             (td_produced_component task_data) (td_revenue task_data)
             (default "Unknown" (task_to_station self !! td_task task_data))
             next_steps parent_task current_depth),
     s').
Proof. by destruct task_data. Qed.

Lemma kept_names_eq max_depth current_depth d :
  kept_names max_depth current_depth d =
  if (max_depth <? current_depth)%Z then []
  else td_task d :: flat_map (kept_names max_depth (current_depth + 1)) (td_next_steps d).
Proof. by destruct d. Qed.

Lemma collect_nil {A B S} (f : A → S → option B * S) s : collect f [] s = ([], s).
Proof. done. Qed.

Lemma collect_cons {A B S} (f : A → S → option B * S) x l s :
  collect f (x :: l) s =
  let '(y, s1) := f x s in
  let '(ys, s2) := collect f l s1 in
  (match y with Some b => b :: ys | None => ys end, s2).
Proof. done. Qed.

Lemma collect_children (self : OrderGenerator) (n : string) (cd md : Z)
    (l : list TaskData) :
  Forall (λ d, ∀ cd md parent (s : GenState G),
            ((md < cd)%Z → traverse_and_generate self d cd md parent s = (None, s)) ∧
            ((cd ≤ md)%Z →
             ∃ t s', traverse_and_generate self d cd md parent s = (Some t, s') ∧
                     generated md cd parent d s s' t)) l →
  ∀ s, ∃ ts s',
    collect (λ d, traverse_and_generate self d (cd + 1) md (Some n)) l s = (ts, s') ∧
    (fresh s ≤ fresh s')%nat ∧
    Forall (well_formed_task (cd + 1) (Some n)) ts ∧
    Forall (λ u, (cd + 1 ≤ depth0 u ≤ md)%Z) (flatten ts) ∧
    Forall (λ u, (fresh s ≤ tid u < fresh s')%nat) (flatten ts) ∧
    Forall (λ u, is_Some (parent_task u)) (flatten ts) ∧
    NoDup (tid <$> flatten ts) ∧
    task_name <$> flatten ts = flat_map (kept_names md (cd + 1)) l.
Proof.
  induction 1 as [|d l Hd _ IH]; intros s.
  - exists [], s. split; [done|]. split; [done|]. repeat split; by constructor.
  - rewrite collect_cons. destruct (Hd (cd + 1)%Z md (Some n) s) as [Hnone Hsome].
    destruct (Z.lt_ge_cases md (cd + 1)) as [Hlt|Hge].
    + rewrite (Hnone Hlt).
      destruct (IH s) as (ts & s' & Hrun & Hfresh & Hwf & Hdep & Htid & Hpar & Hnd & Hnames).
      rewrite Hrun. exists ts, s'. split; [done|]. split; [done|].
      split; [done|]. split; [done|]. split; [done|]. split; [done|]. split; [done|].
      simpl. rewrite (kept_names_eq md (cd + 1) d).
      by rewrite (proj2 (Z.ltb_lt _ _) Hlt).
    + destruct (Hsome Hge) as (c & s1 & Hc & Hwfc & Hdepc & Htidc & Hparc & Hndc & Hnamesc).
      rewrite Hc.
      destruct (IH s1) as (ts & s' & Hrun & Hfresh & Hwf & Hdep & Htid & Hpar & Hnd & Hnames).
      rewrite Hrun. exists (c :: ts), s'.
      assert (Hs1 : (fresh s < fresh s1)%nat).
      { rewrite Forall_forall in Htidc. specialize (Htidc c).
        rewrite flatten_task_eq in Htidc. specialize (Htidc ltac:(left)). lia. }
      split; [done|]. split; [lia|]. split; [by constructor|].
      change (flatten (c :: ts)) with (flatten_task c ++ flatten ts).
      split; [by apply Forall_app|]. split.
      { apply Forall_app. split.
        - eapply Forall_impl; [exact Htidc|]. simpl. intros; lia.
        - eapply Forall_impl; [exact Htid|]. simpl. intros; lia. }
      split.
      { apply Forall_app. split; [|done]. rewrite flatten_task_eq.
        constructor; [|done]. inversion Hwfc as [? ? ? _ Hp _]. by rewrite Hp. }
      split.
      { rewrite fmap_app. apply NoDup_app. split; [done|]. split; [|done].
        intros i Hi1 Hi2.
        apply list_elem_of_fmap in Hi1 as (u1 & -> & Hu1).
        apply list_elem_of_fmap in Hi2 as (u2 & Heq & Hu2).
        rewrite Forall_forall in Htidc, Htid.
        specialize (Htidc _ Hu1). specialize (Htid _ Hu2). simpl in *. lia. }
      rewrite fmap_app, Hnamesc, Hnames. done.
Qed.

(** [traverse_and_generate] returns [None] beyond the maximal depth, without
    drawing a number; down to the maximal depth it returns a task. *)
Lemma traverse_and_generate_spec (self : OrderGenerator) (d : TaskData) :
  ∀ cd md parent (s : GenState G),
    ((md < cd)%Z → traverse_and_generate self d cd md parent s = (None, s)) ∧
    ((cd ≤ md)%Z →
     ∃ t s', traverse_and_generate self d cd md parent s = (Some t, s') ∧
             generated md cd parent d s s' t).
Proof.
  induction d as [d IH] using TaskData_children_ind.
  intros cd md parent s. rewrite traverse_and_generate_eq. split.
  - intros Hlt. by rewrite (proj2 (Z.ltb_lt _ _) Hlt).
  - intros Hle. rewrite (proj2 (Z.ltb_ge _ _) Hle).
    unfold generate_erlang_process_time.
    destruct (random_gamma 2 1 (rng s)) as [e g']. cbv zeta.
    destruct (collect_children self (td_task d) cd md (td_next_steps d) IH
                (mkGenState g' (S (fresh s))))
      as (ts & s' & Hrun & Hfresh & Hwf & Hdep & Htid & Hpar & Hnd & Hnames).
    rewrite Hrun. eexists _, s'. split; [reflexivity|].
    simpl in Hfresh.
    unfold generated. rewrite flatten_task_eq. cbn [next_steps].
    split; [by constructor|]. split.
    { constructor; [simpl; lia|]. eapply Forall_impl; [exact Hdep|]. simpl. intros; lia. }
    split.
    { constructor; [simpl; lia|]. eapply Forall_impl; [exact Htid|]. simpl. intros; lia. }
    split; [done|]. split.
    { rewrite fmap_cons. apply NoDup_cons. split; [|done]. intros Hin.
      apply list_elem_of_fmap in Hin as (u & Heq & Hu).
      rewrite Forall_forall in Htid. specialize (Htid _ Hu). simpl in Htid, Heq. lia. }
    rewrite (kept_names_eq md cd d), (proj2 (Z.ltb_ge _ _) Hle).
    rewrite fmap_cons. by rewrite Hnames.
Qed.
End GeneratorFacts.

Section OrdersGenerated.
Context {G : Type} `{!NumpyRandom G}.

Lemma collect_all_cons {A B S} (f : A → S → B * S) x l s :
  collect_all f (x :: l) s =
  let '(y, s1) := f x s in
  let '(ys, s2) := collect_all f l s1 in
  (y :: ys, s2).
Proof. done. Qed.

Lemma checked_plan_Some (ts : list Task) : checked_plan (Some <$> ts) = inr ts.
Proof.
  induction ts as [|t ts IH]; [done|]. rewrite fmap_cons. cbn [checked_plan].
  by rewrite IH.
Qed.

(** The roots of a plan, generated at level 1 for an order of depth at least
    1. *)
Lemma collect_roots (self : OrderGenerator) (md : Z) (l : list TaskData) :
  (1 ≤ md)%Z →
  ∀ s : GenState G, ∃ ts s',
    collect_all (λ d, traverse_and_generate self d 1 md None) l s = (Some <$> ts, s') ∧
    (fresh s ≤ fresh s')%nat ∧
    length ts = length l ∧
    Forall (well_formed_task 1 None) ts ∧
    Forall (λ t, Forall (λ u, is_Some (parent_task u)) (flatten (next_steps t))) ts ∧
    Forall (λ u, (1 ≤ depth0 u ≤ md)%Z) (flatten ts) ∧
    Forall (λ u, (fresh s ≤ tid u < fresh s')%nat) (flatten ts) ∧
    NoDup (tid <$> flatten ts) ∧
    task_name <$> flatten ts = flat_map (kept_names md 1) l.
Proof.
  intros Hmd. induction l as [|d l IH]; intros s.
  - exists [], s. split; [done|]. split; [done|]. repeat split; by constructor.
  - rewrite collect_all_cons.
    destruct (proj2 (traverse_and_generate_spec self d 1 md None s) Hmd)
      as (c & s1 & Hc & Hwfc & Hdepc & Htidc & Hparc & Hndc & Hnamesc).
    rewrite Hc.
    destruct (IH s1)
      as (ts & s' & Hrun & Hfresh & Hlen & Hwf & Hpar & Hdep & Htid & Hnd & Hnames).
    rewrite Hrun. exists (c :: ts), s'.
    assert (Hs1 : (fresh s < fresh s1)%nat).
    { rewrite Forall_forall in Htidc. specialize (Htidc c).
      rewrite flatten_task_eq in Htidc. specialize (Htidc ltac:(left)). lia. }
    split; [done|]. split; [lia|]. split; [simpl; lia|].
    split; [by constructor|]. split; [by constructor|].
    change (flatten (c :: ts)) with (flatten_task c ++ flatten ts).
    split; [by apply Forall_app|]. split.
    { apply Forall_app. split.
      - eapply Forall_impl; [exact Htidc|]. simpl. intros; lia.
      - eapply Forall_impl; [exact Htid|]. simpl. intros; lia. }
    split.
    { rewrite fmap_app. apply NoDup_app. split; [done|]. split; [|done].
      intros i Hi1 Hi2.
      apply list_elem_of_fmap in Hi1 as (u1 & -> & Hu1).
      apply list_elem_of_fmap in Hi2 as (u2 & Heq & Hu2).
      rewrite Forall_forall in Htidc, Htid.
      specialize (Htidc _ Hu1). specialize (Htid _ Hu2). simpl in *. lia. }
    rewrite fmap_app, Hnamesc, Hnames. done.
Qed.

Lemma collect_no_roots (self : OrderGenerator) (md : Z) (l : list TaskData) :
  (md < 1)%Z →
  ∀ s : GenState G,
    collect_all (λ d, traverse_and_generate self d 1 md None) l s
    = (replicate (length l) None, s).
Proof.
  intros Hmd. induction l as [|d l IH]; intros s; [done|].
  rewrite collect_all_cons.
  rewrite (proj1 (traverse_and_generate_spec self d 1 md None s) Hmd).
  by rewrite IH.
Qed.
(** An order generated for a depth of at least 1. *)
Lemma generate_dpp_order_Ok (self : OrderGenerator) (order_index : nat) (dpp : Dpp)
    (arrival : Q) (s : GenState G) :
  let d := (random_randint 1 (order_max_depth self + 1) (rng s)).1 in
  (1 ≤ d)%Z →
  ∃ ord s',
    generate_dpp_order self order_index dpp arrival s = (inr ord, s') ∧
    (fresh s ≤ fresh s')%nat ∧
    Forall (λ u, (fresh s ≤ tid u < fresh s')%nat) (flat_plan ord) ∧
    order_id ord = "O-" +:+ pretty (order_index + 1)%nat ∧
    order_depth ord = d ∧
    arrival_time ord = arrival ∧
    plan_name ord = dpp_process_plan dpp ∧
    length (process_plan ord) = length (dpp_disassembly_flow dpp) ∧
    ready_tasks ord = process_plan ord ∧
    Forall (well_formed_task 1 None) (process_plan ord) ∧
    Forall (λ u, (1 ≤ depth0 u ≤ d)%Z) (flat_plan ord) ∧
    NoDup (tid <$> flat_plan ord) ∧
    task_name <$> flat_plan ord
    = flat_map (kept_names d 1) (dpp_disassembly_flow dpp).
Proof.
  intros d0. unfold generate_dpp_order. subst d0.
  destruct (random_randint 1 (order_max_depth self + 1) (rng s)) as [d g1].
  destruct (random_uniform _ _ g1) as [u g2].
  destruct (random_choice _ _ g2) as [p g3]. cbv zeta. cbn [fst].
  intros Hd.
  destruct (collect_roots self d (dpp_disassembly_flow dpp) Hd (mkGenState g3 (fresh s)))
    as (ts & s' & Hrun & Hfresh & Hlen & Hwf & Hpar & Hdep & Htid & Hnd & Hnames).
  rewrite Hrun. cbv beta iota. rewrite checked_plan_Some.
  eexists _, s'. split; [reflexivity|].
  cbn [order_id order_depth arrival_time plan_name process_plan ready_tasks new_order].
  split; [done|]. split; [done|].
  split; [done|]. split; [done|]. split; [done|]. split; [done|]. split; [done|].
  split.
  { apply initialize_tasks_roots. rewrite Forall_forall in Hwf, Hpar |- *.
    intros t Ht. split.
    - pose proof (Hwf t Ht) as Hwft. by inversion Hwft.
    - eapply Forall_impl; [exact (Hpar t Ht)|]. simpl. intros c [x Hx]. by rewrite Hx. }
  done.
Qed.
End OrdersGenerated.

(** X17. [generate_dpp_order] draws the depth of the order, its due date and
    its priority and builds the tasks of the plan down to that depth
    ([traverse_and_generate] returns nothing for a task beyond it).  For a
    depth of at least 1 the order is [O-] followed by the index plus one; its
    tasks are those of the plan whose level is at most the depth, in the order
    of the plan, each a task object of its own with its level as depth and the
    name of its parent; its ready tasks are the roots of the plan.  Were the
    depth drawn below 1, the plan would hold [None] for each root and the
    construction of the order would raise [AttributeError]. *)
Theorem generate_dpp_order_builds_order {G : Type} `{!NumpyRandom G}
    (self : OrderGenerator) (order_index : nat) (dpp : Dpp) (arrival : Q)
    (s : GenState G) :
  let d := (random_randint 1 (order_max_depth self + 1) (rng s)).1 in
  ((1 ≤ d)%Z →
   ∃ ord s',
     generate_dpp_order self order_index dpp arrival s = (inr ord, s') ∧
     order_id ord = "O-" +:+ pretty (order_index + 1)%nat ∧
     order_depth ord = d ∧
     arrival_time ord = arrival ∧
     plan_name ord = dpp_process_plan dpp ∧
     length (process_plan ord) = length (dpp_disassembly_flow dpp) ∧
     ready_tasks ord = process_plan ord ∧
     Forall (well_formed_task 1 None) (process_plan ord) ∧
     Forall (λ u, (1 ≤ depth0 u ≤ d)%Z) (flat_plan ord) ∧
     NoDup (tid <$> flat_plan ord) ∧
     task_name <$> flat_plan ord
     = flat_map (kept_names d 1) (dpp_disassembly_flow dpp)) ∧
  ((d < 1)%Z → dpp_disassembly_flow dpp ≠ [] →
   ∃ s', generate_dpp_order self order_index dpp arrival s
         = (inl (AttributeError "'NoneType' object has no attribute 'next_steps'"), s')).
Proof.
  intros d. split.
  - intros Hd.
    destruct (generate_dpp_order_Ok self order_index dpp arrival s Hd)
      as (ord & s' & Hrun & _ & _ & Hrest).
    by exists ord, s'.
  - unfold generate_dpp_order. subst d.
    destruct (random_randint 1 (order_max_depth self + 1) (rng s)) as [d g1].
    destruct (random_uniform _ _ g1) as [u g2].
    destruct (random_choice _ _ g2) as [p g3]. cbv zeta. cbn [fst].
    intros Hd Hflow. rewrite (collect_no_roots self d _ Hd).
    destruct (dpp_disassembly_flow dpp) as [|r l]; [done|]. by eexists.
Qed.

Lemma generate_dpp_order_builds_order_witness :
  let s := mkGenState 0%nat 100%nat in
  let d := (random_randint 1 (order_max_depth small_generator + 1) (rng s)).1 in
  ∃ ord s',
    generate_dpp_order small_generator 0 small_plan 0 s = (inr ord, s') ∧
    order_id ord = "O-" +:+ pretty (0 + 1)%nat ∧
    order_depth ord = d ∧
    arrival_time ord = 0%Q ∧
    plan_name ord = dpp_process_plan small_plan ∧
    length (process_plan ord) = length (dpp_disassembly_flow small_plan) ∧
    ready_tasks ord = process_plan ord ∧
    Forall (well_formed_task 1 None) (process_plan ord) ∧
    Forall (λ u, (1 ≤ depth0 u ≤ d)%Z) (flat_plan ord) ∧
    NoDup (tid <$> flat_plan ord) ∧
    task_name <$> flat_plan ord
    = flat_map (kept_names d 1) (dpp_disassembly_flow small_plan).
Proof.
  apply (proj1 (generate_dpp_order_builds_order small_generator 0 small_plan 0
                  (mkGenState 0%nat 100%nat))).
  vm_compute. discriminate.
Defined.

(** With a depth of 2 drawn, T4 (at level 3) is left out of the order. *)
Example generate_dpp_order_run :
  ∃ ord s', generate_dpp_order small_generator 0 small_plan 0 (mkGenState 0%nat 100%nat)
            = (inr ord, s') ∧
            order_id ord = "O-1" ∧
            task_name <$> flat_plan ord = ["T1"; "T2"; "T3"] ∧
            depth0 <$> flat_plan ord = [1; 2; 2]%Z.
Proof. eexists _, _. split; [vm_compute; reflexivity|]. repeat split. Qed.

(** ** The sequence of generated orders *)

Section OrdersInSequence.
Context {G : Type} `{!NumpyRandom G}.
Variable self : OrderGenerator.
Hypothesis Hdepth :
  ∀ g, (1 ≤ (random_randint 1 (order_max_depth self + 1) g).1)%Z.
Hypothesis Hgap :
  ∀ g, (0 <= (random_exponential (inter_arrival_time_mean self) g).1)%Q.

Lemma generate_orders_from_Ok (n : nat) : ∀ (i : nat) (arrival : Q) (s : GenState G),
  ∃ os s',
    generate_orders_from self n i arrival s = (inr os, s') ∧
    (fresh s ≤ fresh s')%nat ∧
    length os = n ∧
    (∀ k ord, os !! k = Some ord → order_id ord = "O-" +:+ pretty (i + k + 1)%nat) ∧
    (∀ ord, head os = Some ord → arrival_time ord = arrival) ∧
    Forall (λ ord, (arrival <= arrival_time ord)%Q) os ∧
    StronglySorted (λ a b, (arrival_time a <= arrival_time b)%Q) os ∧
    Forall (λ ord, ready_tasks ord = process_plan ord ∧
                   Forall (λ u, (1 ≤ depth0 u ≤ order_depth ord)%Z) (flat_plan ord)) os ∧
    Forall (λ u, (fresh s ≤ tid u < fresh s')%nat) (flat_map flat_plan os) ∧
    NoDup (tid <$> flat_map flat_plan os).
Proof.
  induction n as [|n IH]; intros i arrival s.
  - exists [], s. split; [done|]. split; [done|]. split; [done|].
    split; [by intros k ord; rewrite lookup_nil|]. split; [done|].
    repeat split; by constructor.
  - cbn [generate_orders_from].
    destruct (random_choice_bool (rng s)) as [choice g1].
    set (dpp := if choice then dpp_plan1 self else dpp_plan2 self).
    destruct (generate_dpp_order_Ok self i dpp arrival (mkGenState g1 (fresh s))
                (Hdepth g1))
      as (ord & s1 & Hrun & Hfresh1 & Htid1 & Hid & Hd & Harr & _ & _ & Hready & _
          & Hdep & Hnd1 & _).
    cbn [fresh rng] in Hfresh1, Htid1.
    rewrite Hrun.
    pose proof (Hgap (rng s1)) as Hx.
    destruct (random_exponential (inter_arrival_time_mean self) (rng s1)) as [x g2].
    cbn [fst] in Hx.
    destruct (IH (S i) (arrival + x)%Q (mkGenState g2 (fresh s1)))
      as (os & s2 & Hrest & Hfresh2 & Hlen & Hids & _ & Hlater & Hsorted & Hshape
          & Htid2 & Hnd2).
    cbn [fresh rng] in Hfresh2, Htid2.
    rewrite Hrest. exists (ord :: os), s2. split; [done|].
    split; [lia|]. split; [by rewrite length_cons, Hlen|].
    split.
    { intros [|k] ord' Hk; simpl in Hk.
      - injection Hk as <-. by rewrite Nat.add_0_r.
      - rewrite (Hids k ord' Hk). do 2 f_equal. lia. }
    split; [by intros ord' [= <-]|].
    assert (Forall (λ o, (arrival <= arrival_time o)%Q) os) as Hlater'.
    { eapply Forall_impl; [exact Hlater|]. simpl. intros o Ho.
      eapply Qle_trans; [|exact Ho]. rewrite <- (Qplus_0_r arrival) at 1.
      by apply Qplus_le_r. }
    split.
    { constructor; [rewrite Harr; apply Qle_refl|exact Hlater']. }
    split.
    { constructor; [exact Hsorted|]. rewrite Harr. exact Hlater'. }
    split.
    { constructor; [|done]. split; [done|]. by rewrite Hd. }
    cbn [flat_map]. split.
    { apply Forall_app. split.
      - eapply Forall_impl; [exact Htid1|]. simpl. intros u Hu. lia.
      - eapply Forall_impl; [exact Htid2|]. simpl. intros u Hu. lia. }
    rewrite fmap_app. apply NoDup_app. split; [done|]. split; [|done].
    intros j Hj1 Hj2.
    apply list_elem_of_fmap in Hj1 as (u1 & -> & Hu1).
    apply list_elem_of_fmap in Hj2 as (u2 & Heq & Hu2).
    rewrite Forall_forall in Htid1, Htid2.
    specialize (Htid1 u1 Hu1). specialize (Htid2 u2 Hu2). lia.
Qed.
End OrdersInSequence.

(** X18. [generate_orders] makes [total_orders] orders.  With a depth of at
    least 1 drawn for each order and inter-arrival times that are not
    negative, the orders are named O-1, O-2, ... in the order of the list,
    the first arrives at time 0 and no order arrives before the one in front
    of it; each order has the roots of its plan as ready tasks and tasks at
    depths from 1 to its own depth; and no task object belongs to two orders
    or occurs twice in one. *)
Theorem generate_orders_in_arrival_order {G : Type} `{!NumpyRandom G}
    (self : OrderGenerator) (s : GenState G) :
  (∀ g, (1 ≤ (random_randint 1 (order_max_depth self + 1) g).1)%Z) →
  (∀ g, (0 <= (random_exponential (inter_arrival_time_mean self) g).1)%Q) →
  ∃ os s',
    generate_orders self s = (inr os, s') ∧
    length os = total_orders self ∧
    (∀ k ord, os !! k = Some ord → order_id ord = "O-" +:+ pretty (k + 1)%nat) ∧
    (∀ ord, head os = Some ord → arrival_time ord = 0%Q) ∧
    StronglySorted (λ a b, (arrival_time a <= arrival_time b)%Q) os ∧
    Forall (λ ord, ready_tasks ord = process_plan ord ∧
                   Forall (λ u, (1 ≤ depth0 u ≤ order_depth ord)%Z) (flat_plan ord)) os ∧
    NoDup (tid <$> flat_map flat_plan os).
Proof.
  intros Hdepth Hgap. unfold generate_orders.
  destruct (generate_orders_from_Ok self Hdepth Hgap (total_orders self) 0 0 s)
    as (os & s' & Hrun & _ & Hlen & Hids & Hfirst & _ & Hsorted & Hshape & _ & Hnd).
  by exists os, s'.
Qed.

Lemma generate_orders_in_arrival_order_witness :
  ∃ os s',
    generate_orders small_generator (mkGenState 0%nat 100%nat) = (inr os, s') ∧
    length os = total_orders small_generator ∧
    (∀ k ord, os !! k = Some ord → order_id ord = "O-" +:+ pretty (k + 1)%nat) ∧
    (∀ ord, head os = Some ord → arrival_time ord = 0%Q) ∧
    StronglySorted (λ a b, (arrival_time a <= arrival_time b)%Q) os ∧
    Forall (λ ord, ready_tasks ord = process_plan ord ∧
                   Forall (λ u, (1 ≤ depth0 u ≤ order_depth ord)%Z) (flat_plan ord)) os ∧
    NoDup (tid <$> flat_map flat_plan os).
Proof.
  apply (generate_orders_in_arrival_order small_generator (mkGenState 0%nat 100%nat)).
  - intros g. vm_compute. discriminate.
  - intros g. vm_compute. discriminate.
Defined.

(** The ids and the arrival times of the first three of the orders generated
    with the inter-arrival time 0.648 at every draw. *)
Example generate_orders_run :
  ∃ os s', generate_orders small_generator (mkGenState 0%nat 100%nat) = (inr os, s') ∧
           order_id <$> take 3 os = ["O-1"; "O-2"; "O-3"] ∧
           Forall2 Qeq (arrival_time <$> take 3 os) [0; 648 # 1000; 1296 # 1000]%Q.
Proof.
  eexists _, _. split; [vm_compute; reflexivity|].
  split; [vm_compute; reflexivity|].
  vm_compute. repeat (constructor; [reflexivity|]). constructor.
Qed.

(** ** The output warehouse *)

#[export] Instance warehouses_kept_preorder : PreOrder warehouses_kept.
Proof.
  split; [by intros w|]. unfold warehouses_kept. intros w1 w2 w3 H12 H23. congruence.
Qed.

Section WarehousesKept.
Let R := warehouses_kept.

Lemma kept_set_station i f : preserves R (set_station i f).
Proof.
  unfold set_station. frame_step; [frame|]. apply preserves_modify. by intros w.
Qed.

Lemma kept_set_order o f : preserves R (set_order o f).
Proof.
  unfold set_order. frame_step; [frame|]. apply preserves_modify. by intros w.
Qed.

Lemma kept_set_task t f : preserves R (set_task t f).
Proof. apply preserves_modify. by intros w. Qed.

Lemma kept_log_event ts a b c d : preserves R (log_event ts a b c d).
Proof. apply preserves_modify. by intros w. Qed.

Lemma kept_log_error msg : preserves R (log_error msg).
Proof. apply preserves_modify. by intros w. Qed.

Lemma kept_succeed e : preserves R (succeed e).
Proof. intros w. unfold succeed. by destruct (bool_decide _). Qed.

Lemma kept_new_event : preserves R new_event.
Proof. by intros w. Qed.

Hint Resolve kept_set_station kept_set_order kept_set_task kept_log_event
  kept_log_error kept_succeed kept_new_event : frame.

Lemma kept_decrease_indirect_load a ld err :
  preserves R (decrease_indirect_load a ld err).
Proof. unfold decrease_indirect_load. frame. Qed.

Lemma kept_calculate_planned_start_time o task :
  preserves R (calculate_planned_start_time o task).
Proof. unfold calculate_planned_start_time. frame. Qed.

Hint Resolve kept_decrease_indirect_load kept_calculate_planned_start_time : frame.

Lemma kept_add_task self o task : preserves R (add_task self o task).
Proof. unfold add_task. frame. Qed.

Lemma kept_update_childs_indrect_load task :
  preserves R (update_childs_indrect_load task).
Proof.
  induction task as [task IH] using Task_children_ind.
  rewrite update_childs_indrect_load_eq. rewrite Forall_forall in IH.
  (apply preserves_for_each; frame_instance); intros child Hchild.
  specialize (IH child Hchild). frame.
Qed.

Hint Resolve kept_add_task kept_update_childs_indrect_load : frame.

Lemma kept_update_load_contribution o task :
  preserves R (update_load_contribution o task).
Proof. unfold update_load_contribution. frame. Qed.

Hint Resolve kept_update_load_contribution : frame.

Lemma kept_mark_task_as_completed self o task :
  preserves R (mark_task_as_completed self o task).
Proof. unfold mark_task_as_completed. frame. Qed.

Hint Resolve kept_mark_task_as_completed : frame.

Lemma kept_remove_task self o task : preserves R (remove_task self o task).
Proof. unfold remove_task, update_stations_loads. frame. Qed.

Hint Resolve kept_remove_task : frame.

(** [process_task] from the removal of the task on. *)
Lemma kept_after_storage self o task :
  preserves R
    (remove_task self o task ;;;
     ord <- get_order o ;;
     for_each (get_next_ready_tasks ord) (λ next_task,
       s <- get_task next_task ;;
       match assigned_station s with
       | Some child_station => add_task child_station o next_task
       | None => raise (AttributeError "'NoneType' object has no attribute 'id'")
       end)).
Proof. frame. Qed.
End WarehousesKept.

(** [process_task] after the timeout, with the station and the order at
    hand: the work time is counted and [Task Complete] is logged, then the
    component is stored, the task is removed and its successors are
    dispatched. *)
Lemma process_task_resume_eq self o task w st ord :
  station_list w !! self = Some st →
  orders w !! o = Some ord →
  process_task_resume self o task w
  = (match produced_component task with
     | Some c =>
         if str_eqb c "" then ret tt
         else
           whs <- gets warehouse_list ;;
           match list_find (λ wh, wh_id wh = output_warehouse st) whs with
           | Some (i, _) =>
               modify (λ w, set_warehouse_list
                              (alter (λ h, set_stock (stock h ++ [c]) h) i
                                 (warehouse_list w)) w)
           | None => raise (AttributeError "'NoneType' object has no attribute 'add_item'")
           end
     | None => ret tt
     end ;;;
     remove_task self o task ;;;
     ord <- get_order o ;;
     for_each (get_next_ready_tasks ord) (λ next_task,
       s <- get_task next_task ;;
       match assigned_station s with
       | Some child_station => add_task child_station o next_task
       | None => raise (AttributeError "'NoneType' object has no attribute 'id'")
       end))
      (set_events
         (events w ++ [mkLogEvent (now w) (id st) (order_id ord) (task_name task)
                         "Task Complete"])
         (set_station_list
            (alter (λ s, set_total_work_time (total_work_time s + process_time task)%Q s)
               self (station_list w)) w)).
Proof.
  intros Hst Ho. unfold process_task_resume.
  rewrite (bind_Ok _ _ _ _ _ (get_station_Ok _ _ _ Hst)).
  rewrite (bind_Ok _ _ _ _ _ (get_order_Ok _ _ _ Ho)).
  rewrite (bind_Ok _ _ _ _ _ (set_station_Ok _ _ _ _ Hst)).
  rewrite bind_gets. unfold log_event at 1. by rewrite bind_modify.
Qed.



(** The housing produced by the task is in stock after the run, which ends
    without an exception. *)
Example process_task_run :
  ∃ w', process_task_resume 0 0 h1 producing_shop = Ok tt w' ∧
        warehouse_list w' = [mkWarehouse "output-warehouse" ["housing"]] ∧
        ws_tasks_queue <$> station_list w' = [[]].
Proof. eexists. split; [vm_compute; reflexivity|]. by split. Qed.

(** ** The dispatching of the successors of a completed task *)

#[export] Instance dispatch_kept_preorder : PreOrder dispatch_kept.
Proof.
  split; [by intros w|].
  intros w1 w2 w3 (Hq & Hr & Hc & Ha) (Hq' & Hr' & Hc' & Ha').
  split; [congruence|]. split; [congruence|]. split; [congruence|].
  intros t. by rewrite Ha', Ha.
Qed.

Lemma fmap_alter_kept {A B} (p : A → B) (f : A → A) i (l : list A) :
  (∀ x, p (f x) = p x) → p <$> alter f i l = p <$> l.
Proof.
  intros H. revert i. induction l as [|x l IH]; intros [|i]; simpl; [done|done| |].
  - by rewrite H.
  - f_equal. apply IH.
Qed.

Lemma keeps_queue_indirect_load (g : Workstation → Q) :
  keeps_queue (λ s, set_indirect_load (g s) s).
Proof. by intros s. Qed.

Lemma keeps_queue_indirect_load_const x : keeps_queue (set_indirect_load x).
Proof. by intros s. Qed.

Lemma keeps_progress_lc (g : Order → gmap string (gmap string Contribution)) :
  keeps_progress (λ ord, set_load_contributions (g ord) ord).
Proof. by intros ord. Qed.

Lemma keeps_progress_completed (k1 k2 : string) (c : Contribution) :
  keeps_progress (λ ord,
    match load_contributions ord !! k1 with
    | Some tks =>
        if bool_decide (is_Some (tks !! k2))
        then set_load_contributions
               (<[k1 := <[k2 := c]> tks]> (load_contributions ord)) ord
        else ord
    | None => ord
    end).
Proof.
  intros ord. destruct (load_contributions ord !! k1) as [tks|]; [|done].
  by destruct (bool_decide _).
Qed.

Section DispatchKept.
Let R := dispatch_kept.

Lemma still_set_station i f : keeps_queue f → preserves R (set_station i f).
Proof.
  intros Hf. unfold set_station. frame_step; [frame|]. apply preserves_modify.
  intros w. split; [|done]. cbn [station_list set_station_list].
  by apply fmap_alter_kept.
Qed.

Lemma still_set_order o f : keeps_progress f → preserves R (set_order o f).
Proof.
  intros Hf. unfold set_order. frame_step; [frame|]. apply preserves_modify.
  intros w. split; [done|]. cbn [orders set_orders].
  split; [apply fmap_alter_kept; intros x; apply Hf|].
  split; [apply fmap_alter_kept; intros x; apply Hf|done].
Qed.

Lemma still_set_task t f : keeps_station f → preserves R (set_task t f).
Proof.
  intros Hf. apply preserves_modify. intros w.
  split; [done|]. split; [done|]. split; [done|].
  intros t'. unfold task_state at 1. cbn [tasks set_tasks].
  destruct (decide (tid t = tid t')) as [E|E].
  - rewrite E, lookup_insert_eq. cbn [default Datatypes.id]. rewrite Hf.
    by apply assigned_station_same_tid.
  - by rewrite lookup_insert_ne.
Qed.

Hint Resolve still_set_station still_set_order still_set_task
  keeps_queue_indirect_load keeps_queue_indirect_load_const keeps_progress_lc
  keeps_progress_completed : frame.

Lemma still_decrease_indirect_load a ld err :
  preserves R (decrease_indirect_load a ld err).
Proof. unfold decrease_indirect_load. frame. Qed.

Hint Resolve still_decrease_indirect_load : frame.

Lemma still_update_childs_indrect_load task :
  preserves R (update_childs_indrect_load task).
Proof.
  induction task as [task IH] using Task_children_ind.
  rewrite update_childs_indrect_load_eq. rewrite Forall_forall in IH.
  (apply preserves_for_each; frame_instance); intros child Hchild.
  specialize (IH child Hchild). frame.
Qed.

Lemma still_compute_load_contributions o :
  preserves R (compute_load_contributions o).
Proof. unfold compute_load_contributions. frame. Qed.

Hint Resolve still_update_childs_indrect_load still_compute_load_contributions : frame.

Lemma still_update_load_contribution o task :
  preserves R (update_load_contribution o task).
Proof. unfold update_load_contribution. frame. Qed.
End DispatchKept.

Lemma list_remove_existsb o task l q :
  list_remove same_entry (o, task) l = Some q →
  existsb (same_entry (o, task)) l = true.
Proof.
  revert q. induction l as [|[o' t'] l IH]; intros q; [done|].
  cbn [list_remove existsb].
  destruct (same_entry (o', t') (o, task)) eqn:E.
  - intros _. unfold same_entry, same_task in *. cbn [fst snd] in *.
    apply andb_true_iff in E as [E1 E2]. apply Nat.eqb_eq in E1, E2.
    apply orb_true_iff. left. apply andb_true_iff. split; by apply Nat.eqb_eq.
  - destruct (list_remove same_entry (o, task) l) as [q'|]; [|done].
    intros _. rewrite (IH q' eq_refl). apply orb_true_r.
Qed.

Lemma set_warehouse_list_id w : set_warehouse_list (warehouse_list w) w = w.
Proof. by destruct w. Qed.

(** What [remove_task] has done when it returns, for a task of the queue. *)
Lemma remove_task_Ok_inv self o task w w' st ord q :
  station_list w !! self = Some st →
  orders w !! o = Some ord →
  list_remove same_entry (o, task) (ws_tasks_queue st) = Some q →
  remove_task self o task w = Ok tt w' →
  ∃ w1 ordm,
    dispatch_kept w1 w' ∧
    station_list w1 = <[self := set_ws_tasks_queue q st]> (station_list w) ∧
    orders w1 = <[o := ordm]> (orders w) ∧
    ready_tasks ordm = ready_tasks ord ++ next_steps task ∧
    completed_tasks ordm = set_add_task task (completed_tasks ord) ∧
    tasks w1 = tasks w.
Proof.
  intros Hst Ho Hq H. unfold remove_task in H.
  rewrite (bind_Ok _ _ _ _ _ (get_station_Ok _ _ _ Hst)) in H.
  rewrite (list_remove_existsb _ _ _ _ Hq) in H.
  rewrite (bind_Ok _ _ _ _ _ (mark_task_as_completed_Ok _ self _ task _ Ho)) in H.
  set (ordm := if is_finished (marked task ord)
               then set_finish_time (now w) (marked task ord) else marked task ord).
  match type of H with
  | _ ?ww = _ => set (wm := ww) in H
  end.
  assert (Hslm : station_list wm = station_list w).
  { unfold wm. by destruct (is_finished _). }
  assert (Hom : orders wm = <[o := ordm]> (orders w)).
  { unfold wm, ordm. by destruct (is_finished _). }
  assert (Htm : tasks wm = tasks w).
  { unfold wm. by destruct (is_finished _). }
  assert (Hstm : station_list wm !! self = Some st) by by rewrite Hslm.
  rewrite (bind_Ok _ _ _ _ _ (get_station_Ok _ _ _ Hstm)) in H.
  rewrite Hq in H.
  rewrite (bind_Ok _ _ _ _ _ (set_station_Ok _ _ _ _ Hstm)) in H.
  destruct (orControlSystem st); [|done].
  unfold update_stations_loads in H.
  pose proof (still_update_load_contribution o task
                (set_station_list (alter (set_ws_tasks_queue q) self (station_list wm)) wm))
    as Hkept.
  rewrite H in Hkept. cbn [final] in Hkept.
  eexists _, ordm. split; [exact Hkept|].
  split.
  { cbn [station_list set_station_list]. rewrite Hslm.
    by apply (alter_lookup_insert (set_ws_tasks_queue q)). }
  split; [done|].
  split; [unfold ordm; by destruct (is_finished _)|].
  split; [unfold ordm; by destruct (is_finished _)|].
  done.
Qed.

(** X20. When [process_task] returns normally for a task of the queue of
    its station, the task has left that queue (its first entry for the order
    and the task) and is among the completed tasks of the order; the tasks
    that were ready and the successors of the task have been dispatched, each
    to the end of the queue of the station it is assigned to, in their order;
    no task of the order is left ready, and no queue has changed otherwise. *)
Theorem completion_dispatches_successors (w w' : World) (self o : nat) (task : Task)
    (st : Workstation) (ord : Order) (q : list (nat * Task)) :
  station_list w !! self = Some st →
  orders w !! o = Some ord →
  list_remove same_entry (o, task) (ws_tasks_queue st) = Some q →
  process_task_resume self o task w = Ok tt w' →
  (∃ ord', orders w' !! o = Some ord' ∧
           ready_tasks ord' = [] ∧
           completed_tasks ord' = set_add_task task (completed_tasks ord)) ∧
  ∀ i sti, station_list w !! i = Some sti →
    ∃ sti', station_list w' !! i = Some sti' ∧
            ws_tasks_queue sti'
            = (if decide (i = self) then q else ws_tasks_queue sti)
              ++ ((λ t, (o, t)) <$>
                  filter (λ t, assigned_station (task_state w t) = Some i)
                         (ready_tasks ord ++ next_steps task)).
Proof.
  intros Hst Ho Hq H. rewrite (process_task_resume_eq _ _ _ _ _ _ Hst Ho) in H.
  match type of H with
  | _ ?ww = _ => set (w2 := ww) in H
  end.
  apply bind_Ok_inv in H as ([] & w3 & Hstore & H).
  assert (∃ l, w3 = set_warehouse_list l w2) as [l ->].
  { destruct (produced_component task) as [c|].
    - destruct (str_eqb c "").
      + injection Hstore as <-. exists (warehouse_list w2).
        by rewrite set_warehouse_list_id.
      + rewrite bind_gets in Hstore.
        destruct (list_find _ _) as [[i h]|]; [|done].
        injection Hstore as <-. by eexists.
    - injection Hstore as <-. exists (warehouse_list w2).
      by rewrite set_warehouse_list_id. }
  clear Hstore.
  set (st2 := set_total_work_time (total_work_time st + process_time task)%Q st).
  assert (Hst3 : station_list (set_warehouse_list l w2) !! self = Some st2).
  { unfold w2. cbn [station_list set_warehouse_list set_events set_station_list].
    by rewrite list_lookup_alter_eq, Hst. }
  assert (Ho3 : orders (set_warehouse_list l w2) !! o = Some ord) by done.
  apply bind_Ok_inv in H as ([] & w4 & Hrem & H).
  destruct (remove_task_Ok_inv _ _ _ _ _ st2 ord q Hst3 Ho3 Hq Hrem)
    as (w1 & ordm & (Hkq & Hkr & Hkc & Hka) & Hsl1 & Ho1 & Hready & Hdone & Ht1).
  cbn [station_list orders tasks set_warehouse_list] in Hsl1, Ho1, Ht1.
  assert (Hlo : (o < length (orders w))%nat) by by eapply lookup_lt_Some.
  assert (Ho1' : orders w1 !! o = Some ordm).
  { rewrite Ho1. by apply list_lookup_insert_eq. }
  assert (∃ ord4, orders w4 !! o = Some ord4 ∧ ready_tasks ord4 = ready_tasks ordm ∧
                  completed_tasks ord4 = completed_tasks ordm) as (ord4 & Ho4 & Hr4 & Hc4).
  { pose proof (f_equal (λ x, x !! o) Hkr) as E1.
    pose proof (f_equal (λ x, x !! o) Hkc) as E2. cbv beta in E1, E2.
    rewrite !list_lookup_fmap, Ho1' in E1, E2.
    destruct (orders w4 !! o) as [ord4|]; [|done].
    injection E1 as E1. injection E2 as E2. by exists ord4. }
  rewrite (bind_Ok _ _ _ _ _ (get_order_Ok _ _ _ Ho4)) in H.
  cbv zeta in H. rewrite get_next_ready_tasks_eq in H.
  destruct (release_loop o (ready_tasks ord4) _ _ ord4 H Ho4 eq_refl)
    as (Ho' & _ & Hqs).
  split.
  { exists (set_ready_tasks [] ord4). split; [done|]. split; [done|].
    cbn [completed_tasks set_ready_tasks]. by rewrite Hc4, Hdone. }
  intros i sti Hi.
  assert (Hw1 : task_state w1 = task_state w).
  { unfold task_state. by rewrite Ht1. }
  assert (Hfilter : filter (λ t, assigned_station (task_state w4 t) = Some i)
                      (ready_tasks ord4)
                    = filter (λ t, assigned_station (task_state w t) = Some i)
                        (ready_tasks ord ++ next_steps task)).
  { rewrite Hr4, Hready. apply list_filter_iff. intros t. by rewrite Hka, Hw1. }
  assert (Hli : (i < length (station_list w))%nat) by by eapply lookup_lt_Some.
  assert (Hls : (self < length (station_list w))%nat) by by eapply lookup_lt_Some.
  assert (∃ st1, station_list w1 !! i = Some st1 ∧
                 ws_tasks_queue st1 = if decide (i = self) then q else ws_tasks_queue sti)
    as (st1 & Hi1 & Hq1).
  { rewrite Hsl1. unfold w2.
    cbn [station_list set_warehouse_list set_events set_station_list].
    destruct (decide (i = self)) as [->|Hne].
    - eexists. split; [apply list_lookup_insert_eq; by rewrite length_alter|done].
    - exists sti. split; [|done].
      by rewrite list_lookup_insert_ne, list_lookup_alter_ne by done. }
  assert (∃ st4, station_list w4 !! i = Some st4 ∧ ws_tasks_queue st4 = ws_tasks_queue st1)
    as (st4 & Hi4 & Hq4).
  { pose proof (f_equal (λ x, x !! i) Hkq) as E. cbv beta in E.
    rewrite !list_lookup_fmap, Hi1 in E.
    destruct (station_list w4 !! i) as [st4|]; [|done].
    injection E as E. by exists st4. }
  destruct (Hqs i st4 Hi4) as (sti' & Hi' & Hq').
  exists sti'. split; [done|]. by rewrite Hq', Hq4, Hq1, Hfilter.
Qed.

Lemma completion_dispatches_successors_witness :
  (∃ ord', orders t1_processed !! 0%nat = Some ord' ∧
           ready_tasks ord' = [] ∧
           completed_tasks ord' = [Fixture.t1]) ∧
  ∀ i sti, station_list (set_now 3 released_shop) !! i = Some sti →
    ∃ sti', station_list t1_processed !! i = Some sti' ∧
            ws_tasks_queue sti'
            = (if decide (i = 0%nat) then [] else ws_tasks_queue sti)
              ++ ((λ t, (0%nat, t)) <$>
                  filter (λ t, assigned_station (task_state (set_now 3 released_shop) t)
                               = Some i)
                         ([] ++ next_steps Fixture.t1)).
Proof.
  refine (completion_dispatches_successors (set_now 3 released_shop) t1_processed 0 0
            Fixture.t1 _ _ [] eq_refl eq_refl eq_refl _).
  vm_compute. reflexivity.
Defined.

(** T2 and T3, the successors of T1, stand in the queues of B-1 and C-1 when
    A-1 has processed T1. *)
Example successors_of_t1_dispatched :
  ws_tasks_queue <$> station_list t1_processed
  = [[]; [(0%nat, Fixture.t2)]; [(0%nat, Fixture.t3)]; []; []].
Proof. reflexivity. Qed.

(** ** The tasks of a generated order and the entries of its plan *)

(** [round] does not reverse the order of two numbers. *)
Lemma py_round_mono (x y : Q) (n : nat) :
  (x <= y)%Q → (py_round x n <= py_round y n)%Q.
Proof.
  intros Hxy. unfold py_round. cbv zeta.
  set (scale := inject_Z (10 ^ Z.of_nat n)).
  assert (Hscale : (0 < scale)%Q).
  { unfold scale. change 0%Q with (inject_Z 0). rewrite <- Zlt_Qlt.
    apply Z.pow_pos_nonneg; lia. }
  assert (Hle : (x * scale <= y * scale)%Q) by (apply Qmult_le_compat_r; [done|by apply Qlt_le_weak]).
  pose proof (Qfloor_resp_le _ _ Hle) as Hf.
  pose proof (Qfloor_le (x * scale)) as Hx1. pose proof (Qlt_floor (x * scale)) as Hx2.
  pose proof (Qfloor_le (y * scale)) as Hy1. pose proof (Qlt_floor (y * scale)) as Hy2.
  set (fx := Qfloor (x * scale)) in *. set (fy := Qfloor (y * scale)) in *.
  match goal with
  | |- (inject_Z ?a / _ <= inject_Z ?b / _)%Q => assert (Hn : (a ≤ b)%Z)
  end.
  { destruct (Z.eq_dec fx fy) as [E|E].
    - rewrite <- E.
      destruct (Qltb (x * scale - inject_Z fx) (1 # 2)) eqn:A1.
      + repeat destruct (Qltb _ _); try destruct (Z.even fx); lia.
      + apply Qltb_ge in A1.
        destruct (Qltb (1 # 2) (x * scale - inject_Z fx)) eqn:A2.
        * apply Qltb_lt in A2.
          assert (Qltb (y * scale - inject_Z fx) (1 # 2) = false) as ->.
          { apply Qltb_ge. lra. }
          assert (Qltb (1 # 2) (y * scale - inject_Z fx) = true) as ->.
          { apply Qltb_lt. lra. }
          lia.
        * assert (Qltb (y * scale - inject_Z fx) (1 # 2) = false) as ->.
          { apply Qltb_ge. lra. }
          destruct (Qltb (1 # 2) (y * scale - inject_Z fx)); destruct (Z.even fx); lia.
    - assert (fx + 1 ≤ fy)%Z by lia.
      repeat destruct (Qltb _ _); try destruct (Z.even fx); try destruct (Z.even fy); lia. }
  unfold Qdiv. apply Qmult_le_compat_r.
  - by rewrite <- Zle_Qle.
  - apply Qlt_le_weak, Qinv_lt_0_compat, Hscale.
Qed.

Lemma kept_data_eq max_depth current_depth d :
  kept_data max_depth current_depth d =
  if (max_depth <? current_depth)%Z then []
  else d :: flat_map (kept_data max_depth (current_depth + 1)) (td_next_steps d).
Proof. by destruct d. Qed.

Section PlanMirrored.
Context {G : Type} `{!NumpyRandom G}.
Variable self : OrderGenerator.
Hypothesis Hgamma : ∀ g, (0 <= (random_gamma 2 1 g).1)%Q.

(** The scaled time is not below the minimal time. *)
Lemma generate_erlang_process_time_min (min_time max_time : Q) (g : G) :
  (min_time <= max_time)%Q →
  (min_time <= (generate_erlang_process_time min_time max_time 2 1 g).1)%Q.
Proof.
  intros Hmm. unfold generate_erlang_process_time.
  pose proof (Hgamma g) as He.
  destruct (random_gamma 2 1 g) as [e g']. cbn [fst] in *.
  assert (0 <= (max_time - min_time) * (e / (2 * 1)))%Q as Hp.
  { apply Qmult_le_0_compat; [lra|]. unfold Qdiv.
    apply Qmult_le_0_compat; [done|]. by apply Qinv_le_0_compat. }
  lra.
Qed.

Lemma mirror_children (n : string) (cd md : Z) (l : list TaskData) :
  Forall (λ d, ∀ cd md parent (s : GenState G),
            (cd ≤ md)%Z →
            Forall (λ e, (td_time_min e <= td_time_max e)%Q) (kept_data md cd d) →
            ∃ t s', traverse_and_generate self d cd md parent s = (Some t, s') ∧
                    Forall2 (made_from self) (flatten_task t) (kept_data md cd d)) l →
  Forall (λ e, (td_time_min e <= td_time_max e)%Q) (flat_map (kept_data md (cd + 1)) l) →
  ∀ s, ∃ ts s',
    collect (λ d, traverse_and_generate self d (cd + 1) md (Some n)) l s = (ts, s') ∧
    Forall2 (made_from self) (flatten ts) (flat_map (kept_data md (cd + 1)) l).
Proof.
  induction 1 as [|d l Hd _ IH]; intros Hb s.
  - exists [], s. split; [done|]. constructor.
  - rewrite collect_cons. cbn [flat_map] in Hb. apply Forall_app in Hb as [Hbd Hbl].
    destruct (Z.lt_ge_cases md (cd + 1)) as [Hlt|Hge].
    + rewrite (proj1 (traverse_and_generate_spec self d (cd + 1) md (Some n) s) Hlt).
      destruct (IH Hbl s) as (ts & s' & Hrun & Hm). rewrite Hrun.
      exists ts, s'. split; [done|]. cbn [flat_map].
      rewrite (kept_data_eq md (cd + 1) d), (proj2 (Z.ltb_lt _ _) Hlt). done.
    + destruct (Hd (cd + 1)%Z md (Some n) s Hge Hbd) as (c & s1 & Hc & Hmc).
      rewrite Hc. destruct (IH Hbl s1) as (ts & s' & Hrun & Hm). rewrite Hrun.
      exists (c :: ts), s'. split; [done|].
      change (flatten (c :: ts)) with (flatten_task c ++ flatten ts).
      cbn [flat_map]. by apply Forall2_app.
Qed.

Lemma mirror_task (d : TaskData) :
  ∀ cd md parent (s : GenState G),
    (cd ≤ md)%Z →
    Forall (λ e, (td_time_min e <= td_time_max e)%Q) (kept_data md cd d) →
    ∃ t s', traverse_and_generate self d cd md parent s = (Some t, s') ∧
            Forall2 (made_from self) (flatten_task t) (kept_data md cd d).
Proof.
  induction d as [d IH] using TaskData_children_ind.
  intros cd md parent s Hle Hb. rewrite traverse_and_generate_eq.
  rewrite (kept_data_eq md cd d), (proj2 (Z.ltb_ge _ _) Hle) in Hb |- *.
  apply Forall_cons in Hb as [Hbd Hbl].
  pose proof (generate_erlang_process_time_min _ _ (rng s) Hbd) as Hmin.
  destruct (generate_erlang_process_time (td_time_min d) (td_time_max d) 2 1 (rng s))
    as [pt g']. cbn [fst] in Hmin. cbv zeta.
  destruct (mirror_children (td_task d) cd md (td_next_steps d) IH Hbl
              (mkGenState g' (S (fresh s)))) as (ts & s' & Hrun & Hm).
  rewrite Hrun. eexists _, s'. split; [reflexivity|].
  rewrite flatten_task_eq. cbn [next_steps]. constructor; [|done].
  unfold made_from. cbn [task_name produced_component revenue station process_time].
  split; [done|]. split; [done|]. split; [done|]. split; [done|].
  by apply py_round_mono.
Qed.

Lemma mirror_roots (md : Z) (l : list TaskData) :
  (1 ≤ md)%Z →
  Forall (λ e, (td_time_min e <= td_time_max e)%Q) (flat_map (kept_data md 1) l) →
  ∀ s : GenState G, ∃ ts s',
    collect_all (λ d, traverse_and_generate self d 1 md None) l s = (Some <$> ts, s') ∧
    Forall2 (made_from self) (flatten ts) (flat_map (kept_data md 1) l).
Proof.
  intros Hmd. induction l as [|d l IH]; intros Hb s.
  - exists [], s. split; [done|]. constructor.
  - rewrite collect_all_cons. cbn [flat_map] in Hb. apply Forall_app in Hb as [Hbd Hbl].
    destruct (mirror_task d 1 md None s Hmd Hbd) as (c & s1 & Hc & Hmc).
    rewrite Hc. destruct (IH Hbl s1) as (ts & s' & Hrun & Hm). rewrite Hrun.
    exists (c :: ts), s'. split; [done|].
    change (flatten (c :: ts)) with (flatten_task c ++ flatten ts).
    cbn [flat_map]. by apply Forall2_app.
Qed.
End PlanMirrored.

(** X21. The tasks of a generated order mirror the entries of its plan, one
    task for each entry down to the depth of the order and in the same order:
    a task has the name, the produced component and the revenue of its entry
    and the station type of its name ([Unknown] when the name has none).
    With gamma draws that are not negative and entries whose minimal time is
    not above their maximal time, its process time is not below the minimal
    time of the entry rounded to two digits. *)
Theorem generated_tasks_mirror_plan {G : Type} `{!NumpyRandom G}
    (self : OrderGenerator) (order_index : nat) (dpp : Dpp) (arrival : Q)
    (s : GenState G) :
  let d := (random_randint 1 (order_max_depth self + 1) (rng s)).1 in
  (1 ≤ d)%Z →
  (∀ g, (0 <= (random_gamma 2 1 g).1)%Q) →
  Forall (λ e, (td_time_min e <= td_time_max e)%Q)
         (flat_map (kept_data d 1) (dpp_disassembly_flow dpp)) →
  ∃ ord s',
    generate_dpp_order self order_index dpp arrival s = (inr ord, s') ∧
    Forall2 (made_from self) (flat_plan ord)
            (flat_map (kept_data d 1) (dpp_disassembly_flow dpp)).
Proof.
  intros d0. unfold generate_dpp_order. subst d0.
  destruct (random_randint 1 (order_max_depth self + 1) (rng s)) as [d g1].
  destruct (random_uniform _ _ g1) as [u g2].
  destruct (random_choice _ _ g2) as [p g3]. cbv zeta. cbn [fst].
  intros Hd Hgamma Hb.
  destruct (mirror_roots self Hgamma d (dpp_disassembly_flow dpp) Hd Hb
              (mkGenState g3 (fresh s))) as (ts & s' & Hrun & Hm).
  rewrite Hrun. cbv beta iota. rewrite checked_plan_Some.
  eexists _, s'. split; [reflexivity|]. exact Hm.
Qed.

Lemma generated_tasks_mirror_plan_witness :
  ∃ ord s',
    generate_dpp_order small_generator 0 small_plan 0 (mkGenState 0%nat 100%nat)
    = (inr ord, s') ∧
    Forall2 (made_from small_generator) (flat_plan ord)
            (flat_map (kept_data 2 1) (dpp_disassembly_flow small_plan)).
Proof.
  refine (generated_tasks_mirror_plan small_generator 0 small_plan 0
            (mkGenState 0%nat 100%nat) _ _ _).
  - vm_compute. discriminate.
  - intros g. vm_compute. discriminate.
  - vm_compute. repeat (constructor; [discriminate|]). constructor.
Defined.

(** With the gamma draw 1, half of its mean, the process time of T1 is 3,
    halfway between the times 2 and 4 of its entry. *)
Example generated_process_times :
  ∃ ord s', generate_dpp_order small_generator 0 small_plan 0 (mkGenState 0%nat 100%nat)
            = (inr ord, s') ∧
            Forall2 Qeq (process_time <$> flat_plan ord) [3; 2; 2]%Q.
Proof.
  eexists _, _. split; [vm_compute; reflexivity|].
  vm_compute. repeat (constructor; [reflexivity|]). constructor.
Qed.
